(** * Turbine flow sensor firmware: pulse-to-measurement pipeline

    A shallow embedding of the Arduino sketches of the repository:

    - [flow_control/flow_control.ino]: the interrupt-driven pulse counter,
      the periodic [loop] that drains it and derives frequency, flow rate,
      interval volume and running total, and the BLE notification payload;
    - the serial-only driver sketch, in its two versions, which declares the
      same globals, computes the same quantities once a second (partly in
      [double]) and adds the accessors [getFlowRate], [getTotalVolume],
      [resetTotalVolume] and [setCalibrationFactor].

    The C types [float] and [double] are IEEE 754 binary32 and binary64;
    they are modelled by the Standard Library's [spec_float] at precision
    24 (53) and maximal exponent 128 (1024), with round-to-nearest-even
    operations.  [unsigned long] is the 32-bit unsigned integer of the
    ESP32-C6, modelled as [Z] with the wrap-around written out.  The text
    written to the serial console is not modelled. *)

From Stdlib Require Import ZArith Bool List Ascii String Lia.
From Stdlib Require Import Floats.SpecFloat.
Import ListNotations.

Local Open Scope Z_scope.

(** ** Vocabulary for a binary format of precision [prec] and maximal
    exponent [emax] *)

(** The float built from a rounded mantissa and its exponent. *)
Definition pack (prec emax : Z) (s : bool) (m e : Z) : spec_float :=
  match m with
  | Z0 => S754_zero s
  | Zpos p => if e <=? emax - prec then S754_finite s p e else S754_infinity s
  | Zneg _ => S754_nan
  end.

(** A mantissa that is zero or has the number of digits its exponent asks
    for. *)
Definition canonical (prec emax : Z) (m e : Z) : Prop :=
  m = 0 \/ fexp prec emax (Zdigits2 m + e) = e.

(** A positive normal float ([prec]-digit mantissa) with exponent in
    [lo, hi]. *)
Definition normal_in (prec lo hi : Z) (x : spec_float) : Prop :=
  exists m e,
    x = S754_finite false m e /\ Zdigits2 (Zpos m) = prec /\ lo <= e <= hi.

(** [+0], a positive finite float of the format, or [+inf]. *)
Definition nonneg_valid (prec emax : Z) (x : spec_float) : bool :=
  match x with
  | S754_zero s => negb s
  | S754_infinity s => negb s
  | S754_nan => false
  | S754_finite s m e => negb s && bounded prec emax m e
  end.

(** [+0], a positive finite number or [+inf], whatever its mantissa. *)
Definition nonneg (x : spec_float) : bool :=
  match x with
  | S754_zero s | S754_infinity s | S754_finite s _ _ => negb s
  | S754_nan => false
  end.

(** ** IEEE 754 binary32: [float] *)

Module F32.

Definition prec : Z := 24.
Definition emax : Z := 128.

Definition float32 : Type := spec_float.

Definition add : float32 -> float32 -> float32 := SFadd prec emax.
Definition mul : float32 -> float32 -> float32 := SFmul prec emax.
Definition div : float32 -> float32 -> float32 := SFdiv prec emax.

(** C's [<], [<=] and [==] on floats: false as soon as one side is NaN. *)
Definition ltb : float32 -> float32 -> bool := SFltb.
Definition leb : float32 -> float32 -> bool := SFleb.
Definition eqb : float32 -> float32 -> bool := SFeqb.

(** Conversion of an integer to [float], rounding to nearest even. *)
Definition of_Z (n : Z) : float32 := binary_normalize prec emax n 0 false.

(** The float nearest to [m * 2^e]. *)
Definition of_scaled (m e : Z) : float32 :=
  binary_normalize prec emax m e false.

(** The float nearest to the ratio [p / q] of two integers that are
    themselves floats: a correctly rounded division of exact operands. *)
Definition of_ratio (p q : Z) : float32 := div (of_Z p) (of_Z q).

Definition zero : float32 := S754_zero false.

(** [+0], a positive finite float of the format, or [+inf]. *)
Definition nonneg_valid : float32 -> bool := nonneg_valid prec emax.

End F32.

Definition float32 : Type := F32.float32.

(** ** IEEE 754 binary64: [double] *)

Module F64.

Definition prec : Z := 53.
Definition emax : Z := 1024.

Definition float64 : Type := spec_float.

Definition div : float64 -> float64 -> float64 := SFdiv prec emax.

Definition ltb : float64 -> float64 -> bool := SFltb.

(** Conversion of an integer to [double]. *)
Definition of_Z (n : Z) : float64 := binary_normalize prec emax n 0 false.

Definition zero : float64 := S754_zero false.

End F64.

Definition float64 : Type := F64.float64.

(** Promotion of a [float] to [double]: the same number, with the
    mantissa of a [double]. *)
Definition double_of_float (x : float32) : float64 :=
  match x with
  | S754_finite s m e => binary_round F64.prec F64.emax s m e
  | _ => x
  end.

(** Conversion of a [double] to [float], rounding to nearest even. *)
Definition float_of_double (x : float64) : float32 :=
  match x with
  | S754_finite s m e => binary_round F32.prec F32.emax s m e
  | _ => x
  end.

(** [+0] or a positive [float] of the format below [2^54]. *)
Definition total_ok (x : float32) : Prop :=
  x = F32.zero \/
  exists m e, x = S754_finite false m e /\
              bounded F32.prec F32.emax m e = true /\ e <= 30.

(** ** 32-bit [unsigned long] *)

Module ULong.

Definition modulus : Z := 2 ^ 32.

Definition in_range (n : Z) : Prop := 0 <= n < modulus.

Definition wrap (n : Z) : Z := n mod modulus.

Definition sub (a b : Z) : Z := wrap (a - b).

Definition succ (a : Z) : Z := wrap (a + 1).

End ULong.

(** ** Globals of the sketches *)

Record state : Type := mkState {
  pulseCount : Z;                 (* volatile unsigned long *)
  lastTime : Z;                   (* unsigned long, milliseconds *)
  flowRate : float32;             (* L/min *)
  totalVolume : float32;          (* L *)
  calibrationFactor : float32;    (* Frequency(Hz) = factor * Q (L/min) *)
  deviceConnected : bool          (* flow_control.ino only *)
}.

(** [const float ML_PER_PULSE = 2.25;] *)
Definition ML_PER_PULSE : float32 := Eval vm_compute in F32.of_scaled 9 (-2).

(** [const unsigned long CALC_INTERVAL = 100;] in [flow_control.ino] *)
Definition CALC_INTERVAL : Z := 100.

(** The literal [1000.0f]. *)
Definition f1000 : float32 := Eval vm_compute in F32.of_Z 1000.

(** The literal [1000.0]. *)
Definition d1000 : float64 := Eval vm_compute in F64.of_Z 1000.

(** The initial value [5.0] of [calibrationFactor]. *)
Definition f5 : float32 := Eval vm_compute in F32.of_Z 5.

(** The globals as initialised at their declarations. *)
Definition initial_state : state :=
  {| pulseCount := 0;
     lastTime := 0;
     flowRate := F32.zero;
     totalVolume := F32.zero;
     calibrationFactor := f5;
     deviceConnected := false |}.

(** [setup()] ends with [lastTime = millis();]. *)
Definition setup (now : Z) (st : state) : state :=
  {| pulseCount := pulseCount st;
     lastTime := now;
     flowRate := flowRate st;
     totalVolume := totalVolume st;
     calibrationFactor := calibrationFactor st;
     deviceConnected := deviceConnected st |}.

(** ** Pulse counter (interrupt context): [pulseCount++] *)

Definition pulseCounter (st : state) : state :=
  {| pulseCount := ULong.succ (pulseCount st);
     lastTime := lastTime st;
     flowRate := flowRate st;
     totalVolume := totalVolume st;
     calibrationFactor := calibrationFactor st;
     deviceConnected := deviceConnected st |}.

(** BLE server callbacks. *)
Definition onConnect (st : state) : state :=
  {| pulseCount := pulseCount st;
     lastTime := lastTime st;
     flowRate := flowRate st;
     totalVolume := totalVolume st;
     calibrationFactor := calibrationFactor st;
     deviceConnected := true |}.

Definition onDisconnect (st : state) : state :=
  {| pulseCount := pulseCount st;
     lastTime := lastTime st;
     flowRate := flowRate st;
     totalVolume := totalVolume st;
     calibrationFactor := calibrationFactor st;
     deviceConnected := false |}.

(** ** Flow calculation: the body of [loop] in [flow_control.ino] *)

(** The locals of one interval computation. *)
Record sample : Type := mkSample {
  pulses : Z;
  frequency : float32;
  sampleFlowRate : float32;
  volumeThisInterval_L : float32;
  volumeThisInterval_mL : float32;
  sampleTotalVolume : float32
}.

(** [float elapsedSeconds = (currentTime - lastTime) / 1000.0f;] *)
Definition elapsedSeconds_of (currentTime lastTime : Z) : float32 :=
  F32.div (F32.of_Z (ULong.sub currentTime lastTime)) f1000.

(** [(elapsedSeconds > 0) ? (pulses / elapsedSeconds) : 0.0f] *)
Definition frequency_of (pulses : Z) (elapsedSeconds : float32) : float32 :=
  if F32.ltb F32.zero elapsedSeconds
  then F32.div (F32.of_Z pulses) elapsedSeconds
  else F32.zero.

(** A division that refuses a zero divisor, to observe whether the
    expression above ever divides by zero. *)
Definition checked_div (x y : float32) : option float32 :=
  if F32.eqb y F32.zero then None else Some (F32.div x y).

Definition frequency_checked (pulses : Z) (elapsedSeconds : float32)
  : option float32 :=
  if F32.ltb F32.zero elapsedSeconds
  then checked_div (F32.of_Z pulses) elapsedSeconds
  else Some F32.zero.

(** [(pulses * ML_PER_PULSE) / 1000.0f] *)
Definition volume_L_of (pulses : Z) : float32 :=
  F32.div (F32.mul (F32.of_Z pulses) ML_PER_PULSE) f1000.

(** Lines 142-151: from the drained pulse count and the elapsed time to the
    sample, with [calibrationFactor] and [totalVolume] read from the
    globals. *)
Definition calc (st : state) (pulses : Z) (elapsedSeconds : float32) : sample :=
  let frequency := frequency_of pulses elapsedSeconds in
  let flowRate := F32.div frequency (calibrationFactor st) in
  let volumeThisInterval_L := volume_L_of pulses in
  let volumeThisInterval_mL := F32.mul volumeThisInterval_L f1000 in
  {| pulses := pulses;
     frequency := frequency;
     sampleFlowRate := flowRate;
     volumeThisInterval_L := volumeThisInterval_L;
     volumeThisInterval_mL := volumeThisInterval_mL;
     sampleTotalVolume := F32.add (totalVolume st) volumeThisInterval_L |}.

(** The globals after the interval computation: the counter is drained,
    [flowRate] and [totalVolume] are assigned, [lastTime] is advanced. *)
Definition commit (st : state) (currentTime : Z) (s : sample) : state :=
  {| pulseCount := 0;
     lastTime := currentTime;
     flowRate := sampleFlowRate s;
     totalVolume := sampleTotalVolume s;
     calibrationFactor := calibrationFactor st;
     deviceConnected := deviceConnected st |}.

(** One interval computation on given pulses and elapsed time. *)
Definition step (st : state) (currentTime : Z) (pulses : Z)
    (elapsedSeconds : float32) : state :=
  commit st currentTime (calc st pulses elapsedSeconds).

(** The sample of one pass through [loop], if the interval has elapsed. *)
Definition loop_sample (currentTime : Z) (st : state) : option sample :=
  if CALC_INTERVAL <=? ULong.sub currentTime (lastTime st)
  then Some (calc st (pulseCount st)
               (elapsedSeconds_of currentTime (lastTime st)))
  else None.

(** [loop()], with [millis()] as input. *)
Definition loop (currentTime : Z) (st : state) : state :=
  match loop_sample currentTime st with
  | Some s => commit st currentTime s
  | None => st
  end.

(** ** The serial-only driver sketch

    Its [loop] computes once [CALC_INTERVAL = 1000] ms have elapsed and
    divides without a guard.  The literal [1000.0] is a [double], so the
    divisions by it are done in [double] and converted back on
    assignment to a [float]. *)

Module Serial.

Definition CALC_INTERVAL : Z := 1000.

(** [(currentTime - lastTime) / 1000.0] *)
Definition elapsed (currentTime lastTime : Z) : float64 :=
  F64.div (F64.of_Z (ULong.sub currentTime lastTime)) d1000.

(** Second version:
    [float elapsedSeconds = (currentTime - lastTime) / 1000.0;] *)
Definition elapsedSeconds_of (currentTime lastTime : Z) : float32 :=
  float_of_double (elapsed currentTime lastTime).

(** Second version: [float frequency = pulseCount / elapsedSeconds;] *)
Definition frequency_of (pulseCount : Z) (elapsedSeconds : float32) : float32 :=
  F32.div (F32.of_Z pulseCount) elapsedSeconds.

(** First version:
    [float frequency = pulseCount / ((currentTime - lastTime) / 1000.0);] *)
Definition frequency_double (pulseCount currentTime lastTime : Z) : float32 :=
  float_of_double
    (F64.div (F64.of_Z pulseCount) (elapsed currentTime lastTime)).

(** [float volumeThisSecond = (pulseCount * ML_PER_PULSE) / 1000.0;] *)
Definition volumeThisSecond (pulseCount : Z) : float32 :=
  float_of_double
    (F64.div (double_of_float (F32.mul (F32.of_Z pulseCount) ML_PER_PULSE))
       d1000).

(** The globals after the body of the [if]. *)
Definition update (st : state) (currentTime : Z) (frequency : float32)
  : state :=
  {| pulseCount := 0;
     lastTime := currentTime;
     flowRate := F32.div frequency (calibrationFactor st);
     totalVolume := F32.add (totalVolume st) (volumeThisSecond (pulseCount st));
     calibrationFactor := calibrationFactor st;
     deviceConnected := deviceConnected st |}.

(** [loop()] of the first version. *)
Definition loop (currentTime : Z) (st : state) : state :=
  if CALC_INTERVAL <=? ULong.sub currentTime (lastTime st)
  then update st currentTime
         (frequency_double (pulseCount st) currentTime (lastTime st))
  else st.

(** [loop()] of the second version. *)
Definition loop_hz (currentTime : Z) (st : state) : state :=
  if CALC_INTERVAL <=? ULong.sub currentTime (lastTime st)
  then update st currentTime
         (frequency_of (pulseCount st)
            (elapsedSeconds_of currentTime (lastTime st)))
  else st.

End Serial.

(** ** Accessors of the driver sketch *)

Definition getFlowRate (st : state) : float32 := flowRate st.

Definition getTotalVolume (st : state) : float32 := totalVolume st.

(** [totalVolume = 0.0;] *)
Definition resetTotalVolume (st : state) : state :=
  {| pulseCount := pulseCount st;
     lastTime := lastTime st;
     flowRate := flowRate st;
     totalVolume := F32.zero;
     calibrationFactor := calibrationFactor st;
     deviceConnected := deviceConnected st |}.

(** [calibrationFactor = factor;] *)
Definition setCalibrationFactor (factor : float32) (st : state) : state :=
  {| pulseCount := pulseCount st;
     lastTime := lastTime st;
     flowRate := flowRate st;
     totalVolume := totalVolume st;
     calibrationFactor := factor;
     deviceConnected := deviceConnected st |}.

(** ** Operations on the globals, of either sketch *)

Inductive operation : Type :=
| OpSetup (now : Z)
| OpPulse
| OpLoop (currentTime : Z)
| OpSerialLoop (currentTime : Z)
| OpSerialLoopHz (currentTime : Z)
| OpConnect
| OpDisconnect
| OpReset
| OpSetCalibration (factor : float32).

Definition run (op : operation) (st : state) : state :=
  match op with
  | OpSetup now => setup now st
  | OpPulse => pulseCounter st
  | OpLoop currentTime => loop currentTime st
  | OpSerialLoop currentTime => Serial.loop currentTime st
  | OpSerialLoopHz currentTime => Serial.loop_hz currentTime st
  | OpConnect => onConnect st
  | OpDisconnect => onDisconnect st
  | OpReset => resetTotalVolume st
  | OpSetCalibration factor => setCalibrationFactor factor st
  end.

Definition run_all (ops : list operation) (st : state) : state :=
  fold_left (fun s op => run op s) ops st.

Definition is_reset (op : operation) : bool :=
  match op with OpReset => true | _ => false end.

(** ** Invariants

    The pulse counter fits in an [unsigned long] and the running total is
    [+0], a positive float of the format or [+inf]. *)
Record wf_state (st : state) : Prop := mkWf {
  wf_pulseCount : ULong.in_range (pulseCount st);
  wf_total : F32.nonneg_valid (totalVolume st) = true
}.

(** The states of [flow_control.ino]: from the initial globals through
    [setup], pulse interrupts, BLE callbacks and passes of [loop]. *)
Inductive reachable : state -> Prop :=
| reach_init : reachable initial_state
| reach_setup now st : reachable st -> reachable (setup now st)
| reach_pulse st : reachable st -> reachable (pulseCounter st)
| reach_loop currentTime st : reachable st -> reachable (loop currentTime st)
| reach_connect st : reachable st -> reachable (onConnect st)
| reach_disconnect st : reachable st -> reachable (onDisconnect st).

(** ** The notification payload

    [snprintf(payload, sizeof(payload), "%lu,%.2f,%.3f,%.2f,%.4f", ...)]
    with [char payload[128]].  The C library's formatting is modelled for
    the conversions the sketch uses: [%lu] prints an unsigned integer in
    decimal, [%.Nf] prints a [double] (here a promoted [float], the same
    number) with [N] digits after the point, rounded to nearest, ties to
    even; [snprintf] keeps at most [size - 1] characters. *)

Definition digit_char (d : Z) : ascii := ascii_of_nat (48 + Z.to_nat d).

Definition is_digit (c : ascii) : bool :=
  let n := nat_of_ascii c in (48 <=? n)%nat && (n <=? 57)%nat.

(** Decimal digits of [n], most significant first, in front of [acc]. *)
Fixpoint digits_fuel (fuel : nat) (n : Z) (acc : list ascii) : list ascii :=
  match fuel with
  | O => acc
  | S fuel' =>
      let acc' := digit_char (n mod 10) :: acc in
      if n / 10 =? 0 then acc' else digits_fuel fuel' (n / 10) acc'
  end.

(** [%lu] *)
Definition fmt_lu (n : Z) : list ascii :=
  digits_fuel (S (Z.to_nat (Z.log2 n))) n [].

(** The [w] low decimal digits of [n], with leading zeros. *)
Fixpoint fixed_digits (w : nat) (n : Z) : list ascii :=
  match w with
  | O => []
  | S w' => fixed_digits w' (n / 10) ++ [digit_char (n mod 10)]
  end.

(** The integer nearest to [num / den], ties to even. *)
Definition round_half_even_div (num den : Z) : Z :=
  let q := num / den in
  let r := num mod den in
  match 2 * r ?= den with
  | Lt => q
  | Gt => q + 1
  | Eq => if Z.even q then q else q + 1
  end.

(** The integer nearest to [m * 2^e * 10^N]. *)
Definition scaled_decimal (N : nat) (m e : Z) : Z :=
  if 0 <=? e then m * 2 ^ e * 10 ^ Z.of_nat N
  else round_half_even_div (m * 10 ^ Z.of_nat N) (2 ^ (- e)).

Definition sign_chars (s : bool) : list ascii := if s then ["-"%char] else [].

Definition fmt_fixed (N : nat) (s : bool) (q : Z) : list ascii :=
  sign_chars s ++ fmt_lu (q / 10 ^ Z.of_nat N)
    ++ "."%char :: fixed_digits N (q mod 10 ^ Z.of_nat N).

(** [%.Nf] for [N > 0] *)
Definition fmt_f (N : nat) (x : float32) : list ascii :=
  match x with
  | S754_nan => ["n"%char; "a"%char; "n"%char]
  | S754_infinity s => sign_chars s ++ ["i"%char; "n"%char; "f"%char]
  | S754_zero s => fmt_fixed N s 0
  | S754_finite s m e => fmt_fixed N s (scaled_decimal N (Zpos m) e)
  end.

Inductive directive : Type :=
| Lit (c : ascii)
| ConvLu
| ConvF (precision : nat).

Inductive printf_arg : Type :=
| ArgULong (n : Z)
| ArgDouble (x : float32).

Definition digit_value (c : ascii) : nat := nat_of_ascii c - 48.

(** The conversions of a format string: [%lu], [%.Nf] with a one-digit
    precision, and literal characters. *)
Fixpoint parse_format (fmt : list ascii) : list directive :=
  match fmt with
  | [] => []
  | "%"%char :: "l"%char :: "u"%char :: rest => ConvLu :: parse_format rest
  | "%"%char :: "."%char :: d :: "f"%char :: rest =>
      ConvF (digit_value d) :: parse_format rest
  | c :: rest => Lit c :: parse_format rest
  end.

(** Output of the directives on the arguments; an argument of the wrong
    kind ends the output (the C standard leaves that case undefined). *)
Fixpoint format (ds : list directive) (args : list printf_arg) : list ascii :=
  match ds with
  | [] => []
  | Lit c :: ds' => c :: format ds' args
  | ConvLu :: ds' =>
      match args with
      | ArgULong n :: args' => fmt_lu n ++ format ds' args'
      | _ => []
      end
  | ConvF N :: ds' =>
      match args with
      | ArgDouble x :: args' => fmt_f N x ++ format ds' args'
      | _ => []
      end
  end.

Definition snprintf (size : nat) (fmt : string) (args : list printf_arg)
  : list ascii :=
  firstn (size - 1) (format (parse_format (list_ascii_of_string fmt)) args).

Definition payload_format : string := "%lu,%.2f,%.3f,%.2f,%.4f"%string.

(** The payload written for a sample. *)
Definition payload (s : sample) : list ascii :=
  snprintf 128 payload_format
    [ArgULong (pulses s);
     ArgDouble (frequency s);
     ArgDouble (sampleFlowRate s);
     ArgDouble (volumeThisInterval_mL s);
     ArgDouble (sampleTotalVolume s)].

(** The value notified by one pass through [loop]:
    [if (deviceConnected && pCharacteristic)], with the characteristic
    created in [setup]. *)
Definition loop_notification (currentTime : Z) (st : state)
  : option (list ascii) :=
  match loop_sample currentTime st with
  | Some s => if deviceConnected st then Some (payload s) else None
  | None => None
  end.

(** Fields of a record separated by [sep]. *)
Fixpoint split_on (sep : ascii) (l : list ascii) : list (list ascii) :=
  match l with
  | [] => [[]]
  | c :: l' =>
      if Ascii.eqb c sep then [] :: split_on sep l'
      else match split_on sep l' with
           | [] => [[c]]
           | f :: fs => (c :: f) :: fs
           end
  end.

(** A non-empty run of decimal digits. *)
Definition integer_field (l : list ascii) : Prop :=
  l <> [] /\ forallb is_digit l = true.

(** Decimal digits, a point, and exactly [N] decimal digits. *)
Definition decimal_field (N : nat) (l : list ascii) : Prop :=
  exists ip fp, l = ip ++ "."%char :: fp /\ integer_field ip /\
                forallb is_digit fp = true /\ List.length fp = N.

(** The number written by a run of decimal digits. *)
Definition decimal_value (l : list ascii) : Z :=
  fold_left (fun a c => 10 * a + (Z.of_nat (nat_of_ascii c) - 48)) l 0.

(** [+0] or a positive float below [2^(24+K)]. *)
Definition small_nonneg (K : Z) (x : float32) : Prop :=
  x = F32.zero \/
  exists m e, x = S754_finite false m e /\ Zpos m < 2 ^ 24 /\ e <= K.

Definition comma : ascii := ","%char.

(** The characters of a record: digits, the point and the separator. *)
Definition record_char (c : ascii) : bool :=
  is_digit c || Ascii.eqb c "."%char || Ascii.eqb c comma.

(** A field holds no separator. *)
Definition no_comma (l : list ascii) : bool :=
  forallb (fun c => negb (Ascii.eqb c comma)) l.

(** ** Pulses handed to the interval computation *)

Definition is_pulse (op : operation) : bool :=
  match op with OpPulse => true | _ => false end.

(** Number of pulse interrupts in a history. *)
Definition interrupts (ops : list operation) : Z :=
  Z.of_nat (List.length (filter is_pulse ops)).

(** The pulses an operation takes out of the counter: what a pass through
    [loop] that computes reads (into [pulses] in [flow_control.ino]) before
    it resets [pulseCount]. *)
Definition drained (op : operation) (st : state) : Z :=
  match op with
  | OpLoop currentTime =>
      match loop_sample currentTime st with
      | Some s => pulses s
      | None => 0
      end
  | OpSerialLoop currentTime | OpSerialLoopHz currentTime =>
      if Serial.CALC_INTERVAL <=? ULong.sub currentTime (lastTime st)
      then pulseCount st
      else 0
  | _ => 0
  end.

Fixpoint drained_all (ops : list operation) (st : state) : Z :=
  match ops with
  | [] => 0
  | op :: ops' => drained op st + drained_all ops' (run op st)
  end.

(** [+0] or a positive finite float: neither NaN, nor infinite, nor
    negative. *)
Definition finite_nonneg (x : float32) : bool :=
  match x with
  | S754_zero s | S754_finite s _ _ => negb s
  | _ => false
  end.

(** ** The BLE characteristic of [flow_control.ino]

    [pCharacteristic] is null until [setupBLE] creates the characteristic
    and gives it its initial value; [loop] then writes each payload into
    it with [setValue] and calls [notify].  The peripheral is the globals
    together with the characteristic and the values [notify] was called
    on, oldest first. *)

Record peripheral : Type := mkPeripheral {
  globals : state;
  pCharacteristic : option (list ascii);   (* [None]: [nullptr] *)
  notified : list (list ascii)
}.

(** The initial value set in [setupBLE]. *)
Definition header : list ascii :=
  list_ascii_of_string
    "pulses,frequency_hz,flow_l_min,vol_ml_interval,total_l".

(** The characters [strlen] counts: those before the first NUL. *)
Fixpoint until_nul (l : list ascii) : list ascii :=
  match l with
  | [] => []
  | c :: l' => if Ascii.eqb c Ascii.zero then [] else c :: until_nul l'
  end.

(** The peripheral at power-on, with the globals at their initialisers. *)
Definition power_on : peripheral :=
  {| globals := initial_state; pCharacteristic := None; notified := [] |}.

(** [setupBLE()]: the characteristic is created and holds the header. *)
Definition setupBLE (d : peripheral) : peripheral :=
  {| globals := globals d;
     pCharacteristic := Some header;
     notified := notified d |}.

(** An operation on the globals alone. *)
Definition on_globals (f : state -> state) (d : peripheral) : peripheral :=
  {| globals := f (globals d);
     pCharacteristic := pCharacteristic d;
     notified := notified d |}.

(** [setup()]: [setupBLE();] then [lastTime = millis();]. *)
Definition setup_peripheral (now : Z) (d : peripheral) : peripheral :=
  on_globals (setup now) (setupBLE d).

(** Lines 172-186: [if (deviceConnected && pCharacteristic)], the payload
    is written to the characteristic and notified. *)
Definition send (s : sample) (d : peripheral) : peripheral :=
  match deviceConnected (globals d), pCharacteristic d with
  | true, Some _ =>
      {| globals := globals d;
         pCharacteristic := Some (until_nul (payload s));
         notified := notified d ++ [until_nul (payload s)] |}
  | _, _ => d
  end.

(** [loop()] on the peripheral. *)
Definition loop_peripheral (currentTime : Z) (d : peripheral) : peripheral :=
  match loop_sample currentTime (globals d) with
  | Some s => on_globals (fun st => commit st currentTime s) (send s d)
  | None => d
  end.

(** The peripheral once [setup] has run: the interrupt is attached and the
    BLE server started, so pulses, connections and disconnections arrive
    between passes of [loop]. *)
Inductive running : peripheral -> Prop :=
| running_setup now : running (setup_peripheral now power_on)
| running_pulse d : running d -> running (on_globals pulseCounter d)
| running_loop currentTime d :
    running d -> running (loop_peripheral currentTime d)
| running_connect d : running d -> running (on_globals onConnect d)
| running_disconnect d : running d -> running (on_globals onDisconnect d).

(** A value of five comma-separated columns. *)
Definition five_columns (v : list ascii) : Prop :=
  List.length (split_on comma v) = 5%nat.

(** * Rounding in a binary format *)

(** ** Binary digits *)

Lemma digits2_pos_size (p : positive) : digits2_pos p = Pos.size p.
Proof. induction p; cbn; congruence. Qed.

Lemma Zdigits2_log2 (m : Z) : 0 < m -> Zdigits2 m = Z.log2 m + 1.
Proof.
  destruct m as [|p|p]; try lia. intros _. cbn [Zdigits2].
  rewrite digits2_pos_size.
  destruct p; cbn [Z.log2 Pos.size]; lia.
Qed.

Lemma Zdigits2_pos (m : Z) : 0 < m -> 0 < Zdigits2 m.
Proof. intros H. rewrite Zdigits2_log2 by lia. pose proof (Z.log2_nonneg m). lia. Qed.

Lemma Zdigits2_bounds (m : Z) :
  0 < m -> 2 ^ (Zdigits2 m - 1) <= m < 2 ^ Zdigits2 m.
Proof.
  intros H. rewrite Zdigits2_log2 by lia.
  replace (Z.log2 m + 1 - 1) with (Z.log2 m) by lia.
  replace (Z.log2 m + 1) with (Z.succ (Z.log2 m)) by lia.
  apply Z.log2_spec; lia.
Qed.

Lemma Zdigits2_unique (m d : Z) :
  2 ^ (d - 1) <= m < 2 ^ d -> 0 < d -> Zdigits2 m = d.
Proof.
  intros H Hd.
  assert (0 < m) by (pose proof (Z.pow_pos_nonneg 2 (d - 1)); lia).
  rewrite Zdigits2_log2 by lia.
  assert (Z.log2 m = d - 1); [|lia].
  apply Z.log2_unique; [lia|]. replace (Z.succ (d - 1)) with d by lia. lia.
Qed.

Lemma Zdigits2_le (m n : Z) : 0 < m -> m <= n -> Zdigits2 m <= Zdigits2 n.
Proof.
  intros. rewrite !Zdigits2_log2 by lia.
  pose proof (Z.log2_le_mono m n). lia.
Qed.

Lemma Zdigits2_lt_pow2 (m k : Z) : 0 < m -> m < 2 ^ k -> 0 <= k -> Zdigits2 m <= k.
Proof.
  intros Hm Hlt Hk. pose proof (Zdigits2_bounds m Hm) as [Hlo _].
  destruct (Z_le_gt_dec (Zdigits2 m) k) as [|Hgt]; [assumption|].
  assert (2 ^ k <= 2 ^ (Zdigits2 m - 1)) by (apply Z.pow_le_mono_r; lia). lia.
Qed.

Lemma Zdigits2_pow2 (k : Z) : 0 <= k -> Zdigits2 (2 ^ k) = k + 1.
Proof.
  intros Hk. apply Zdigits2_unique; [|lia].
  replace (k + 1 - 1) with k by lia. split; [lia|].
  apply Z.pow_lt_mono_r; lia.
Qed.

Lemma Zdigits2_mul_pow2 (m k : Z) :
  0 < m -> 0 <= k -> Zdigits2 (m * 2 ^ k) = Zdigits2 m + k.
Proof.
  intros. assert (0 < 2 ^ k) by (apply Z.pow_pos_nonneg; lia).
  rewrite !Zdigits2_log2 by nia.
  rewrite Z.log2_mul_pow2 by lia. lia.
Qed.

Lemma Zdigits2_mul (a b : Z) :
  0 < a -> 0 < b ->
  Zdigits2 a + Zdigits2 b - 1 <= Zdigits2 (a * b) <= Zdigits2 a + Zdigits2 b.
Proof.
  intros Ha Hb. rewrite !Zdigits2_log2 by nia.
  pose proof (Z.log2_mul_below a b Ha Hb).
  pose proof (Z.log2_mul_above a b ltac:(lia) ltac:(lia)). lia.
Qed.

Lemma Zdigits2_div_pow2 (m k : Z) :
  0 < m -> 0 <= k < Zdigits2 m -> Zdigits2 (m / 2 ^ k) = Zdigits2 m - k.
Proof.
  intros Hm Hk.
  pose proof (Zdigits2_bounds m Hm) as [Hlo Hhi].
  assert (0 < 2 ^ k) by (apply Z.pow_pos_nonneg; lia).
  apply Zdigits2_unique; [|lia]. split.
  - apply Z.div_le_lower_bound; [lia|].
    rewrite <- Z.pow_add_r by lia.
    replace (k + (Zdigits2 m - k - 1)) with (Zdigits2 m - 1) by lia. lia.
  - apply Z.div_lt_upper_bound; [lia|].
    rewrite <- Z.pow_add_r by lia.
    replace (k + (Zdigits2 m - k)) with (Zdigits2 m) by lia. lia.
Qed.

Lemma div_pow2_small (m k : Z) :
  0 <= m -> Zdigits2 m <= k -> m / 2 ^ k = 0.
Proof.
  intros Hm Hk. apply Z.div_small. split; [lia|].
  destruct (Z.eq_dec m 0) as [->|]; [cbn in Hk; apply Z.pow_pos_nonneg; lia|].
  pose proof (Zdigits2_bounds m ltac:(lia)) as [_ Hhi].
  pose proof (Zdigits2_pos m ltac:(lia)).
  assert (2 ^ Zdigits2 m <= 2 ^ k) by (apply Z.pow_le_mono_r; lia). lia.
Qed.

Lemma Zdigits2_succ (m : Z) :
  0 < m ->
  Zdigits2 (m + 1) = Zdigits2 m \/
  (m + 1 = 2 ^ Zdigits2 m /\ Zdigits2 (m + 1) = Zdigits2 m + 1).
Proof.
  intros Hm.
  pose proof (Zdigits2_bounds m Hm) as [Hlo Hhi].
  pose proof (Zdigits2_pos m Hm).
  destruct (Z.eq_dec (m + 1) (2 ^ Zdigits2 m)) as [E|NE].
  - right. split; [exact E|].
    apply Zdigits2_unique; [|lia].
    replace (Zdigits2 m + 1 - 1) with (Zdigits2 m) by lia.
    rewrite Z.pow_add_r by lia. lia.
  - left. apply Zdigits2_unique; lia.
Qed.

Lemma pow2_pos (k : Z) : 0 <= k -> 0 < 2 ^ k.
Proof. intros. apply Z.pow_pos_nonneg; lia. Qed.

Lemma pow2_pred (k : Z) : 0 < k -> 2 ^ k = 2 * 2 ^ (k - 1).
Proof.
  intros Hk. rewrite <- Z.pow_succ_r by lia. f_equal. lia.
Qed.

(** ** Shifting right with round and sticky bits *)

Lemma shr_1_m (r : shr_record) :
  0 <= shr_m r -> shr_m (shr_1 r) = shr_m r / 2.
Proof.
  destruct r as [m rb sb]. cbn [shr_m]. intros Hm.
  destruct m as [|[p|p|]|p]; cbn [shr_1 shr_m]; try lia; try reflexivity.
  - apply (Z.div_unique _ _ _ 1); lia.
  - apply (Z.div_unique _ _ _ 0); lia.
Qed.

Lemma shr_1_r (r : shr_record) :
  0 <= shr_m r -> shr_r (shr_1 r) = Z.odd (shr_m r).
Proof.
  destruct r as [m rb sb]. cbn [shr_m]. intros Hm.
  destruct m as [|[p|p|]|p]; try lia; reflexivity.
Qed.

Lemma pow2_xI (n : positive) : 2 ^ Zpos n~1 = 2 * (2 ^ Zpos n * 2 ^ Zpos n).
Proof.
  replace (Zpos n~1) with (1 + (Zpos n + Zpos n)) by lia.
  rewrite !Z.pow_add_r by lia. reflexivity.
Qed.

Lemma pow2_xO (n : positive) : 2 ^ Zpos n~0 = 2 ^ Zpos n * 2 ^ Zpos n.
Proof.
  replace (Zpos n~0) with (Zpos n + Zpos n) by lia.
  rewrite !Z.pow_add_r by lia. reflexivity.
Qed.

Lemma iter_shr_1_m (n : positive) (r : shr_record) :
  0 <= shr_m r ->
  shr_m (iter_pos shr_1 n r) = shr_m r / 2 ^ Zpos n.
Proof.
  revert r. induction n as [n IH|n IH|]; intros r Hr; cbn [iter_pos].
  - assert (H1 : 0 <= shr_m (shr_1 r))
      by (rewrite shr_1_m by lia; apply Z.div_pos; lia).
    assert (0 < 2 ^ Zpos n) by (apply pow2_pos; lia).
    assert (H2 : 0 <= shr_m (iter_pos shr_1 n (shr_1 r)))
      by (rewrite IH by lia; apply Z.div_pos; lia).
    rewrite IH, IH, shr_1_m by lia.
    rewrite !Z.div_div by lia.
    rewrite pow2_xI. f_equal; lia.
  - assert (0 < 2 ^ Zpos n) by (apply pow2_pos; lia).
    assert (H2 : 0 <= shr_m (iter_pos shr_1 n r))
      by (rewrite IH by lia; apply Z.div_pos; lia).
    rewrite IH, IH by lia.
    rewrite !Z.div_div by lia.
    rewrite pow2_xO. reflexivity.
  - rewrite shr_1_m by lia. reflexivity.
Qed.

Lemma iter_shr_1_r (n : positive) (r : shr_record) :
  0 <= shr_m r ->
  shr_r (iter_pos shr_1 n r) = Z.testbit (shr_m r) (Zpos n - 1).
Proof.
  revert r. induction n as [n IH|n IH|]; intros r Hr; cbn [iter_pos].
  - assert (H1 : 0 <= shr_m (shr_1 r))
      by (rewrite shr_1_m by lia; apply Z.div_pos; lia).
    assert (H2 : 0 <= shr_m (iter_pos shr_1 n (shr_1 r)))
      by (rewrite iter_shr_1_m by lia; apply Z.div_pos; [lia | apply pow2_pos; lia]).
    rewrite IH by lia. rewrite iter_shr_1_m, shr_1_m by lia.
    rewrite Z.div_pow2_bits by lia.
    change 2 with (2 ^ 1) at 1. rewrite Z.div_pow2_bits by lia.
    f_equal. lia.
  - assert (H2 : 0 <= shr_m (iter_pos shr_1 n r))
      by (rewrite iter_shr_1_m by lia; apply Z.div_pos; [lia | apply pow2_pos; lia]).
    rewrite IH by lia. rewrite iter_shr_1_m by lia.
    rewrite Z.div_pow2_bits by lia. f_equal. lia.
  - rewrite shr_1_r by lia. symmetry. apply Z.bit0_odd.
Qed.

Lemma shr_record_of_loc_m (m : Z) (l : location) :
  shr_m (shr_record_of_loc m l) = m.
Proof. destruct l as [|[| |]]; reflexivity. Qed.

Lemma round_nearest_even_bounds (m : Z) (l : location) :
  m <= round_nearest_even m l <= m + 1.
Proof.
  destruct l as [|[| |]]; cbn [round_nearest_even]; try lia.
  destruct (Z.even m); lia.
Qed.

Lemma round_nearest_even_down (r : shr_record) :
  shr_r r = false ->
  round_nearest_even (shr_m r) (loc_of_shr_record r) = shr_m r.
Proof. destruct r as [m [|] [|]]; cbn; intros; congruence. Qed.

(** ** Alignment *)

Lemma iter_xO_pow2 (m d : positive) :
  Zpos (Pos.iter xO m d) = Zpos m * 2 ^ Zpos d.
Proof.
  induction d as [|d IH] using Pos.peano_ind.
  - cbn [Pos.iter]. lia.
  - rewrite Pos.iter_succ, Pos2Z.inj_xO, IH, Pos2Z.inj_succ.
    rewrite Z.pow_succ_r by lia. lia.
Qed.

Lemma shl_align_spec (mx : positive) (ex ex' : Z) :
  snd (shl_align mx ex ex') = Z.min ex ex' /\
  Zpos (fst (shl_align mx ex ex')) = Zpos mx * 2 ^ (ex - Z.min ex ex').
Proof.
  unfold shl_align. destruct (ex' - ex) as [|d|d] eqn:E; cbn [fst snd].
  - replace (Z.min ex ex') with ex by lia. rewrite Z.sub_diag. split; lia.
  - replace (Z.min ex ex') with ex by lia. rewrite Z.sub_diag. split; lia.
  - replace (Z.min ex ex') with ex' by lia. split; [reflexivity|].
    rewrite iter_xO_pow2. f_equal. f_equal. lia.
Qed.

Section Rounding.

Variables prec emax : Z.
Hypothesis prec_gt_1 : 1 < prec.
Hypothesis prec_lt_emax : prec < emax.

Lemma fexp_unfold (e : Z) :
  fexp prec emax e = Z.max (e - prec) (3 - emax - prec).
Proof. reflexivity. Qed.

Lemma fexp_mono (a b : Z) : a <= b -> fexp prec emax a <= fexp prec emax b.
Proof. rewrite !fexp_unfold. lia. Qed.

Lemma fexp_ge_emin (a : Z) : 3 - emax - prec <= fexp prec emax a.
Proof. rewrite fexp_unfold. lia. Qed.

(** The shift of [shr_fexp]: by [fexp (digits m + e) - e] bits when that is
    positive, not at all otherwise. *)
Lemma shr_fexp_spec (m e : Z) (l : location) :
  0 <= m ->
  let n := Z.max 0 (fexp prec emax (Zdigits2 m + e) - e) in
  shr_m (fst (shr_fexp prec emax m e l)) = m / 2 ^ n /\
  snd (shr_fexp prec emax m e l) = e + n.
Proof.
  intros Hm n. unfold shr_fexp, shr. subst n.
  destruct (fexp prec emax (Zdigits2 m + e) - e) as [|p|p] eqn:E; cbn [fst snd].
  - rewrite shr_record_of_loc_m, Z.div_1_r. split; lia.
  - rewrite iter_shr_1_m by (rewrite shr_record_of_loc_m; lia).
    rewrite shr_record_of_loc_m.
    replace (Z.max 0 (Zpos p)) with (Zpos p) by lia. split; lia.
  - rewrite shr_record_of_loc_m.
    replace (Z.max 0 (Zneg p)) with 0 by lia.
    rewrite Z.div_1_r. split; lia.
Qed.

Lemma binary_round_aux_unfold (s : bool) (m e : Z) (l : location) :
  0 <= m ->
  let n1 := Z.max 0 (fexp prec emax (Zdigits2 m + e) - e) in
  exists m2, m / 2 ^ n1 <= m2 <= m / 2 ^ n1 + 1 /\
    let e1 := e + n1 in
    let n2 := Z.max 0 (fexp prec emax (Zdigits2 m2 + e1) - e1) in
    binary_round_aux prec emax s m e l
      = pack prec emax s (m2 / 2 ^ n2) (e1 + n2).
Proof.
  intros Hm n1. unfold binary_round_aux.
  pose proof (shr_fexp_spec m e l Hm) as [H1 H2]. fold n1 in H1, H2.
  destruct (shr_fexp prec emax m e l) as [r1 e1'] eqn:E1.
  cbn [fst snd] in H1, H2. subst e1'.
  set (m2 := round_nearest_even (shr_m r1) (loc_of_shr_record r1)).
  assert (Hb : m / 2 ^ n1 <= m2 <= m / 2 ^ n1 + 1)
    by (rewrite <- H1; apply round_nearest_even_bounds).
  assert (0 < 2 ^ n1) by (apply pow2_pos; lia).
  assert (0 <= m / 2 ^ n1) by (apply Z.div_pos; lia).
  exists m2. split; [exact Hb|]. cbn zeta.
  pose proof (shr_fexp_spec m2 (e + n1) loc_Exact ltac:(lia)) as [H3 H4].
  destruct (shr_fexp prec emax m2 (e + n1) loc_Exact) as [r2 e2'] eqn:E2.
  cbn [fst snd] in H3, H4. subst e2'. rewrite H3.
  unfold pack. reflexivity.
Qed.

(** Rounding a non-negative mantissa gives a zero, a finite float or an
    infinity of the given sign. *)
Lemma binary_round_aux_sign (s : bool) (m e : Z) (l : location) :
  0 <= m ->
  exists m3 e3, 0 <= m3 /\
    binary_round_aux prec emax s m e l = pack prec emax s m3 e3.
Proof.
  intros Hm.
  destruct (binary_round_aux_unfold s m e l Hm) as (m2 & Hb & Heq).
  cbn zeta in Heq. rewrite Heq.
  set (n1 := Z.max 0 (fexp prec emax (Zdigits2 m + e) - e)) in *.
  assert (0 <= m / 2 ^ n1) by (apply Z.div_pos; [lia | apply pow2_pos; lia]).
  eexists _, _. split; [|reflexivity].
  apply Z.div_pos; [lia | apply pow2_pos; lia].
Qed.

(** The result of rounding: its exponent [e3] is that of the shifted
    mantissa [m1] or one more, and its mantissa is canonical. *)
Lemma binary_round_aux_spec (s : bool) (m e : Z) (l : location) :
  0 <= m ->
  e <= fexp prec emax (Zdigits2 m + e) ->
  let e1 := fexp prec emax (Zdigits2 m + e) in
  let m1 := m / 2 ^ (e1 - e) in
  exists m3 e3,
    binary_round_aux prec emax s m e l = pack prec emax s m3 e3 /\
    0 <= m3 /\
    canonical prec emax m3 e3 /\
    ((e3 = e1 /\ m1 <= m3 <= m1 + 1) \/
     (e3 = e1 + 1 /\ m1 + 1 = 2 ^ prec /\ m3 = 2 ^ (prec - 1))).
Proof.
  intros Hm Hpre e1 m1.
  destruct (binary_round_aux_unfold s m e l Hm) as (m2 & Hb & Heq).
  cbn zeta in Heq.
  replace (Z.max 0 (fexp prec emax (Zdigits2 m + e) - e)) with (e1 - e) in *
    by (subst e1; lia).
  replace (e + (e1 - e)) with e1 in Heq by lia.
  fold m1 in Hb.
  assert (Hp : 0 < 2 ^ (e1 - e)) by (apply pow2_pos; lia).
  assert (Hm1 : 0 <= m1) by (apply Z.div_pos; lia).
  assert (He1 : 3 - emax - prec <= e1) by (subst e1; apply fexp_ge_emin).
  (* the shifted mantissa is canonical at [e1] *)
  assert (Hc1 : m1 = 0 /\ e1 = 3 - emax - prec \/
                0 < m1 /\ fexp prec emax (Zdigits2 m1 + e1) = e1).
  { destruct (Z_lt_le_dec (e1 - e) (Zdigits2 m)) as [Hlt|Hge].
    - right. assert (0 < m) by (destruct m; cbn in Hlt; lia).
      assert (Hd : Zdigits2 m1 = Zdigits2 m - (e1 - e))
        by (apply Zdigits2_div_pow2; lia).
      split.
      + assert (0 < Zdigits2 m1) by lia.
        destruct (Z.eq_dec m1 0) as [E|]; [rewrite E in *; cbn in *; lia|lia].
      + rewrite Hd. replace (Zdigits2 m - (e1 - e) + e1) with (Zdigits2 m + e) by lia.
        reflexivity.
    - left. split; [apply div_pow2_small; lia|].
      subst e1. rewrite fexp_unfold in *. lia. }
  (* no carry out of the rounding *)
  assert (Hsame : forall m', 0 <= m' -> canonical prec emax m' e1 ->
            Z.max 0 (fexp prec emax (Zdigits2 m' + e1) - e1) = 0).
  { intros m' Hm' [->|Hc]; [cbn [Zdigits2]; rewrite fexp_unfold; lia|lia]. }
  destruct (Z.eq_dec m2 m1) as [E21|N21].
  - (* rounded down *)
    assert (Hc : canonical prec emax m2 e1)
      by (rewrite E21; destruct Hc1 as [[-> _]|[_ Hc1]]; [left|right]; auto).
    rewrite (Hsame m2 ltac:(lia) Hc), Z.div_1_r, Z.add_0_r in Heq.
    exists m2, e1. repeat split; try lia; auto.
  - assert (E2 : m2 = m1 + 1) by lia.
    destruct Hc1 as [[E0 Emin]|[Hpos Hc1]].
    + (* from zero to the least subnormal *)
      assert (E1 : m2 = 1) by lia. rewrite E1 in Heq.
      assert (Hc : canonical prec emax 1 e1)
        by (right; change (Zdigits2 1) with 1; rewrite fexp_unfold; lia).
      rewrite (Hsame 1 ltac:(lia) Hc), Z.div_1_r, Z.add_0_r in Heq.
      exists 1, e1. repeat split; try lia; auto.
    + destruct (Zdigits2_succ m1 Hpos) as [Hd|[Hpow Hd]].
      * assert (Hc : canonical prec emax m2 e1) by (right; rewrite E2, Hd; exact Hc1).
        rewrite (Hsame m2 ltac:(lia) Hc), Z.div_1_r, Z.add_0_r in Heq.
        exists m2, e1. repeat split; try lia; auto.
      * pose proof (Zdigits2_pos m1 Hpos) as Hdp.
        destruct (Z.eq_dec (Zdigits2 m1) prec) as [Eprec|Nprec].
        -- (* carry into the next binade *)
           assert (En2 : Z.max 0 (fexp prec emax (Zdigits2 m2 + e1) - e1) = 1)
             by (rewrite E2, Hd; rewrite fexp_unfold in *; lia).
           rewrite En2 in Heq.
           assert (Em3 : m2 / 2 ^ 1 = 2 ^ (prec - 1)).
           { rewrite E2, Hpow, Eprec, (pow2_pred prec) by lia.
             change (2 ^ 1) with 2. rewrite Z.mul_comm. apply Z.div_mul. lia. }
           rewrite Em3 in Heq.
           exists (2 ^ (prec - 1)), (e1 + 1). split; [exact Heq|].
           split; [apply Z.lt_le_incl, pow2_pos; lia|]. split.
           ++ right. rewrite Zdigits2_pow2 by lia.
              rewrite fexp_unfold in *. lia.
           ++ right. rewrite <- Eprec, <- Hpow. lia.
        -- (* carry inside the subnormal range *)
           assert (Hc : canonical prec emax m2 e1)
             by (right; rewrite E2, Hd; rewrite fexp_unfold in *; lia).
           rewrite (Hsame m2 ltac:(lia) Hc), Z.div_1_r, Z.add_0_r in Heq.
           exists m2, e1. repeat split; try lia; auto.
Qed.

Lemma pack_valid (s : bool) (m e : Z) :
  0 <= m -> canonical prec emax m e ->
  valid_binary prec emax (pack prec emax s m e) = true.
Proof.
  intros Hm Hc. destruct m as [|p|p]; try lia; cbn [pack]; [reflexivity|].
  destruct (e <=? emax - prec) eqn:E; [|reflexivity].
  destruct Hc as [Hc|Hc]; [discriminate|].
  unfold valid_binary, bounded, canonical_mantissa.
  cbn [Zdigits2] in Hc. rewrite Hc, Z.eqb_refl.
  exact E.
Qed.

Lemma pack_nonneg_valid (m e : Z) :
  0 <= m -> canonical prec emax m e ->
  nonneg_valid prec emax (pack prec emax false m e) = true.
Proof.
  intros Hm Hc. pose proof (pack_valid false m e Hm Hc) as V.
  destruct m as [|p|p]; try lia; cbn [pack] in *; [reflexivity|].
  destruct (e <=? emax - prec); [|reflexivity]. exact V.
Qed.

Lemma pack_nonneg (m e : Z) : 0 <= m -> nonneg (pack prec emax false m e) = true.
Proof.
  intros Hm. destruct m as [|p|p]; try lia; cbn [pack]; [reflexivity|].
  destruct (e <=? emax - prec); reflexivity.
Qed.

(** [binary_round] aligns the mantissa so that rounding only shifts right. *)
Lemma binary_round_unfold (s : bool) (m : positive) (e : Z) :
  exists mz ez,
    binary_round prec emax s m e
      = binary_round_aux prec emax s (Zpos mz) ez loc_Exact /\
    ez = Z.min e (fexp prec emax (Zdigits2 (Zpos m) + e)) /\
    Zpos mz = Zpos m * 2 ^ (e - ez) /\
    Zdigits2 (Zpos mz) + ez = Zdigits2 (Zpos m) + e /\
    ez <= fexp prec emax (Zdigits2 (Zpos mz) + ez).
Proof.
  unfold binary_round.
  pose proof (shl_align_spec m e (fexp prec emax (Zpos (digits2_pos m) + e)))
    as [H1 H2].
  destruct (shl_align m e (fexp prec emax (Zpos (digits2_pos m) + e))) as [mz ez].
  cbn [fst snd] in H1, H2. exists mz, ez.
  change (Zpos (digits2_pos m)) with (Zdigits2 (Zpos m)) in *.
  split; [reflexivity|]. split; [exact H1|].
  rewrite <- H1 in H2. split; [exact H2|].
  assert (Hd : Zdigits2 (Zpos mz) + ez = Zdigits2 (Zpos m) + e).
  { rewrite H2, Zdigits2_mul_pow2 by lia. lia. }
  split; [exact Hd|]. rewrite Hd. lia.
Qed.

(** Rounding a positive number to the format: a non-negative float of the
    format. *)
Lemma binary_round_nonneg_valid (m : positive) (e : Z) :
  nonneg_valid prec emax (binary_round prec emax false m e) = true.
Proof.
  destruct (binary_round_unfold false m e) as (mz & ez & -> & _ & _ & _ & Hpre).
  destruct (binary_round_aux_spec false (Zpos mz) ez loc_Exact ltac:(lia) Hpre)
    as (m3 & e3 & -> & H0 & Hc & _).
  apply pack_nonneg_valid; assumption.
Qed.

Lemma bounded_inv (m : positive) (e : Z) :
  bounded prec emax m e = true ->
  fexp prec emax (Zdigits2 (Zpos m) + e) = e /\ e <= emax - prec.
Proof.
  unfold bounded, canonical_mantissa.
  intros H. apply andb_prop in H as [H1 H2].
  apply Z.eqb_eq in H1. apply Z.leb_le in H2. cbn [Zdigits2].
  split; assumption.
Qed.

Lemma bounded_intro (m : positive) (e : Z) :
  fexp prec emax (Zdigits2 (Zpos m) + e) = e -> e <= emax - prec ->
  bounded prec emax m e = true.
Proof.
  intros Hc He. unfold bounded, canonical_mantissa.
  change (Zpos (digits2_pos m)) with (Zdigits2 (Zpos m)).
  rewrite Hc, Z.eqb_refl. apply Z.leb_le. exact He.
Qed.

Lemma leb_pack (mx : positive) (ex m3 e3 : Z) :
  0 < m3 -> ex < e3 \/ (e3 = ex /\ Zpos mx <= m3) ->
  SFleb (S754_finite false mx ex) (pack prec emax false m3 e3) = true.
Proof.
  intros Hm H. destruct m3 as [|p|p]; try lia. cbn [pack].
  destruct (e3 <=? emax - prec); [|reflexivity].
  unfold SFleb, SFcompare.
  destruct H as [H|[-> H]].
  - rewrite (proj2 (Z.compare_lt_iff ex e3) H). reflexivity.
  - rewrite Z.compare_refl.
    change (Pos.compare_cont Eq mx p) with (Pos.compare mx p).
    destruct (Pos.compare_spec mx p); try reflexivity. lia.
Qed.

(** ** Addition of two positive floats *)

Lemma add_pos_pos (mx my : positive) (ex ey : Z) :
  bounded prec emax mx ex = true ->
  exists m3 e3,
    SFadd prec emax (S754_finite false mx ex) (S754_finite false my ey)
      = pack prec emax false m3 e3 /\
    0 < m3 /\ canonical prec emax m3 e3 /\
    (ex < e3 \/ (e3 = ex /\ Zpos mx <= m3)) /\
    e3 <= fexp prec emax
            (Z.max (Zdigits2 (Zpos mx) + ex) (Zdigits2 (Zpos my) + ey) + 1) + 1.
Proof.
  intros Hb. apply bounded_inv in Hb as [Hcx Hex].
  unfold SFadd. cbn [cond_Zopp].
  remember (Z.min ex ey) as ez eqn:Eez0.
  assert (Hez0 : ez <= ex /\ ez <= ey) by lia. clear Eez0.
  pose proof (shl_align_spec mx ex ez) as [_ Hx].
  pose proof (shl_align_spec my ey ez) as [_ Hy].
  replace (Z.min ex ez) with ez in Hx by lia.
  replace (Z.min ey ez) with ez in Hy by lia.
  remember (fst (shl_align mx ex ez)) as mx' eqn:Emx'. clear Emx'.
  remember (fst (shl_align my ey ez)) as my' eqn:Emy'. clear Emy'.
  change (Zpos mx' + Zpos my') with (Zpos (mx' + my')).
  cbn [binary_normalize].
  assert (HM : Zpos mx * 2 ^ (ex - ez) <= Zpos (mx' + my')) by lia.
  destruct (binary_round_unfold false (mx' + my') ez)
    as (mz & ez' & -> & Hez & Hmz & Hdz & Hpre).
  assert (Hpx : 0 < 2 ^ (ex - ez)) by (apply pow2_pos; lia).
  assert (HdM : Zdigits2 (Zpos mx) + ex <= Zdigits2 (Zpos (mx' + my')) + ez).
  { assert (Hpp : 0 < Zpos mx * 2 ^ (ex - ez)) by (apply Z.mul_pos_pos; lia).
    pose proof (Zdigits2_le _ _ Hpp HM) as Hle.
    rewrite Zdigits2_mul_pow2 in Hle by lia. lia. }
  pose proof (fexp_mono _ _ HdM) as Hfe. rewrite Hcx in Hfe.
  assert (Hup : Zdigits2 (Zpos (mx' + my')) + ez
                <= Z.max (Zdigits2 (Zpos mx) + ex) (Zdigits2 (Zpos my) + ey) + 1).
  { assert (Hpy : 0 < 2 ^ (ey - ez)) by (apply pow2_pos; lia).
    assert (Hdx' : Zdigits2 (Zpos mx') = Zdigits2 (Zpos mx) + (ex - ez))
      by (rewrite Hx; apply Zdigits2_mul_pow2; lia).
    assert (Hdy' : Zdigits2 (Zpos my') = Zdigits2 (Zpos my) + (ey - ez))
      by (rewrite Hy; apply Zdigits2_mul_pow2; lia).
    remember (Z.max (Zdigits2 (Zpos mx')) (Zdigits2 (Zpos my'))) as D eqn:ED.
    pose proof (Zdigits2_bounds (Zpos mx') ltac:(lia)) as [_ Hbx'].
    pose proof (Zdigits2_bounds (Zpos my') ltac:(lia)) as [_ Hby'].
    pose proof (Zdigits2_pos (Zpos mx') ltac:(lia)).
    assert (2 ^ Zdigits2 (Zpos mx') <= 2 ^ D) by (apply Z.pow_le_mono_r; lia).
    assert (2 ^ Zdigits2 (Zpos my') <= 2 ^ D) by (apply Z.pow_le_mono_r; lia).
    assert (HMlt : Zpos (mx' + my') < 2 ^ (D + 1)).
    { replace (D + 1) with (Z.succ D) by lia.
      rewrite Z.pow_succ_r by lia. rewrite Pos2Z.inj_add. lia. }
    pose proof (Zdigits2_lt_pow2 (Zpos (mx' + my')) (D + 1)
                  ltac:(lia) HMlt ltac:(lia)). lia. }
  pose proof (fexp_mono _ _ Hup) as Hfup.
  assert (Eez : ez' = ez) by lia. rewrite Eez in *.
  rewrite Z.sub_diag, Z.mul_1_r in Hmz.
  set (M := Zpos (mx' + my')) in *.
  destruct (binary_round_aux_spec false (Zpos mz) ez loc_Exact ltac:(lia) Hpre)
    as (m3 & e3 & -> & H0 & Hc & Hcase).
  cbn zeta in Hcase. rewrite Hmz in Hcase.
  set (e1 := fexp prec emax (Zdigits2 M + ez)) in *.
  set (m1 := M / 2 ^ (e1 - ez)) in *.
  assert (Hp1 : 0 < 2 ^ (e1 - ez)) by (apply pow2_pos; lia).
  assert (Hm1 : 0 < m1 /\ (e1 = ex -> Zpos mx <= m1)).
  { destruct (Z.eq_dec e1 ex) as [E|N].
    - assert (Zpos mx <= m1); [|lia].
      subst m1. rewrite E. apply Z.div_le_lower_bound; lia.
    - split; [|lia].
      assert (E : e1 = Zdigits2 M + ez - prec)
        by (pose proof (fexp_ge_emin (Zdigits2 (Zpos mx) + ex));
            subst e1; rewrite fexp_unfold in *; lia).
      assert (Hd : Zdigits2 m1 = Zdigits2 M - (e1 - ez)).
      { apply Zdigits2_div_pow2; [subst M; lia|].
        pose proof (Zdigits2_pos M ltac:(subst M; lia)). lia. }
      destruct (Z.eq_dec m1 0) as [E0|];
        [rewrite E0 in Hd; change (Zdigits2 0) with 0 in Hd; lia|].
      assert (0 <= m1) by (apply Z.div_pos; subst M; lia). lia. }
  exists m3, e3. split; [reflexivity|].
  destruct Hm1 as [Hm1 Hm1'].
  destruct Hcase as [[-> Hb3]|(-> & _ & ->)].
  - split; [lia|]. split; [exact Hc|]. split; [|lia].
    destruct (Z.eq_dec e1 ex) as [E|N]; [right|left]; lia.
  - split; [apply pow2_pos; lia|]. split; [exact Hc|]. split; [left|]; lia.
Qed.

(** Adding a non-negative float never decreases a non-negative float, and
    the sum is again a non-negative float of the format. *)
Lemma add_nonneg_monotone (x y : spec_float) :
  nonneg_valid prec emax x = true -> nonneg_valid prec emax y = true ->
  SFleb x (SFadd prec emax x y) = true /\
  nonneg_valid prec emax (SFadd prec emax x y) = true.
Proof.
  intros Hx Hy.
  destruct x as [[|]|[|]| |[|] mx ex]; try discriminate;
    destruct y as [[|]|[|]| |[|] my ey]; try discriminate;
    try (split; [reflexivity | assumption]).
  - split; [|exact Hx]. cbn. rewrite Z.compare_refl.
    change (Pos.compare_cont Eq mx mx) with (Pos.compare mx mx).
    rewrite Pos.compare_refl. reflexivity.
  - cbn [nonneg_valid negb andb] in Hx.
    destruct (add_pos_pos mx my ex ey Hx) as (m3 & e3 & -> & H0 & Hc & Hcase & _).
    split; [apply leb_pack; assumption | apply pack_nonneg_valid; [lia|assumption]].
Qed.

(** ** Positive normal floats *)

Lemma normal_in_weaken (lo hi lo' hi' : Z) (x : spec_float) :
  normal_in prec lo hi x -> lo' <= lo -> hi <= hi' -> normal_in prec lo' hi' x.
Proof. intros (m & e & -> & Hd & He) ? ?. exists m, e. repeat split; lia. Qed.

Lemma normal_in_pos (lo hi : Z) (x : spec_float) :
  normal_in prec lo hi x -> SFltb (S754_zero false) x = true.
Proof. intros (m & e & -> & _). reflexivity. Qed.

Lemma normal_in_nonneg_valid (lo hi : Z) (x : spec_float) :
  normal_in prec lo hi x -> 3 - emax - prec <= lo -> hi <= emax - prec ->
  nonneg_valid prec emax x = true.
Proof.
  intros (m & e & -> & Hd & He) ? ?. cbn [nonneg_valid negb andb].
  apply bounded_intro; [|lia]. rewrite Hd, fexp_unfold. lia.
Qed.

(** Rounding a mantissa that lies in the normal range. *)
Lemma round_normal (m e : Z) (l : location) :
  0 < m ->
  e <= fexp prec emax (Zdigits2 m + e) ->
  3 - emax - prec <= Zdigits2 m + e - prec ->
  Zdigits2 m + e - prec + 1 <= emax - prec ->
  normal_in prec (Zdigits2 m + e - prec) (Zdigits2 m + e - prec + 1)
    (binary_round_aux prec emax false m e l).
Proof.
  intros Hm Hpre Hlo Hhi.
  destruct (binary_round_aux_spec false m e l ltac:(lia) Hpre)
    as (m3 & e3 & -> & H0 & Hc & Hcase).
  cbn zeta in Hcase.
  assert (E1 : fexp prec emax (Zdigits2 m + e) = Zdigits2 m + e - prec)
    by (rewrite fexp_unfold; lia).
  rewrite E1 in *.
  set (d := Zdigits2 m) in *.
  assert (Hdp : 0 < d) by (apply Zdigits2_pos; lia).
  assert (Hd1 : Zdigits2 (m / 2 ^ (d + e - prec - e)) = prec).
  { rewrite Zdigits2_div_pow2 by (fold d; lia). fold d. lia. }
  set (m1 := m / 2 ^ (d + e - prec - e)) in *.
  assert (Hm1 : 0 < m1).
  { destruct (Z.eq_dec m1 0) as [E0|];
      [rewrite E0 in Hd1; change (Zdigits2 0) with 0 in Hd1; lia|].
    assert (0 <= m1) by (apply Z.div_pos; [lia | apply pow2_pos; lia]). lia. }
  destruct Hcase as [[-> Hb]|(-> & _ & ->)].
  - assert (Hm3 : 0 < m3) by lia.
    assert (Hd3 : Zdigits2 m3 = prec).
    { pose proof (Zdigits2_le m1 m3 Hm1 ltac:(lia)) as Hle.
      destruct Hc as [Hc|Hc]; [lia|]. rewrite fexp_unfold in Hc. lia. }
    destruct m3 as [|p|p]; try lia. cbn [pack].
    replace (d + e - prec <=? emax - prec) with true
      by (symmetry; apply Z.leb_le; lia).
    exists p, (d + e - prec). repeat split; lia.
  - pose proof (pow2_pos (prec - 1) ltac:(lia)) as Hpp.
    destruct (2 ^ (prec - 1)) as [|p|p] eqn:Ep; try lia. cbn [pack].
    replace (d + e - prec + 1 <=? emax - prec) with true
      by (symmetry; apply Z.leb_le; lia).
    exists p, (d + e - prec + 1). repeat split; try lia.
    rewrite <- Ep, Zdigits2_pow2 by lia. lia.
Qed.

(** Conversion of a positive integer. *)
Lemma of_Z_normal (p : Z) :
  0 < p -> Zdigits2 p + 1 <= emax ->
  normal_in prec (Zdigits2 p - prec) (Zdigits2 p - prec + 1)
    (binary_normalize prec emax p 0 false).
Proof.
  intros Hp Hd. destruct p as [|p|p]; try lia.
  cbn [binary_normalize].
  destruct (binary_round_unfold false p 0) as (mz & ez & -> & Hez & Hmz & Hdz & Hpre).
  pose proof (Zdigits2_pos (Zpos p) ltac:(lia)) as Hdp.
  pose proof (round_normal (Zpos mz) ez loc_Exact ltac:(lia) Hpre) as H.
  rewrite Hdz, Z.add_0_r in H. apply H; lia.
Qed.

(** Product of two positive normal floats. *)
Lemma mul_normal (lo1 hi1 lo2 hi2 : Z) (x y : spec_float) :
  normal_in prec lo1 hi1 x -> normal_in prec lo2 hi2 y ->
  3 - emax - prec <= lo1 + lo2 + prec - 1 ->
  hi1 + hi2 + prec + 1 <= emax - prec ->
  normal_in prec (lo1 + lo2 + prec - 1) (hi1 + hi2 + prec + 1)
    (SFmul prec emax x y).
Proof.
  intros (mx & ex & -> & Hdx & Hex) (my & ey & -> & Hdy & Hey) Hlo Hhi.
  unfold SFmul. cbn [xorb].
  change (Zpos (mx * my)) with (Zpos mx * Zpos my).
  pose proof (Zdigits2_mul (Zpos mx) (Zpos my) ltac:(lia) ltac:(lia)) as Hd.
  rewrite Hdx, Hdy in Hd.
  eapply normal_in_weaken.
  - apply round_normal; try lia. rewrite fexp_unfold. lia.
  - lia.
  - lia.
Qed.

(** Quotient of two positive normal floats. *)
Lemma SFdiv_core_normal (mx my : positive) (ex ey : Z) :
  Zdigits2 (Zpos mx) = prec -> Zdigits2 (Zpos my) = prec ->
  3 - emax - prec <= ex - ey - prec ->
  exists q l,
    SFdiv_core_binary prec emax (Zpos mx) ex (Zpos my) ey
      = (q, ex - ey - prec, l) /\
    2 ^ (prec - 1) <= q < 2 ^ (prec + 1).
Proof.
  intros Hdx Hdy Hlo. unfold SFdiv_core_binary.
  rewrite Hdx, Hdy.
  replace (Z.min (fexp prec emax (prec + ex - (prec + ey))) (ex - ey))
    with (ex - ey - prec) by (rewrite fexp_unfold; lia).
  replace (ex - ey - (ex - ey - prec)) with prec by lia.
  assert (Em : match prec with
               | Z0 => Zpos mx
               | Zpos _ => Z.shiftl (Zpos mx) prec
               | Zneg _ => 0
               end = Zpos mx * 2 ^ prec).
  { destruct prec as [|pp|pp] eqn:Ep; try lia. apply Z.shiftl_mul_pow2. lia. }
  cbv zeta. rewrite Em.
  pose proof (Z_div_mod (Zpos mx * 2 ^ prec) (Zpos my) ltac:(lia)) as Hdm.
  destruct (Z.div_eucl (Zpos mx * 2 ^ prec) (Zpos my)) as [q r].
  exists q, (new_location (Zpos my) r). split; [reflexivity|].
  pose proof (Zdigits2_bounds (Zpos mx) ltac:(lia)) as Hbx.
  pose proof (Zdigits2_bounds (Zpos my) ltac:(lia)) as Hby.
  rewrite Hdx in Hbx. rewrite Hdy in Hby.
  pose proof (pow2_pos (prec - 1) ltac:(lia)) as Hpp.
  rewrite (pow2_pred prec) in * by lia.
  replace (prec + 1) with (Z.succ prec) by lia.
  rewrite Z.pow_succ_r, (pow2_pred prec) by lia.
  remember (2 ^ (prec - 1)) as H eqn:EH. clear EH.
  destruct Hdm as [Heq Hr]. nia.
Qed.

Lemma div_normal (lo1 hi1 lo2 hi2 : Z) (x y : spec_float) :
  normal_in prec lo1 hi1 x -> normal_in prec lo2 hi2 y ->
  3 - emax - prec <= lo1 - hi2 - prec ->
  hi1 - lo2 - prec + 2 <= emax - prec ->
  normal_in prec (lo1 - hi2 - prec) (hi1 - lo2 - prec + 2)
    (SFdiv prec emax x y).
Proof.
  intros (mx & ex & -> & Hdx & Hex) (my & ey & -> & Hdy & Hey) Hlo Hhi.
  unfold SFdiv. cbn [xorb].
  destruct (SFdiv_core_normal mx my ex ey Hdx Hdy ltac:(lia)) as (q & l & -> & Hq).
  pose proof (pow2_pos (prec - 1) ltac:(lia)) as Hpp.
  assert (Hd : prec <= Zdigits2 q <= prec + 1).
  { split.
    - pose proof (Zdigits2_le (2 ^ (prec - 1)) q ltac:(lia) ltac:(lia)) as H.
      rewrite Zdigits2_pow2 in H by lia. lia.
    - apply Zdigits2_lt_pow2; lia. }
  eapply normal_in_weaken.
  - apply round_normal; try lia. rewrite fexp_unfold. lia.
  - lia.
  - lia.
Qed.

(** Product of non-negative floats, the second positive and finite. *)
Lemma mul_nonneg (x : spec_float) (my : positive) (ey : Z) :
  nonneg x = true ->
  nonneg (SFmul prec emax x (S754_finite false my ey)) = true.
Proof.
  destruct x as [[|]|[|]| |[|] mx ex]; try discriminate; intros _;
    try reflexivity.
  unfold SFmul. cbn [xorb].
  destruct (binary_round_aux_sign false (Zpos (mx * my)) (ex + ey) loc_Exact
              ltac:(lia)) as (m3 & e3 & H0 & ->).
  apply pack_nonneg. exact H0.
Qed.

Lemma nonneg_valid_nonneg (x : spec_float) :
  nonneg_valid prec emax x = true -> nonneg x = true.
Proof.
  destruct x as [[|]|[|]| |[|] m e]; cbn; intros H; try discriminate; reflexivity.
Qed.

(** Conversion of a non-negative integer. *)
Lemma of_Z_nonneg_valid (p : Z) :
  0 <= p -> nonneg_valid prec emax (binary_normalize prec emax p 0 false) = true.
Proof.
  intros Hp. destruct p as [|p|p]; try lia; cbn [binary_normalize].
  - reflexivity.
  - apply binary_round_nonneg_valid.
Qed.

(** Quotient of non-negative floats, the divisor positive and finite. *)
Lemma div_nonneg (x : spec_float) (my : positive) (ey : Z) :
  nonneg x = true ->
  nonneg (SFdiv prec emax x (S754_finite false my ey)) = true.
Proof.
  destruct x as [[|]|[|]| |[|] mx ex]; try discriminate; intros _;
    try reflexivity.
  unfold SFdiv. cbn [xorb].
  assert (Hq : exists q e l,
            SFdiv_core_binary prec emax (Zpos mx) ex (Zpos my) ey = (q, e, l) /\
            0 <= q).
  { unfold SFdiv_core_binary.
    set (s := ex - ey - _).
    set (m' := match s with Z0 => Zpos mx | Zpos _ => Z.shiftl (Zpos mx) s
               | Zneg _ => 0 end).
    assert (Hm' : 0 <= m').
    { subst m'. destruct s; try lia. apply Z.shiftl_nonneg. lia. }
    pose proof (Z_div_mod m' (Zpos my) ltac:(lia)) as Hdm.
    destruct (Z.div_eucl m' (Zpos my)) as [q r].
    eexists _, _, _. split; [reflexivity|]. destruct Hdm as [Heq Hr]. nia. }
  destruct Hq as (q & e & l & -> & Hq).
  destruct (binary_round_aux_sign false q e l Hq) as (m3 & e3 & H0 & ->).
  apply pack_nonneg. exact H0.
Qed.

(** ** Absorption: a summand below half a unit in the last place is lost *)

(** An exact mantissa whose round bit is clear is rounded down. *)
Lemma binary_round_aux_down (s : bool) (m e : Z) :
  0 <= m ->
  let n1 := fexp prec emax (Zdigits2 m + e) - e in
  0 < n1 ->
  Z.testbit m (n1 - 1) = false ->
  canonical prec emax (m / 2 ^ n1) (e + n1) ->
  binary_round_aux prec emax s m e loc_Exact
    = pack prec emax s (m / 2 ^ n1) (e + n1).
Proof.
  intros Hm n1 Hn1 Hbit Hc.
  assert (Hq : 0 <= m / 2 ^ n1) by (apply Z.div_pos; [lia | apply pow2_pos; lia]).
  unfold binary_round_aux.
  assert (E1 : shr_fexp prec emax m e loc_Exact
               = (iter_pos shr_1 (Z.to_pos n1) (shr_record_of_loc m loc_Exact), e + n1)).
  { unfold shr_fexp, shr. fold n1.
    destruct n1 as [|p|p]; try lia. reflexivity. }
  rewrite E1.
  set (r1 := iter_pos shr_1 (Z.to_pos n1) (shr_record_of_loc m loc_Exact)).
  assert (Hr1m : shr_m r1 = m / 2 ^ n1).
  { subst r1. rewrite iter_shr_1_m by (cbn; lia). cbn [shr_record_of_loc shr_m].
    rewrite Z2Pos.id by lia. reflexivity. }
  assert (Hr1r : shr_r r1 = false).
  { subst r1. rewrite iter_shr_1_r by (cbn; lia). cbn [shr_record_of_loc shr_m].
    rewrite Z2Pos.id by lia. exact Hbit. }
  rewrite (round_nearest_even_down r1 Hr1r), Hr1m.
  pose proof (shr_fexp_spec (m / 2 ^ n1) (e + n1) loc_Exact Hq) as [H3 H4].
  destruct (shr_fexp prec emax (m / 2 ^ n1) (e + n1) loc_Exact) as [r2 e2].
  cbn [fst snd] in H3, H4.
  assert (En2 : Z.max 0 (fexp prec emax (Zdigits2 (m / 2 ^ n1) + (e + n1))
                         - (e + n1)) = 0).
  { destruct Hc as [Hc|Hc].
    - rewrite Hc. change (Zdigits2 0) with 0.
      pose proof (fexp_ge_emin (Zdigits2 m + e)). rewrite fexp_unfold. lia.
    - lia. }
  rewrite En2, Z.div_1_r in H3. rewrite En2, Z.add_0_r in H4.
  rewrite H3, H4. reflexivity.
Qed.

Lemma add_absorb (mx my : positive) (ex ey : Z) :
  Zdigits2 (Zpos mx) = prec -> Zdigits2 (Zpos my) <= prec ->
  3 - emax - prec <= ex <= emax - prec -> ey + prec + 1 <= ex ->
  SFadd prec emax (S754_finite false mx ex) (S754_finite false my ey)
    = S754_finite false mx ex.
Proof.
  intros Hdx Hdy Hex Hey.
  unfold SFadd. cbn [cond_Zopp].
  replace (Z.min ex ey) with ey by lia.
  pose proof (shl_align_spec mx ex ey) as [_ Hx].
  pose proof (shl_align_spec my ey ey) as [_ Hy].
  replace (Z.min ex ey) with ey in Hx by lia.
  replace (Z.min ey ey) with ey in Hy by lia.
  rewrite Z.sub_diag, Z.mul_1_r in Hy.
  remember (fst (shl_align mx ex ey)) as mx' eqn:Emx'. clear Emx'.
  remember (fst (shl_align my ey ey)) as my' eqn:Emy'. clear Emy'.
  change (Zpos mx' + Zpos my') with (Zpos (mx' + my')).
  cbn [binary_normalize].
  remember (ex - ey) as k eqn:Ek.
  assert (Hk : prec + 1 <= k) by lia.
  assert (Hpk : 0 < 2 ^ k) by (apply pow2_pos; lia).
  assert (Hpk1 : 0 < 2 ^ (k - 1)) by (apply pow2_pos; lia).
  assert (Epk : 2 ^ k = 2 * 2 ^ (k - 1)) by (apply pow2_pred; lia).
  pose proof (Zdigits2_bounds (Zpos mx) ltac:(lia)) as Hbx. rewrite Hdx in Hbx.
  assert (Hby : Zpos my < 2 ^ prec).
  { pose proof (Zdigits2_bounds (Zpos my) ltac:(lia)) as [_ Hhi].
    assert (2 ^ Zdigits2 (Zpos my) <= 2 ^ prec) by (apply Z.pow_le_mono_r; lia).
    lia. }
  assert (Hprec : 2 ^ prec <= 2 ^ (k - 1)) by (apply Z.pow_le_mono_r; lia).
  set (M := Zpos (mx' + my')).
  assert (EM : M = Zpos mx * 2 ^ k + Zpos my) by (subst M; lia).
  assert (HdM : Zdigits2 M = prec + k).
  { apply Zdigits2_unique; [|lia].
    replace (prec + k - 1) with (prec - 1 + k) by lia.
    rewrite !Z.pow_add_r by lia. nia. }
  destruct (binary_round_unfold false (mx' + my') ey)
    as (mz & ez' & -> & Hez & Hmz & Hdz & Hpre).
  fold M in Hez, Hmz, Hdz. rewrite HdM in Hez, Hdz.
  assert (Efe : fexp prec emax (prec + k + ey) = ex)
    by (rewrite fexp_unfold; lia).
  rewrite Efe in Hez.
  assert (Eez : ez' = ey) by lia. rewrite Eez in *.
  rewrite Z.sub_diag, Z.mul_1_r in Hmz. rewrite Hmz.
  assert (En1 : fexp prec emax (Zdigits2 M + ey) - ey = k)
    by (rewrite HdM, Efe; lia).
  assert (Ediv : M / 2 ^ k = Zpos mx).
  { symmetry. apply (Z.div_unique _ _ _ (Zpos my)); lia. }
  rewrite binary_round_aux_down; rewrite ?En1; try lia.
  - rewrite Ediv. replace (ey + k) with ex by lia.
    cbn [pack]. replace (ex <=? emax - prec) with true
      by (symmetry; apply Z.leb_le; lia).
    reflexivity.
  - rewrite Z.testbit_odd, Z.shiftr_div_pow2 by lia.
    replace (M / 2 ^ (k - 1)) with (2 * Zpos mx).
    + rewrite Z.odd_mul. reflexivity.
    + apply (Z.div_unique _ _ _ (Zpos my)); lia.
  - right. rewrite Ediv, Hdx. replace (ey + k) with ex by lia.
    rewrite fexp_unfold. lia.
Qed.

End Rounding.

(** * binary32 and binary64 *)

Lemma prec32_gt_1 : 1 < F32.prec.
Proof. reflexivity. Qed.

Lemma prec32_lt_emax : F32.prec < F32.emax.
Proof. reflexivity. Qed.

Lemma prec64_gt_1 : 1 < F64.prec.
Proof. reflexivity. Qed.

Lemma prec64_lt_emax : F64.prec < F64.emax.
Proof. reflexivity. Qed.

(** A lemma of the rounding theory at binary32 or binary64. *)
Ltac apply32 lem :=
  first [ eapply (lem F32.prec F32.emax prec32_gt_1 prec32_lt_emax)
        | eapply (lem F32.prec F32.emax prec32_gt_1)
        | eapply (lem F32.prec F32.emax) ].

Ltac apply64 lem :=
  first [ eapply (lem F64.prec F64.emax prec64_gt_1 prec64_lt_emax)
        | eapply (lem F64.prec F64.emax prec64_gt_1)
        | eapply (lem F64.prec F64.emax) ].

Lemma fexp32 (e : Z) : fexp F32.prec F32.emax e = Z.max (e - 24) (-149).
Proof. reflexivity. Qed.

Lemma bounded32_inv (m : positive) (e : Z) :
  bounded F32.prec F32.emax m e = true ->
  Z.max (Zdigits2 (Zpos m) + e - 24) (-149) = e /\ e <= 104.
Proof.
  intros H. apply bounded_inv in H as [H1 H2]. rewrite fexp32 in H1.
  change (F32.emax - F32.prec) with 104 in H2. split; assumption.
Qed.

Lemma normal32_weaken (lo hi lo' hi' : Z) (x : float32) :
  normal_in 24 lo hi x -> lo' <= lo -> hi <= hi' -> normal_in 24 lo' hi' x.
Proof. apply normal_in_weaken. Qed.

Lemma normal32_pos (lo hi : Z) (x : float32) :
  normal_in 24 lo hi x -> F32.ltb F32.zero x = true.
Proof. apply normal_in_pos. Qed.

Lemma normal32_nonneg_valid (lo hi : Z) (x : float32) :
  normal_in 24 lo hi x -> -149 <= lo -> hi <= 104 ->
  F32.nonneg_valid x = true.
Proof.
  intros H Hlo Hhi.
  apply (normal_in_nonneg_valid F32.prec F32.emax lo hi); try assumption;
    unfold F32.prec, F32.emax; lia.
Qed.

Lemma of_Z_normal32 (p : Z) :
  0 < p -> Zdigits2 p <= 127 ->
  normal_in 24 (Zdigits2 p - 24) (Zdigits2 p - 23) (F32.of_Z p).
Proof.
  intros Hp Hd.
  eapply normal32_weaken; [apply32 of_Z_normal; [exact Hp|] | |];
    unfold F32.prec, F32.emax; lia.
Qed.

Lemma Zdigits2_ulong (p : Z) : 0 < p < 2 ^ 32 -> 0 < Zdigits2 p <= 32.
Proof.
  intros Hp. split; [apply Zdigits2_pos; lia | apply Zdigits2_lt_pow2; lia].
Qed.

(** Conversion of a positive [unsigned long] to [float]. *)
Lemma of_ulong_normal (p : Z) :
  0 < p < 2 ^ 32 -> normal_in 24 (-23) 9 (F32.of_Z p).
Proof.
  intros Hp. pose proof (Zdigits2_ulong p Hp) as Hd.
  eapply normal32_weaken; [apply of_Z_normal32; lia | lia | lia].
Qed.

Lemma mul_normal32 (lo1 hi1 lo2 hi2 : Z) (x y : float32) :
  normal_in 24 lo1 hi1 x -> normal_in 24 lo2 hi2 y ->
  -149 <= lo1 + lo2 + 23 -> hi1 + hi2 + 25 <= 104 ->
  normal_in 24 (lo1 + lo2 + 23) (hi1 + hi2 + 25) (F32.mul x y).
Proof.
  intros Hx Hy Hlo Hhi.
  eapply normal32_weaken; [apply32 mul_normal; [exact Hx | exact Hy | |] | |];
    unfold F32.prec, F32.emax; lia.
Qed.

Lemma div_normal32 (lo1 hi1 lo2 hi2 : Z) (x y : float32) :
  normal_in 24 lo1 hi1 x -> normal_in 24 lo2 hi2 y ->
  -149 <= lo1 - hi2 - 24 -> hi1 - lo2 - 22 <= 104 ->
  normal_in 24 (lo1 - hi2 - 24) (hi1 - lo2 - 22) (F32.div x y).
Proof.
  intros Hx Hy Hlo Hhi.
  eapply normal32_weaken; [apply32 div_normal; [exact Hx | exact Hy | |] | |];
    unfold F32.prec, F32.emax; lia.
Qed.

(** Adding a non-negative [float] never decreases a non-negative [float]. *)
Lemma add_nonneg_monotone32 (x y : float32) :
  F32.nonneg_valid x = true -> F32.nonneg_valid y = true ->
  F32.leb x (F32.add x y) = true /\ F32.nonneg_valid (F32.add x y) = true.
Proof.
  apply32 add_nonneg_monotone.
Qed.

(** ** Conversions between [float] and [double] *)

Lemma of_Z_normal64 (p : Z) :
  0 < p -> Zdigits2 p <= 1023 ->
  normal_in 53 (Zdigits2 p - 53) (Zdigits2 p - 52) (F64.of_Z p).
Proof.
  intros Hp Hd.
  eapply normal_in_weaken; [apply64 of_Z_normal; [exact Hp|] | |];
    unfold F64.prec, F64.emax; lia.
Qed.

Lemma div_normal64 (lo1 hi1 lo2 hi2 : Z) (x y : float64) :
  normal_in 53 lo1 hi1 x -> normal_in 53 lo2 hi2 y ->
  -1074 <= lo1 - hi2 - 53 -> hi1 - lo2 - 51 <= 971 ->
  normal_in 53 (lo1 - hi2 - 53) (hi1 - lo2 - 51) (F64.div x y).
Proof.
  intros Hx Hy Hlo Hhi.
  eapply normal_in_weaken; [apply64 div_normal; [exact Hx | exact Hy | |] | |];
    unfold F64.prec, F64.emax; lia.
Qed.

(** A positive normal [double] within the range of [float] converts to a
    positive normal [float]. *)
Lemma float_of_double_normal (lo hi : Z) (x : float64) :
  normal_in 53 lo hi x -> -149 <= lo + 29 -> hi + 30 <= 104 ->
  normal_in 24 (lo + 29) (hi + 30) (float_of_double x).
Proof.
  intros (m & e & -> & Hd & He) Hlo Hhi. cbn [float_of_double].
  destruct (binary_round_unfold F32.prec F32.emax false m e)
    as (mz & ez & -> & Hez & Hmz & Hdz & Hpre).
  pose proof (round_normal F32.prec F32.emax prec32_gt_1
                (Zpos mz) ez loc_Exact ltac:(lia) Hpre) as H.
  rewrite Hdz, Hd in H. unfold F32.prec, F32.emax in H.
  eapply normal32_weaken; [apply H; lia | lia | lia].
Qed.

Lemma float_of_double_nonneg_valid (x : float64) :
  nonneg x = true -> F32.nonneg_valid (float_of_double x) = true.
Proof.
  destruct x as [[|]|[|]| |[|] m e]; try discriminate; intros _;
    try reflexivity.
  apply32 binary_round_nonneg_valid.
Qed.

Lemma double_of_float_nonneg (x : float32) :
  nonneg x = true -> nonneg (double_of_float x) = true.
Proof.
  destruct x as [[|]|[|]| |[|] m e]; try discriminate; intros _;
    try reflexivity.
  apply (nonneg_valid_nonneg F64.prec F64.emax).
  apply64 binary_round_nonneg_valid.
Qed.

(** * Comparisons with zero *)

Lemma ltb_zero_inv (x : float32) :
  F32.ltb F32.zero x = true ->
  x = S754_infinity false \/ exists m e, x = S754_finite false m e.
Proof.
  destruct x as [s | s | | s m e]; cbn; try discriminate.
  - destruct s; [discriminate | auto].
  - destruct s; [discriminate | eauto].
Qed.

Lemma eqb_zero_inv (x : float32) :
  F32.eqb x F32.zero = true -> exists s, x = S754_zero s.
Proof.
  destruct x as [s | s | | s m e]; cbn; try discriminate.
  - eauto.
  - destruct s; discriminate.
  - destruct s; discriminate.
Qed.

Lemma eqb_zero_not_ltb (x : float32) :
  F32.eqb x F32.zero = true -> F32.ltb F32.zero x = false.
Proof.
  intros H. destruct (eqb_zero_inv x H) as [s ->]. reflexivity.
Qed.

Lemma ltb_zero_not_eqb (x : float32) :
  F32.ltb F32.zero x = true -> F32.eqb x F32.zero = false.
Proof.
  intros H. destruct (ltb_zero_inv x H) as [-> | (m & e & ->)]; reflexivity.
Qed.

Lemma div_zero_pos (x : float32) :
  F32.ltb F32.zero x = true -> F32.div F32.zero x = F32.zero.
Proof.
  intros H. destruct (ltb_zero_inv x H) as [-> | (m & e & ->)]; reflexivity.
Qed.

Lemma add_zero_r (x : float32) :
  F32.nonneg_valid x = true -> F32.add x F32.zero = x.
Proof.
  destruct x as [[|] | [|] | | [|] m e]; cbn; intros H;
    try discriminate; reflexivity.
Qed.


(** * Ranges of the computed quantities *)

Lemma ML_PER_PULSE_normal : normal_in 24 (-22) (-22) ML_PER_PULSE.
Proof. exists 9437184%positive, (-22). repeat split; lia. Qed.

Lemma f1000_normal : normal_in 24 (-14) (-14) f1000.
Proof. exists 16384000%positive, (-14). repeat split; lia. Qed.

Lemma f5_normal : normal_in 24 (-21) (-21) f5.
Proof. exists 10485760%positive, (-21). repeat split; lia. Qed.

Lemma in_range_cases (p : Z) :
  ULong.in_range p -> p = 0 \/ 0 < p < 2 ^ 32.
Proof. unfold ULong.in_range, ULong.modulus. lia. Qed.

Lemma wrap_in_range (n : Z) : ULong.in_range (ULong.wrap n).
Proof.
  unfold ULong.in_range, ULong.wrap. apply Z.mod_pos_bound.
  unfold ULong.modulus. lia.
Qed.

(** The interval volume in litres: [+0] without pulses, otherwise a
    positive normal float below [2^28]. *)
Lemma volume_L_of_range (p : Z) :
  ULong.in_range p ->
  (p = 0 /\ volume_L_of p = F32.zero) \/
  (0 < p /\ normal_in 24 (-32) 4 (volume_L_of p)).
Proof.
  intros Hp. destruct (in_range_cases p Hp) as [->|Hpos].
  - left. split; reflexivity.
  - right. split; [lia|]. unfold volume_L_of.
    pose proof (of_ulong_normal p Hpos) as H1.
    pose proof (mul_normal32 _ _ _ _ _ _ H1 ML_PER_PULSE_normal
                  ltac:(lia) ltac:(lia)) as H2.
    pose proof (div_normal32 _ _ _ _ _ _ H2 f1000_normal
                  ltac:(lia) ltac:(lia)) as H3.
    eapply normal32_weaken; [exact H3 | lia | lia].
Qed.

Lemma volume_L_of_nonneg_valid (p : Z) :
  ULong.in_range p -> F32.nonneg_valid (volume_L_of p) = true.
Proof.
  intros Hp. destruct (volume_L_of_range p Hp) as [[_ ->]|[_ H]].
  - reflexivity.
  - apply (normal32_nonneg_valid _ _ _ H); lia.
Qed.

Lemma volume_mL_range (p : Z) :
  ULong.in_range p ->
  F32.mul (volume_L_of p) f1000 = F32.zero \/
  normal_in 24 (-23) 15 (F32.mul (volume_L_of p) f1000).
Proof.
  intros Hp. destruct (volume_L_of_range p Hp) as [[_ ->]|[_ H]].
  - left. reflexivity.
  - right.
    pose proof (mul_normal32 _ _ _ _ _ _ H f1000_normal ltac:(lia) ltac:(lia)) as H2.
    eapply normal32_weaken; [exact H2 | lia | lia].
Qed.

(** The elapsed time in seconds once the interval has elapsed: a positive
    normal float. *)
Lemma elapsedSeconds_of_range (currentTime last : Z) :
  CALC_INTERVAL <= ULong.sub currentTime last ->
  normal_in 24 (-27) 1 (elapsedSeconds_of currentTime last).
Proof.
  intros H. unfold elapsedSeconds_of.
  pose proof (wrap_in_range (currentTime - last)) as Hr.
  fold (ULong.sub currentTime last) in Hr.
  set (d := ULong.sub currentTime last) in *.
  unfold CALC_INTERVAL in H. unfold ULong.in_range, ULong.modulus in Hr.
  assert (Hd : 7 <= Zdigits2 d <= 32).
  { split.
    - change 7 with (Zdigits2 100). apply Zdigits2_le; lia.
    - apply Zdigits2_lt_pow2; lia. }
  pose proof (of_Z_normal32 d ltac:(lia) ltac:(lia)) as H1.
  pose proof (normal32_weaken _ _ (-17) 9 _ H1 ltac:(lia) ltac:(lia)) as H2.
  pose proof (div_normal32 _ _ _ _ _ _ H2 f1000_normal ltac:(lia) ltac:(lia)) as H3.
  eapply normal32_weaken; [exact H3 | lia | lia].
Qed.

Lemma frequency_of_range (p : Z) (es : float32) :
  ULong.in_range p -> normal_in 24 (-27) 1 es ->
  (p = 0 /\ frequency_of p es = F32.zero) \/
  (0 < p /\ normal_in 24 (-48) 14 (frequency_of p es)).
Proof.
  intros Hp Hes. unfold frequency_of.
  rewrite (normal32_pos _ _ _ Hes).
  destruct (in_range_cases p Hp) as [->|Hpos].
  - left. split; [reflexivity|].
    apply div_zero_pos. apply (normal32_pos _ _ _ Hes).
  - right. split; [lia|].
    pose proof (of_ulong_normal p Hpos) as H1.
    pose proof (div_normal32 _ _ _ _ _ _ H1 Hes ltac:(lia) ltac:(lia)) as H2.
    eapply normal32_weaken; [exact H2 | lia | lia].
Qed.

Lemma flowRate_range (f : float32) :
  f = F32.zero \/ normal_in 24 (-48) 14 f ->
  F32.div f f5 = F32.zero \/ normal_in 24 (-51) 13 (F32.div f f5).
Proof.
  intros [->|H]; [left; reflexivity | right].
  pose proof (div_normal32 _ _ _ _ _ _ H f5_normal ltac:(lia) ltac:(lia)) as H2.
  eapply normal32_weaken; [exact H2 | lia | lia].
Qed.

(** * Order on non-negative floats *)

Lemma leb_refl (x : float32) : F32.nonneg_valid x = true -> F32.leb x x = true.
Proof.
  destruct x as [[|]|[|]| |[|] m e]; try discriminate; intros _;
    try reflexivity.
  cbn. rewrite Z.compare_refl.
  change (Pos.compare_cont Eq m m) with (Pos.compare m m).
  rewrite Pos.compare_refl. reflexivity.
Qed.

Lemma leb_finite_inv (m1 m2 : positive) (e1 e2 : Z) :
  F32.leb (S754_finite false m1 e1) (S754_finite false m2 e2) = true <->
  e1 < e2 \/ (e1 = e2 /\ (m1 <= m2)%positive).
Proof.
  unfold F32.leb, SFleb, SFcompare.
  change (Pos.compare_cont Eq m1 m2) with (Pos.compare m1 m2).
  destruct (Z.compare_spec e1 e2) as [E|L|G].
  - subst. destruct (Pos.compare_spec m1 m2) as [E'|L'|G'];
      split; intros H; try reflexivity; try discriminate; try lia.
  - split; [intros _; lia | reflexivity].
  - split; [discriminate | lia].
Qed.

Lemma leb_trans (x y z : float32) :
  F32.nonneg_valid x = true -> F32.nonneg_valid y = true ->
  F32.nonneg_valid z = true ->
  F32.leb x y = true -> F32.leb y z = true -> F32.leb x z = true.
Proof.
  intros Hx Hy Hz.
  destruct x as [[|]|[|]| |[|] mx ex]; try discriminate;
    destruct y as [[|]|[|]| |[|] my ey]; try discriminate;
    destruct z as [[|]|[|]| |[|] mz ez]; try discriminate;
    try reflexivity; try (intros; discriminate); try (intros; assumption).
  rewrite !leb_finite_inv. lia.
Qed.

(** * The running total stays below [2^54] *)

Lemma bounded_of_normal (m : positive) (e : Z) :
  Zdigits2 (Zpos m) = 24 -> -149 <= e <= 104 ->
  bounded F32.prec F32.emax m e = true.
Proof.
  intros Hd He.
  assert (H : F32.nonneg_valid (S754_finite false m e) = true).
  { apply (normal32_nonneg_valid e e); [|lia|lia].
    exists m, e. repeat split; lia. }
  exact H.
Qed.

Lemma add_total_ok (x y : float32) :
  total_ok x -> y = F32.zero \/ normal_in 24 (-32) 4 y ->
  total_ok (F32.add x y).
Proof.
  intros [->|(mx & ex & -> & Hb & Hex)] [->|(my & ey & -> & Hdy & Hey)].
  - left. reflexivity.
  - right. exists my, ey. repeat split; try lia.
    apply bounded_of_normal; [assumption | lia].
  - right. exists mx, ex. repeat split; assumption.
  - pose proof (bounded32_inv mx ex Hb) as [Hc _].
    pose proof (Zdigits2_pos (Zpos mx) ltac:(lia)) as Hdp.
    destruct (Z_le_gt_dec 29 ex) as [Hbig|Hsmall].
    + (* the summand is below half a unit in the last place *)
      right. exists mx, ex.
      assert (Ea : F32.add (S754_finite false mx ex) (S754_finite false my ey)
                   = S754_finite false mx ex).
      { apply32 add_absorb; unfold F32.prec, F32.emax; lia. }
      rewrite Ea. repeat split; assumption.
    + assert (Hadd : exists m3 e3,
          F32.add (S754_finite false mx ex) (S754_finite false my ey)
            = pack F32.prec F32.emax false m3 e3 /\
          0 < m3 /\ canonical F32.prec F32.emax m3 e3 /\ e3 <= 30).
      { destruct (add_pos_pos F32.prec F32.emax prec32_gt_1 mx my ex ey Hb)
          as (m3 & e3 & E & H0 & Hcan & _ & Hup).
        exists m3, e3. repeat split; try assumption.
        rewrite fexp32 in Hup. lia. }
      destruct Hadd as (m3 & e3 & -> & H0 & Hcan & He3).
      right. destruct m3 as [|p|p]; try lia. cbn [pack].
      replace (e3 <=? F32.emax - F32.prec) with true
        by (symmetry; apply Z.leb_le; unfold F32.prec, F32.emax; lia).
      exists p, e3. repeat split; try lia.
      destruct Hcan as [Hcan|Hcan]; [discriminate|].
      apply bounded_intro; [exact Hcan|]. unfold F32.prec, F32.emax. lia.
Qed.

(** From [2^24] litres on, an interval of 50 pulses no longer changes the
    running total. *)
Remark total_absorbs_small_interval :
  F32.add (F32.of_Z 16777216) (volume_L_of 50) = F32.of_Z 16777216.
Proof. vm_compute. reflexivity. Qed.

Lemma total_ok_nonneg_valid (x : float32) :
  total_ok x -> F32.nonneg_valid x = true.
Proof. intros [->|(m & e & -> & Hb & _)]; [reflexivity | exact Hb]. Qed.

(** * Invariants of the operations *)

Lemma initial_state_wf : wf_state initial_state.
Proof.
  split; [|reflexivity]. unfold ULong.in_range, ULong.modulus. cbn. lia.
Qed.

Lemma step_wf (st : state) (currentTime p : Z) (es : float32) :
  wf_state st -> ULong.in_range p ->
  wf_state (step st currentTime p es) /\
  F32.leb (totalVolume st) (totalVolume (step st currentTime p es)) = true.
Proof.
  intros [Hpc Htot] Hp.
  pose proof (add_nonneg_monotone32 _ _ Htot (volume_L_of_nonneg_valid p Hp))
    as [Hle Hv].
  split; [|exact Hle]. split; [|exact Hv].
  unfold ULong.in_range, ULong.modulus. cbn. lia.
Qed.

Lemma loop_unfold (currentTime : Z) (st : state) :
  loop currentTime st = st \/
  (CALC_INTERVAL <= ULong.sub currentTime (lastTime st) /\
   loop_sample currentTime st
     = Some (calc st (pulseCount st)
               (elapsedSeconds_of currentTime (lastTime st))) /\
   loop currentTime st
     = step st currentTime (pulseCount st)
         (elapsedSeconds_of currentTime (lastTime st))).
Proof.
  unfold loop, loop_sample.
  destruct (CALC_INTERVAL <=? ULong.sub currentTime (lastTime st)) eqn:E.
  - right. apply Z.leb_le in E. repeat split. exact E.
  - left. reflexivity.
Qed.

(** ** The serial sketch *)

Lemma of_Z_nonneg32 (p : Z) : 0 <= p -> nonneg (F32.of_Z p) = true.
Proof.
  intros Hp. apply (nonneg_valid_nonneg F32.prec F32.emax).
  apply32 of_Z_nonneg_valid. exact Hp.
Qed.

Lemma serial_volume_nonneg_valid (p : Z) :
  0 <= p -> F32.nonneg_valid (Serial.volumeThisSecond p) = true.
Proof.
  intros Hp. unfold Serial.volumeThisSecond.
  apply float_of_double_nonneg_valid.
  apply64 div_nonneg. apply double_of_float_nonneg.
  apply32 mul_nonneg. apply of_Z_nonneg32. exact Hp.
Qed.

Lemma serial_update_wf (st : state) (currentTime : Z) (f : float32) :
  wf_state st ->
  wf_state (Serial.update st currentTime f) /\
  F32.leb (totalVolume st) (totalVolume (Serial.update st currentTime f)) = true.
Proof.
  intros [Hpc Htot].
  pose proof (add_nonneg_monotone32 _ _ Htot
                (serial_volume_nonneg_valid (pulseCount st) (proj1 Hpc)))
    as [Hle Hv].
  split; [|exact Hle]. split; [|exact Hv].
  unfold ULong.in_range, ULong.modulus. cbn. lia.
Qed.

Lemma d1000_normal : normal_in 53 (-43) (-43) d1000.
Proof. exists 8796093022208000%positive, (-43). repeat split; lia. Qed.

(** In the serial sketch the elapsed time in seconds, as a [double] and as
    a [float], is positive once the interval has elapsed. *)
Lemma serial_elapsed_normal (currentTime last : Z) :
  Serial.CALC_INTERVAL <= ULong.sub currentTime last ->
  normal_in 53 (-53) (-28) (Serial.elapsed currentTime last) /\
  normal_in 24 (-24) 2 (Serial.elapsedSeconds_of currentTime last).
Proof.
  intros H. unfold Serial.elapsedSeconds_of, Serial.elapsed.
  pose proof (wrap_in_range (currentTime - last)) as Hr.
  fold (ULong.sub currentTime last) in Hr.
  set (d := ULong.sub currentTime last) in *.
  unfold Serial.CALC_INTERVAL in H. unfold ULong.in_range, ULong.modulus in Hr.
  assert (Hd : 10 <= Zdigits2 d <= 32).
  { split.
    - change 10 with (Zdigits2 1000). apply Zdigits2_le; lia.
    - apply Zdigits2_lt_pow2; lia. }
  pose proof (of_Z_normal64 d ltac:(lia) ltac:(lia)) as H1.
  pose proof (normal_in_weaken 53 _ _ (-43) (-20) _ H1 ltac:(lia) ltac:(lia)) as H2.
  pose proof (div_normal64 _ _ _ _ _ _ H2 d1000_normal ltac:(lia) ltac:(lia)) as H3.
  assert (H4 : normal_in 53 (-53) (-28) (F64.div (F64.of_Z d) d1000))
    by (eapply normal_in_weaken; [exact H3 | lia | lia]).
  split; [exact H4|].
  pose proof (float_of_double_normal _ _ _ H4 ltac:(lia) ltac:(lia)) as H5.
  eapply normal32_weaken; [exact H5 | lia | lia].
Qed.

Lemma run_wf (op : operation) (st : state) :
  wf_state st -> wf_state (run op st).
Proof.
  intros Hwf. pose proof Hwf as [Hpc Htot].
  destruct op as [now| |currentTime|currentTime|currentTime| | | |factor];
    cbn [run]; try (split; assumption).
  - split; [apply wrap_in_range | exact Htot].
  - destruct (loop_unfold currentTime st) as [->|(_ & _ & ->)];
      [exact Hwf | apply step_wf; assumption].
  - unfold Serial.loop.
    destruct (Serial.CALC_INTERVAL <=? ULong.sub currentTime (lastTime st));
      [apply serial_update_wf|]; exact Hwf.
  - unfold Serial.loop_hz.
    destruct (Serial.CALC_INTERVAL <=? ULong.sub currentTime (lastTime st));
      [apply serial_update_wf|]; exact Hwf.
  - split; [exact Hpc | reflexivity].
Qed.

Lemma run_monotone (op : operation) (st : state) :
  wf_state st -> is_reset op = false ->
  F32.leb (totalVolume st) (totalVolume (run op st)) = true.
Proof.
  intros Hwf Hop. pose proof Hwf as [Hpc Htot].
  destruct op as [now| |currentTime|currentTime|currentTime| | | |factor];
    cbn [run]; try discriminate; try (apply leb_refl; exact Htot).
  - destruct (loop_unfold currentTime st) as [->|(_ & _ & ->)];
      [apply leb_refl; exact Htot | apply step_wf; assumption].
  - unfold Serial.loop.
    destruct (Serial.CALC_INTERVAL <=? ULong.sub currentTime (lastTime st));
      [apply serial_update_wf; exact Hwf | apply leb_refl; exact Htot].
  - unfold Serial.loop_hz.
    destruct (Serial.CALC_INTERVAL <=? ULong.sub currentTime (lastTime st));
      [apply serial_update_wf; exact Hwf | apply leb_refl; exact Htot].
Qed.

Lemma run_all_wf (ops : list operation) (st : state) :
  wf_state st -> wf_state (run_all ops st).
Proof.
  revert st. induction ops as [|op ops IH]; intros st Hwf; [exact Hwf|].
  cbn. apply IH. apply run_wf. exact Hwf.
Qed.

Lemma run_all_monotone (ops : list operation) (st : state) :
  wf_state st -> forallb (fun op => negb (is_reset op)) ops = true ->
  F32.leb (totalVolume st) (totalVolume (run_all ops st)) = true.
Proof.
  revert st. induction ops as [|op ops IH]; intros st Hwf Hops.
  - apply leb_refl. apply Hwf.
  - cbn in Hops. apply andb_prop in Hops as [Hop Hops].
    apply negb_true_iff in Hop. cbn [run_all fold_left].
    pose proof (run_wf op st Hwf) as Hwf'.
    apply (leb_trans _ (totalVolume (run op st))).
    + apply Hwf.
    + apply Hwf'.
    + apply (run_all_wf ops _ Hwf').
    + apply run_monotone; assumption.
    + apply IH; assumption.
Qed.

(** In [flow_control.ino] the calibration factor stays 5.0, the counter
    fits in an [unsigned long] and the running total stays below [2^54]. *)
Lemma reachable_inv (st : state) :
  reachable st ->
  ULong.in_range (pulseCount st) /\
  calibrationFactor st = f5 /\
  total_ok (totalVolume st).
Proof.
  induction 1 as [|now st _ IH|st _ IH|currentTime st _ IH|st _ IH|st _ IH].
  - split; [|split]; [|reflexivity|left; reflexivity].
    unfold ULong.in_range, ULong.modulus. cbn. lia.
  - exact IH.
  - destruct IH as (H1 & H2 & H3). split; [apply wrap_in_range|]. split; assumption.
  - destruct IH as (H1 & H2 & H3).
    destruct (loop_unfold currentTime st) as [->|(_ & _ & ->)];
      [split; [|split]; assumption|].
    split; [|split]; [|exact H2|].
    + unfold ULong.in_range, ULong.modulus. cbn. lia.
    + cbn. apply add_total_ok; [exact H3|].
      destruct (volume_L_of_range _ H1) as [[_ ->]|[_ H]]; [left|right]; auto.
  - exact IH.
  - exact IH.
Qed.

Lemma reachable_calibration_positive (st : state) :
  reachable st -> F32.ltb F32.zero (calibrationFactor st) = true.
Proof.
  intros H. destruct (reachable_inv st H) as (_ & -> & _). reflexivity.
Qed.

Lemma reachable_wf (st : state) : reachable st -> wf_state st.
Proof.
  intros H. destruct (reachable_inv st H) as (H1 & _ & H3).
  split; [exact H1 | apply total_ok_nonneg_valid; exact H3].
Qed.

(** * Formatting *)

Lemma digit_char_cases (d : Z) :
  0 <= d <= 9 ->
  is_digit (digit_char d) = true /\
  Z.of_nat (nat_of_ascii (digit_char d)) - 48 = d.
Proof.
  intros H.
  assert (C : d = 0 \/ d = 1 \/ d = 2 \/ d = 3 \/ d = 4 \/ d = 5 \/ d = 6 \/
              d = 7 \/ d = 8 \/ d = 9) by lia.
  repeat (destruct C as [->|C]; [split; reflexivity|]).
  subst. split; reflexivity.
Qed.

Lemma mod10_digit (n : Z) : 0 <= n mod 10 <= 9.
Proof. pose proof (Z.mod_pos_bound n 10 ltac:(lia)). lia. Qed.

Lemma is_digit_no_comma (c : ascii) :
  is_digit c = true -> negb (Ascii.eqb c comma) = true.
Proof.
  intros H. destruct (Ascii.eqb_spec c comma) as [->|]; [discriminate|reflexivity].
Qed.

Lemma digits_no_comma (l : list ascii) :
  forallb is_digit l = true -> no_comma l = true.
Proof.
  unfold no_comma. induction l as [|c l IH]; [reflexivity|]. cbn [forallb].
  intros H. apply andb_prop in H as [H1 H2].
  rewrite (is_digit_no_comma c H1), (IH H2). reflexivity.
Qed.

(** ** Decimal digits *)

Lemma digits_fuel_app (fuel : nat) (n : Z) (acc : list ascii) :
  exists ds, digits_fuel fuel n acc = ds ++ acc /\
             forallb is_digit ds = true /\
             (fuel <> O -> ds <> []).
Proof.
  revert n acc. induction fuel as [|fuel IH]; intros n acc.
  - exists []. repeat split. congruence.
  - cbn [digits_fuel].
    destruct (digit_char_cases (n mod 10) (mod10_digit n)) as [Hd _].
    destruct (n / 10 =? 0).
    + exists [digit_char (n mod 10)]. cbn [app forallb]. rewrite Hd.
      repeat split. discriminate.
    + destruct (IH (n / 10) (digit_char (n mod 10) :: acc)) as (ds & -> & Hds & _).
      exists (ds ++ [digit_char (n mod 10)]). rewrite <- app_assoc. split; [reflexivity|].
      split.
      * rewrite forallb_app, Hds. cbn [forallb]. rewrite Hd. reflexivity.
      * intros _ E. apply app_eq_nil in E as [_ E]. discriminate.
Qed.

Lemma digits_fuel_length (fuel : nat) (n : Z) (acc : list ascii) (k : nat) :
  0 <= n < 10 ^ Z.of_nat k -> (1 <= k)%nat ->
  (List.length (digits_fuel fuel n acc) <= List.length acc + k)%nat.
Proof.
  revert n acc k. induction fuel as [|fuel IH]; intros n acc k Hn Hk.
  - cbn. lia.
  - cbn [digits_fuel]. destruct (n / 10 =? 0) eqn:E.
    + cbn. lia.
    + apply Z.eqb_neq in E.
      destruct k as [|[|k]]; try lia.
      * change (10 ^ Z.of_nat 1) with 10 in Hn.
        exfalso. apply E. apply Z.div_small. lia.
      * assert (Hq : 0 <= n / 10 < 10 ^ Z.of_nat (S k)).
        { split; [apply Z.div_pos; lia|].
          apply Z.div_lt_upper_bound; [lia|].
          rewrite <- Z.pow_succ_r by lia.
          replace (Z.succ (Z.of_nat (S k))) with (Z.of_nat (S (S k))) by lia.
          lia. }
        specialize (IH (n / 10) (digit_char (n mod 10) :: acc) (S k) Hq ltac:(lia)).
        cbn [List.length] in IH. lia.
Qed.

Lemma decimal_value_snoc (l : list ascii) (c : ascii) :
  decimal_value (l ++ [c])
    = 10 * decimal_value l + (Z.of_nat (nat_of_ascii c) - 48).
Proof. unfold decimal_value. rewrite fold_left_app. reflexivity. Qed.

Lemma digits_fuel_value (fuel : nat) (n : Z) (acc : list ascii) :
  0 <= n < 2 ^ Z.of_nat fuel -> fuel <> O ->
  exists ds, digits_fuel fuel n acc = ds ++ acc /\ decimal_value ds = n.
Proof.
  revert n acc. induction fuel as [|fuel IH]; intros n acc Hn Hf; [congruence|].
  cbn [digits_fuel].
  destruct (digit_char_cases (n mod 10) (mod10_digit n)) as [_ Hv].
  destruct (n / 10 =? 0) eqn:E.
  - apply Z.eqb_eq in E.
    exists [digit_char (n mod 10)]. split; [reflexivity|].
    change (decimal_value [digit_char (n mod 10)])
      with (10 * 0 + (Z.of_nat (nat_of_ascii (digit_char (n mod 10))) - 48)).
    rewrite Hv. pose proof (Z.div_mod n 10 ltac:(lia)). lia.
  - apply Z.eqb_neq in E.
    assert (Hn10 : 10 <= n).
    { destruct (Z_lt_le_dec n 10) as [Hlt|]; [|assumption].
      exfalso. apply E. apply Z.div_small. lia. }
    rewrite Nat2Z.inj_succ, Z.pow_succ_r in Hn by lia.
    assert (Hq : 0 <= n / 10 < 2 ^ Z.of_nat fuel).
    { split; [apply Z.div_pos; lia|].
      apply Z.div_lt_upper_bound; lia. }
    assert (Hf' : fuel <> O).
    { intros ->. change (2 ^ Z.of_nat 0) with 1 in Hn. lia. }
    destruct (IH (n / 10) (digit_char (n mod 10) :: acc) Hq Hf') as (ds & -> & Hds).
    exists (ds ++ [digit_char (n mod 10)]). rewrite <- app_assoc.
    split; [reflexivity|].
    rewrite decimal_value_snoc, Hds, Hv.
    pose proof (Z.div_mod n 10 ltac:(lia)). lia.
Qed.

(** [%lu] writes a non-empty run of digits that denotes the number. *)
Lemma fmt_lu_field (n : Z) :
  0 <= n -> integer_field (fmt_lu n) /\ decimal_value (fmt_lu n) = n.
Proof.
  intros Hn. unfold fmt_lu.
  destruct (digits_fuel_app (S (Z.to_nat (Z.log2 n))) n []) as (ds & E & Hd & Hne).
  rewrite app_nil_r in E. split.
  - rewrite E. split; [apply Hne; discriminate | exact Hd].
  - assert (Hlt : 0 <= n < 2 ^ Z.of_nat (S (Z.to_nat (Z.log2 n)))).
    { split; [assumption|].
      rewrite Nat2Z.inj_succ, Z2Nat.id by apply Z.log2_nonneg.
      destruct (Z.eq_dec n 0) as [->|]; [reflexivity|].
      apply Z.log2_spec. lia. }
    destruct (digits_fuel_value _ n [] Hlt ltac:(discriminate)) as (ds' & E' & Hv).
    rewrite app_nil_r in E'. rewrite E'. exact Hv.
Qed.

Lemma fmt_lu_length (n : Z) (k : nat) :
  0 <= n < 10 ^ Z.of_nat k -> (1 <= k)%nat -> (List.length (fmt_lu n) <= k)%nat.
Proof.
  intros Hn Hk. unfold fmt_lu.
  pose proof (digits_fuel_length (S (Z.to_nat (Z.log2 n))) n [] k Hn Hk) as H.
  exact H.
Qed.

Lemma fixed_digits_spec (w : nat) (n : Z) :
  List.length (fixed_digits w n) = w /\
  forallb is_digit (fixed_digits w n) = true.
Proof.
  revert n. induction w as [|w IH]; intros n; [split; reflexivity|].
  cbn [fixed_digits]. destruct (IH (n / 10)) as [H1 H2].
  destruct (digit_char_cases (n mod 10) (mod10_digit n)) as [Hd _].
  split.
  - rewrite length_app, H1. cbn. lia.
  - rewrite forallb_app, H2. cbn [forallb]. rewrite Hd. reflexivity.
Qed.

(** ** Fixed-point fields *)

Lemma round_half_even_div_bounds (num den : Z) :
  1 <= num -> 2 <= den ->
  0 <= round_half_even_div num den <= num.
Proof.
  intros Hn Hd. unfold round_half_even_div.
  pose proof (Z.div_mod num den ltac:(lia)) as Hdm.
  pose proof (Z.mod_pos_bound num den ltac:(lia)) as Hr.
  assert (Hq : 0 <= num / den) by (apply Z.div_pos; lia).
  assert (Hq1 : num / den + 1 <= num \/ (num / den = 0 /\ num mod den = num)) by nia.
  destruct (Z.compare_spec (2 * (num mod den)) den) as [E|L|G].
  - destruct (Z.even (num / den)) eqn:Ev; [nia|].
    destruct Hq1 as [|[E0 _]]; [lia|]. rewrite E0 in Ev. discriminate.
  - nia.
  - destruct Hq1 as [|[E0 E1]]; lia.
Qed.

Lemma pow10_pos (N : nat) : 0 < 10 ^ Z.of_nat N.
Proof. apply Z.pow_pos_nonneg; lia. Qed.

Lemma scaled_decimal_bounds (N : nat) (m e K : Z) :
  0 < m < 2 ^ 24 -> e <= K -> 0 <= K ->
  0 <= scaled_decimal N m e /\
  scaled_decimal N m e / 10 ^ Z.of_nat N < 2 ^ (24 + K).
Proof.
  intros Hm He HK. pose proof (pow10_pos N) as HN.
  assert (H24 : 2 ^ 24 <= 2 ^ (24 + K)) by (apply Z.pow_le_mono_r; lia).
  unfold scaled_decimal. destruct (0 <=? e) eqn:E.
  - apply Z.leb_le in E.
    assert (Hpe : 0 < 2 ^ e) by (apply pow2_pos; lia).
    assert (Hle : 2 ^ e <= 2 ^ K) by (apply Z.pow_le_mono_r; lia).
    split; [nia|]. rewrite Z.div_mul by lia.
    rewrite Z.pow_add_r by lia. nia.
  - apply Z.leb_gt in E.
    assert (Hden : 2 <= 2 ^ (- e)).
    { change 2 with (2 ^ 1) at 1. apply Z.pow_le_mono_r; lia. }
    pose proof (round_half_even_div_bounds (m * 10 ^ Z.of_nat N) (2 ^ (- e))
                  ltac:(nia) Hden) as [H0 H1].
    split; [exact H0|].
    apply Z.div_lt_upper_bound; [lia|]. nia.
Qed.

Lemma fmt_fixed_field (N : nat) (q : Z) (k : nat) :
  0 <= q -> q / 10 ^ Z.of_nat N < 10 ^ Z.of_nat k -> (1 <= k)%nat ->
  decimal_field N (fmt_fixed N false q) /\
  (List.length (fmt_fixed N false q) <= k + 1 + N)%nat.
Proof.
  intros Hq Hlt Hk. pose proof (pow10_pos N) as HN.
  assert (Hip : 0 <= q / 10 ^ Z.of_nat N) by (apply Z.div_pos; lia).
  destruct (fmt_lu_field _ Hip) as [Hf _].
  destruct (fixed_digits_spec N (q mod 10 ^ Z.of_nat N)) as [HL HD].
  pose proof (fmt_lu_length _ k (conj Hip Hlt) Hk) as Hlen.
  unfold fmt_fixed. cbn [sign_chars app]. split.
  - exists (fmt_lu (q / 10 ^ Z.of_nat N)),
           (fixed_digits N (q mod 10 ^ Z.of_nat N)).
    repeat split; try assumption; apply Hf.
  - rewrite length_app. cbn [List.length]. rewrite HL. lia.
Qed.

(** [%.Nf] on [+0] or a positive float below [2^(24+K)], with [10^k]
    above that bound. *)
Lemma fmt_f_field (N : nat) (K : Z) (k : nat) (x : float32) :
  small_nonneg K x -> 0 <= K -> 2 ^ (24 + K) <= 10 ^ Z.of_nat k -> (1 <= k)%nat ->
  decimal_field N (fmt_f N x) /\
  (List.length (fmt_f N x) <= k + 1 + N)%nat.
Proof.
  intros [->|(m & e & -> & Hm & He)] HK Hpow Hk; cbn [fmt_f F32.zero].
  - apply fmt_fixed_field; [lia| |exact Hk].
    rewrite Z.div_0_l by (pose proof (pow10_pos N); lia).
    apply Z.pow_pos_nonneg; lia.
  - destruct (scaled_decimal_bounds N (Zpos m) e K ltac:(lia) He HK) as [H0 H1].
    apply fmt_fixed_field; [exact H0|lia|exact Hk].
Qed.

Lemma normal_in_small (lo hi K : Z) (x : float32) :
  normal_in 24 lo hi x -> hi <= K -> small_nonneg K x.
Proof.
  intros (m & e & -> & Hd & He) HK. right. exists m, e.
  pose proof (Zdigits2_bounds (Zpos m) ltac:(lia)) as [_ Hhi].
  rewrite Hd in Hhi. repeat split; [exact Hhi | lia].
Qed.

Lemma total_ok_small (x : float32) : total_ok x -> small_nonneg 30 x.
Proof.
  intros [->|(m & e & -> & Hb & He)]; [left; reflexivity|].
  right. exists m, e. apply bounded32_inv in Hb as [Hc _].
  pose proof (Zdigits2_bounds (Zpos m) ltac:(lia)) as [_ Hhi].
  assert (Zdigits2 (Zpos m) <= 24) by lia.
  assert (2 ^ Zdigits2 (Zpos m) <= 2 ^ 24) by (apply Z.pow_le_mono_r; lia).
  repeat split; lia.
Qed.

Lemma decimal_field_no_comma (N : nat) (l : list ascii) :
  decimal_field N l -> no_comma l = true.
Proof.
  intros (ip & fp & -> & [_ Hip] & Hfp & _).
  unfold no_comma. rewrite forallb_app. cbn [forallb].
  fold (no_comma ip). fold (no_comma fp).
  rewrite (digits_no_comma ip Hip), (digits_no_comma fp Hfp). reflexivity.
Qed.

Lemma digits_record_chars (l : list ascii) :
  forallb is_digit l = true -> forallb record_char l = true.
Proof.
  induction l as [|c l IH]; [reflexivity|]. cbn [forallb].
  intros H. apply andb_prop in H as [H1 H2].
  unfold record_char at 1. rewrite H1, (IH H2). reflexivity.
Qed.

Lemma decimal_field_record_chars (N : nat) (l : list ascii) :
  decimal_field N l -> forallb record_char l = true.
Proof.
  intros (ip & fp & -> & [_ Hip] & Hfp & _).
  rewrite forallb_app. cbn [forallb].
  rewrite (digits_record_chars ip Hip), (digits_record_chars fp Hfp).
  reflexivity.
Qed.

(** ** Splitting at the separator *)

Lemma split_on_field (f rest : list ascii) :
  no_comma f = true ->
  split_on comma (f ++ comma :: rest) = f :: split_on comma rest.
Proof.
  unfold no_comma. induction f as [|c f IH]; intros H.
  - reflexivity.
  - cbn in H. apply andb_prop in H as [Hc Hf]. apply negb_true_iff in Hc.
    cbn [app split_on]. rewrite Hc, (IH Hf). reflexivity.
Qed.

Lemma split_on_last (f : list ascii) :
  no_comma f = true -> split_on comma f = [f].
Proof.
  unfold no_comma. induction f as [|c f IH]; intros H.
  - reflexivity.
  - cbn in H. apply andb_prop in H as [Hc Hf]. apply negb_true_iff in Hc.
    cbn [split_on]. rewrite Hc, (IH Hf). reflexivity.
Qed.

(** * Calibration setter and reset *)

(** C1, as the code has it: [setCalibrationFactor] has no guard; for every
    factor, zero and negative ones included, it stores the factor and
    leaves the other globals alone. *)
Theorem setCalibrationFactor_stores (factor : float32) (st : state) :
  calibrationFactor (setCalibrationFactor factor st) = factor /\
  calibrationFactor (run (OpSetCalibration factor) st) = factor /\
  totalVolume (setCalibrationFactor factor st) = totalVolume st /\
  flowRate (setCalibrationFactor factor st) = flowRate st /\
  pulseCount (setCalibrationFactor factor st) = pulseCount st /\
  lastTime (setCalibrationFactor factor st) = lastTime st.
Proof. repeat split. Qed.

(** C1 refuted as stated: after [setCalibrationFactor(-1.0)] on the initial
    globals the stored factor is [-1.0], not the previous [5.0]; likewise
    [setCalibrationFactor(0.0)] stores [0.0]. *)
Lemma setCalibrationFactor_accepts_nonpositive :
  F32.leb (F32.of_Z (-1)) F32.zero = true /\
  calibrationFactor (setCalibrationFactor (F32.of_Z (-1)) initial_state)
    = F32.of_Z (-1) /\
  calibrationFactor (setCalibrationFactor (F32.of_Z (-1)) initial_state)
    <> calibrationFactor initial_state /\
  F32.leb F32.zero F32.zero = true /\
  calibrationFactor (setCalibrationFactor F32.zero initial_state)
    <> calibrationFactor initial_state.
Proof. repeat split; try reflexivity; cbv; discriminate. Qed.

(** C6: [resetTotalVolume] is a total function that makes the running total
    exactly [+0] from every prior state and touches nothing else. *)
Theorem resetTotalVolume_zero (st : state) :
  totalVolume (resetTotalVolume st) = F32.zero /\
  getTotalVolume (resetTotalVolume st) = F32.zero /\
  totalVolume (run OpReset st) = F32.zero /\
  calibrationFactor (resetTotalVolume st) = calibrationFactor st /\
  flowRate (resetTotalVolume st) = flowRate st /\
  pulseCount (resetTotalVolume st) = pulseCount st /\
  lastTime (resetTotalVolume st) = lastTime st.
Proof. repeat split. Qed.

(** * Frequency *)

(** In [loop] the elapsed time is positive whenever a rate is computed. *)
Lemma loop_elapsedSeconds_positive (currentTime : Z) (st : state) :
  CALC_INTERVAL <= ULong.sub currentTime (lastTime st) ->
  F32.ltb F32.zero (elapsedSeconds_of currentTime (lastTime st)) = true.
Proof.
  intros H. apply (normal32_pos (-27) 1). apply elapsedSeconds_of_range. exact H.
Qed.

(** C2: the frequency is the float quotient [pulses / elapsedSeconds] when
    [elapsedSeconds > 0] and exactly [+0] when [elapsedSeconds == 0]; the
    evaluation with a division that refuses a zero divisor never fails, so
    no division by zero is executed; [loop] computes a rate only with a
    positive elapsed time.  The serial sketch divides without the guard,
    but only by an elapsed time that is positive, and its quotient is then
    the same expression. *)
Theorem frequency_guarded (pulses : Z) (elapsedSeconds : float32)
    (Hp : ULong.in_range pulses) :
  (F32.ltb F32.zero elapsedSeconds = true ->
     frequency_of pulses elapsedSeconds
       = F32.div (F32.of_Z pulses) elapsedSeconds) /\
  (F32.eqb elapsedSeconds F32.zero = true ->
     frequency_of pulses elapsedSeconds = F32.zero) /\
  frequency_checked pulses elapsedSeconds
    = Some (frequency_of pulses elapsedSeconds) /\
  (forall currentTime st s,
     loop_sample currentTime st = Some s ->
     F32.ltb F32.zero (elapsedSeconds_of currentTime (lastTime st)) = true /\
     frequency s = F32.div (F32.of_Z (pulseCount st))
                     (elapsedSeconds_of currentTime (lastTime st))) /\
  (forall currentTime last,
     Serial.CALC_INTERVAL <= ULong.sub currentTime last ->
     F64.ltb F64.zero (Serial.elapsed currentTime last) = true /\
     F32.ltb F32.zero (Serial.elapsedSeconds_of currentTime last) = true /\
     Serial.frequency_of pulses (Serial.elapsedSeconds_of currentTime last)
       = frequency_of pulses (Serial.elapsedSeconds_of currentTime last)).
Proof.
  unfold frequency_of, frequency_checked, checked_div.
  split; [|split; [|split; [|split]]].
  - intros ->. reflexivity.
  - intros H. rewrite (eqb_zero_not_ltb _ H). reflexivity.
  - destruct (F32.ltb F32.zero elapsedSeconds) eqn:E; [|reflexivity].
    rewrite (ltb_zero_not_eqb _ E). reflexivity.
  - intros currentTime st s Hs.
    destruct (loop_unfold currentTime st) as [Hno|(Hint & Hs' & _)].
    + unfold loop_sample in Hs.
      destruct (CALC_INTERVAL <=? ULong.sub currentTime (lastTime st)) eqn:E;
        [|discriminate].
      apply Z.leb_le in E.
      pose proof (loop_elapsedSeconds_positive currentTime st E) as Hpos.
      split; [exact Hpos|]. injection Hs as <-.
      cbn [calc frequency]. unfold frequency_of. rewrite Hpos. reflexivity.
    + pose proof (loop_elapsedSeconds_positive currentTime st Hint) as Hpos.
      split; [exact Hpos|]. rewrite Hs' in Hs. injection Hs as <-.
      cbn [calc frequency]. unfold frequency_of. rewrite Hpos. reflexivity.
  - intros currentTime last Hint.
    destruct (serial_elapsed_normal currentTime last Hint) as [H64 H32].
    pose proof (normal32_pos _ _ _ H32) as Hpos.
    split; [exact (normal_in_pos 53 _ _ _ H64)|].
    split; [exact Hpos|]. rewrite Hpos. reflexivity.
Qed.

Lemma frequency_guarded_witness :
  ULong.in_range 50 /\
  frequency_of 50 (F32.of_Z 1) = F32.div (F32.of_Z 50) (F32.of_Z 1) /\
  frequency_of 50 F32.zero = F32.zero /\
  frequency_checked 50 F32.zero = Some (frequency_of 50 F32.zero).
Proof.
  assert (H : ULong.in_range 50) by (unfold ULong.in_range, ULong.modulus; lia).
  split; [exact H|].
  destruct (frequency_guarded 50 (F32.of_Z 1) H) as (H1 & _ & _ & _ & _).
  destruct (frequency_guarded 50 F32.zero H) as (_ & H2 & H3 & _ & _).
  split; [apply H1; reflexivity|].
  split; [apply H2; reflexivity | exact H3].
Defined.

(** * Flow rate *)

(** C4: for every sample and every strictly positive calibration factor, the
    flow rate is the float quotient of the sample's frequency by the
    calibration factor, in the sample and in the global assigned from it. *)
Theorem flowRate_is_quotient (st : state) (currentTime drained : Z)
    (elapsedSeconds : float32)
    (Hcal : F32.ltb F32.zero (calibrationFactor st) = true) :
  let s := calc st drained elapsedSeconds in
  sampleFlowRate s = F32.div (frequency s) (calibrationFactor st) /\
  frequency s = frequency_of drained elapsedSeconds /\
  flowRate (step st currentTime drained elapsedSeconds)
    = F32.div (frequency_of drained elapsedSeconds) (calibrationFactor st) /\
  getFlowRate (step st currentTime drained elapsedSeconds) = sampleFlowRate s /\
  (forall s', loop_sample currentTime st = Some s' ->
     flowRate (loop currentTime st)
       = F32.div (frequency s') (calibrationFactor st)).
Proof.
  cbn. repeat split. intros s' Hs. unfold loop. rewrite Hs.
  unfold loop_sample in Hs.
  destruct (CALC_INTERVAL <=? ULong.sub currentTime (lastTime st));
    [|discriminate].
  injection Hs as <-. reflexivity.
Qed.

Lemma flowRate_is_quotient_witness :
  F32.ltb F32.zero (calibrationFactor initial_state) = true /\
  flowRate (step initial_state 1000 50 (F32.of_Z 1))
    = F32.div (frequency_of 50 (F32.of_Z 1)) (calibrationFactor initial_state).
Proof.
  assert (H : F32.ltb F32.zero (calibrationFactor initial_state) = true)
    by reflexivity.
  split; [exact H|].
  exact (proj1 (proj2 (proj2
           (flowRate_is_quotient initial_state 1000 50 (F32.of_Z 1) H)))).
Defined.

(** * End-to-end scenarios *)

(** C3 (scenario A): with calibration factor 5.0, 2.25 mL per pulse, an
    elapsed time of exactly 1.0 s and 50 pulses, the sample has frequency
    50.0, flow rate 10.0, interval volume 112.5 mL, and the running total
    has the float nearest to 0.1125 added to it; from a total of zero the
    new total is that float.  The same holds through [loop] when 1000 ms
    have elapsed with 50 pulses counted. *)
Theorem scenario_A (st : state) (currentTime : Z)
    (Hcal : calibrationFactor st = F32.of_Z 5) :
  let s := calc st 50 (F32.of_Z 1) in
  ML_PER_PULSE = F32.of_ratio 225 100 /\
  frequency s = F32.of_Z 50 /\
  sampleFlowRate s = F32.of_Z 10 /\
  volumeThisInterval_mL s = F32.of_ratio 1125 10 /\
  volumeThisInterval_L s = F32.of_ratio 1125 10000 /\
  totalVolume (step st currentTime 50 (F32.of_Z 1))
    = F32.add (totalVolume st) (F32.of_ratio 1125 10000) /\
  (totalVolume st = F32.zero ->
     totalVolume (step st currentTime 50 (F32.of_Z 1))
       = F32.of_ratio 1125 10000) /\
  (pulseCount st = 50 -> ULong.sub currentTime (lastTime st) = 1000 ->
     elapsedSeconds_of currentTime (lastTime st) = F32.of_Z 1 /\
     loop currentTime st = step st currentTime 50 (F32.of_Z 1)).
Proof.
  cbn zeta. unfold step, calc, commit. cbn [frequency sampleFlowRate
    volumeThisInterval_mL volumeThisInterval_L totalVolume sampleTotalVolume].
  rewrite Hcal.
  split; [vm_compute; reflexivity|].
  split; [vm_compute; reflexivity|].
  split; [vm_compute; reflexivity|].
  split; [vm_compute; reflexivity|].
  assert (HL : volume_L_of 50 = F32.of_ratio 1125 10000)
    by (vm_compute; reflexivity).
  split; [exact HL|].
  split; [rewrite HL; reflexivity|].
  split.
  - intros ->. rewrite HL. vm_compute. reflexivity.
  - intros Hp He.
    assert (Hes : elapsedSeconds_of currentTime (lastTime st) = F32.of_Z 1)
      by (unfold elapsedSeconds_of; rewrite He; vm_compute; reflexivity).
    split; [exact Hes|].
    unfold loop, loop_sample. rewrite Hes, He, Hp.
    replace (CALC_INTERVAL <=? 1000) with true by reflexivity.
    unfold commit, calc. cbn. rewrite Hcal. reflexivity.
Qed.

Lemma scenario_A_witness :
  calibrationFactor initial_state = F32.of_Z 5 /\
  frequency (calc initial_state 50 (F32.of_Z 1)) = F32.of_Z 50 /\
  totalVolume (step initial_state 1000 50 (F32.of_Z 1))
    = F32.of_ratio 1125 10000.
Proof.
  assert (H : calibrationFactor initial_state = F32.of_Z 5) by reflexivity.
  split; [exact H|].
  destruct (scenario_A initial_state 1000 H) as (_ & Hf & _ & _ & _ & _ & Ht & _).
  split; [exact Hf | apply Ht; reflexivity].
Defined.

(** C5 (scenario B): with a positive calibration factor, an interval with
    no pulse and a positive elapsed time has frequency, flow rate and
    interval volume exactly [+0] and leaves the running total as it was;
    so does every pass of [loop] that drains an empty counter. *)
Theorem zero_pulses_sample (st : state) (currentTime : Z)
    (elapsedSeconds : float32)
    (Hwf : wf_state st)
    (Hcal : F32.ltb F32.zero (calibrationFactor st) = true)
    (Hpos : F32.ltb F32.zero elapsedSeconds = true) :
  let s := calc st 0 elapsedSeconds in
  frequency s = F32.zero /\
  sampleFlowRate s = F32.zero /\
  volumeThisInterval_L s = F32.zero /\
  volumeThisInterval_mL s = F32.zero /\
  sampleTotalVolume s = totalVolume st /\
  totalVolume (step st currentTime 0 elapsedSeconds) = totalVolume st /\
  flowRate (step st currentTime 0 elapsedSeconds) = F32.zero /\
  (pulseCount st = 0 ->
     totalVolume (loop currentTime st) = totalVolume st /\
     (forall s', loop_sample currentTime st = Some s' ->
        frequency s' = F32.zero /\ sampleFlowRate s' = F32.zero /\
        volumeThisInterval_mL s' = F32.zero /\
        sampleTotalVolume s' = totalVolume st)).
Proof.
  destruct Hwf as [_ Htot].
  assert (Hf : forall es, F32.ltb F32.zero es = true ->
                 frequency_of 0 es = F32.zero).
  { intros es Hes. unfold frequency_of. rewrite Hes. apply (div_zero_pos _ Hes). }
  assert (Hv : volume_L_of 0 = F32.zero) by reflexivity.
  assert (Hcalc : forall es, F32.ltb F32.zero es = true ->
            calc st 0 es
            = {| pulses := 0; frequency := F32.zero; sampleFlowRate := F32.zero;
                 volumeThisInterval_L := F32.zero;
                 volumeThisInterval_mL := F32.zero;
                 sampleTotalVolume := totalVolume st |}).
  { intros es Hes. unfold calc.
    rewrite (Hf es Hes), Hv, (div_zero_pos _ Hcal), (add_zero_r _ Htot).
    reflexivity. }
  cbn zeta. unfold step. rewrite (Hcalc _ Hpos). cbn.
  do 7 (split; [reflexivity|]).
  intros Hpc.
  destruct (loop_unfold currentTime st) as [Hno|(Hint & Hs & Hl)].
  - rewrite Hno. split; [reflexivity|]. intros s' Hs'.
    unfold loop in Hno. rewrite Hs' in Hno.
    unfold loop_sample in Hs'.
    destruct (CALC_INTERVAL <=? ULong.sub currentTime (lastTime st)) eqn:E;
      [|discriminate].
    apply Z.leb_le in E. injection Hs' as <-. rewrite Hpc.
    rewrite (Hcalc _ (loop_elapsedSeconds_positive currentTime st E)).
    repeat split.
  - pose proof (loop_elapsedSeconds_positive currentTime st Hint) as Hes.
    rewrite Hl, Hpc. unfold step. rewrite (Hcalc _ Hes). cbn.
    split; [reflexivity|]. intros s' Hs'. rewrite Hs, Hpc in Hs'.
    injection Hs' as <-. rewrite (Hcalc _ Hes). repeat split.
Qed.

Lemma zero_pulses_sample_witness :
  wf_state initial_state /\
  F32.ltb F32.zero (calibrationFactor initial_state) = true /\
  F32.ltb F32.zero (F32.of_ratio 1 10) = true /\
  totalVolume (step initial_state 100 0 (F32.of_ratio 1 10))
    = totalVolume initial_state.
Proof.
  assert (Hc : F32.ltb F32.zero (calibrationFactor initial_state) = true)
    by reflexivity.
  assert (H : F32.ltb F32.zero (F32.of_ratio 1 10) = true) by reflexivity.
  split; [exact initial_state_wf|]. split; [exact Hc|]. split; [exact H|].
  exact (proj1 (proj2 (proj2 (proj2 (proj2 (proj2
    (zero_pulses_sample initial_state 100 (F32.of_ratio 1 10)
       initial_state_wf Hc H))))))).
Defined.

(** * Independence from the calibration factor *)

(** C9: two interval computations that differ only in the calibration
    factor (of any sign, zero or NaN) agree on the pulse count, the
    frequency, the interval volume in litres and millilitres and the new
    running total; the states after the step differ at most in [flowRate]
    and in the factor itself. *)
Theorem volume_independent_of_calibration (st : state)
    (factor1 factor2 : float32) (currentTime drained : Z)
    (elapsedSeconds : float32) :
  let st1 := setCalibrationFactor factor1 st in
  let st2 := setCalibrationFactor factor2 st in
  let s1 := calc st1 drained elapsedSeconds in
  let s2 := calc st2 drained elapsedSeconds in
  volumeThisInterval_L s1 = volumeThisInterval_L s2 /\
  volumeThisInterval_mL s1 = volumeThisInterval_mL s2 /\
  sampleTotalVolume s1 = sampleTotalVolume s2 /\
  frequency s1 = frequency s2 /\
  pulses s1 = drained /\ pulses s2 = drained /\
  totalVolume (step st1 currentTime drained elapsedSeconds)
    = totalVolume (step st2 currentTime drained elapsedSeconds) /\
  pulseCount (step st1 currentTime drained elapsedSeconds)
    = pulseCount (step st2 currentTime drained elapsedSeconds) /\
  lastTime (step st1 currentTime drained elapsedSeconds)
    = lastTime (step st2 currentTime drained elapsedSeconds) /\
  sampleTotalVolume s1 = F32.add (totalVolume st) (volume_L_of drained) /\
  volumeThisInterval_mL s1 = F32.mul (volume_L_of drained) f1000 /\
  sampleFlowRate s1 = F32.div (frequency s1) factor1 /\
  sampleFlowRate s2 = F32.div (frequency s2) factor2.
Proof. cbn. repeat split. Qed.

(** * Monotonicity of the running total *)

(** Every state reached from the initial globals, by any operations, is
    well formed. *)
Lemma history_wf (history : list operation) :
  wf_state (run_all history initial_state).
Proof. apply run_all_wf. exact initial_state_wf. Qed.

(** On a well-formed state no interval computation and no operation other
    than the reset decreases the running total. *)
Lemma totalVolume_monotone_wf (st : state) :
  wf_state st ->
  (forall currentTime drained elapsedSeconds,
     ULong.in_range drained ->
     F32.leb (totalVolume st)
       (totalVolume (step st currentTime drained elapsedSeconds)) = true) /\
  (forall op, is_reset op = false ->
     F32.leb (totalVolume st) (totalVolume (run op st)) = true) /\
  (forall ops, forallb (fun op => negb (is_reset op)) ops = true ->
     F32.leb (totalVolume st) (totalVolume (run_all ops st)) = true).
Proof.
  intros Hwf. split; [|split].
  - intros currentTime drained es Hd. apply step_wf; assumption.
  - intros op Hop. apply run_monotone; assumption.
  - intros ops Hops. apply run_all_monotone; assumption.
Qed.

(** C7: in every state reached from the initial globals by operations of
    either sketch (resets and calibration changes included), an interval
    computation with any pulse count of an [unsigned long] leaves the
    running total greater than or equal to what it was; no operation
    other than the reset decreases it, nor does any sequence of such
    operations; the reset makes it zero. *)
Theorem totalVolume_monotone (history : list operation) :
  let st := run_all history initial_state in
  (forall currentTime drained elapsedSeconds,
     ULong.in_range drained ->
     F32.leb (totalVolume st)
       (totalVolume (step st currentTime drained elapsedSeconds)) = true) /\
  (forall op, is_reset op = false ->
     F32.leb (totalVolume st) (totalVolume (run op st)) = true) /\
  (forall ops, forallb (fun op => negb (is_reset op)) ops = true ->
     F32.leb (totalVolume st) (totalVolume (run_all ops st)) = true) /\
  totalVolume (run OpReset st) = F32.zero.
Proof.
  cbn zeta.
  destruct (totalVolume_monotone_wf _ (history_wf history)) as (H1 & H2 & H3).
  repeat split; assumption.
Qed.

Lemma totalVolume_monotone_witness :
  ULong.in_range 50 /\
  is_reset (OpLoop 100) = false /\
  F32.leb (totalVolume (run_all [OpPulse] initial_state))
    (totalVolume (step (run_all [OpPulse] initial_state) 1000 50 (F32.of_Z 1)))
    = true /\
  F32.leb (totalVolume (run_all [OpPulse] initial_state))
    (totalVolume (run (OpLoop 100) (run_all [OpPulse] initial_state))) = true /\
  F32.leb (totalVolume (run_all [OpPulse] initial_state))
    (totalVolume (run_all [OpLoop 100; OpPulse; OpSetCalibration F32.zero;
                           OpLoop 250; OpPulse; OpSerialLoop 1250]
                    (run_all [OpPulse] initial_state))) = true.
Proof.
  assert (Hr : ULong.in_range 50) by (unfold ULong.in_range, ULong.modulus; lia).
  destruct (totalVolume_monotone [OpPulse]) as (H1 & H2 & H3 & _).
  split; [exact Hr|]. split; [reflexivity|].
  split; [apply H1; exact Hr|].
  split; [apply H2 | apply H3]; reflexivity.
Defined.

(** * Zero elapsed time *)

(** C10: with a positive calibration factor, a computation on an elapsed
    time equal to zero and a strictly positive pulse count reports
    frequency and flow rate [+0], yet the interval volume
    [(pulses * ML_PER_PULSE) / 1000] is strictly positive and is added to
    the running total, which does not decrease and, from zero, becomes
    that volume. *)
Theorem zero_elapsed_accumulates (st : state) (currentTime drained : Z)
    (elapsedSeconds : float32)
    (Hwf : wf_state st)
    (Hcal : F32.ltb F32.zero (calibrationFactor st) = true)
    (Hd : 0 < drained < ULong.modulus)
    (Hzero : F32.eqb elapsedSeconds F32.zero = true) :
  let s := calc st drained elapsedSeconds in
  frequency s = F32.zero /\
  sampleFlowRate s = F32.zero /\
  volumeThisInterval_L s
    = F32.div (F32.mul (F32.of_Z drained) ML_PER_PULSE) f1000 /\
  F32.ltb F32.zero (volumeThisInterval_L s) = true /\
  F32.ltb F32.zero (volumeThisInterval_mL s) = true /\
  totalVolume (step st currentTime drained elapsedSeconds)
    = F32.add (totalVolume st) (volumeThisInterval_L s) /\
  F32.leb (totalVolume st)
    (totalVolume (step st currentTime drained elapsedSeconds)) = true /\
  (totalVolume st = F32.zero ->
     totalVolume (step st currentTime drained elapsedSeconds)
       = volumeThisInterval_L s /\
     F32.ltb (totalVolume st)
       (totalVolume (step st currentTime drained elapsedSeconds)) = true).
Proof.
  assert (Hr : ULong.in_range drained) by (unfold ULong.in_range; lia).
  destruct (volume_L_of_range drained Hr) as [[E _]|[_ Hv]]; [lia|].
  assert (Hml : normal_in 24 (-23) 15 (F32.mul (volume_L_of drained) f1000)).
  { pose proof (mul_normal32 _ _ _ _ _ _ Hv f1000_normal ltac:(lia) ltac:(lia)) as H.
    eapply normal32_weaken; [exact H | lia | lia]. }
  cbn zeta. unfold step, commit, calc.
  cbn [frequency sampleFlowRate volumeThisInterval_L volumeThisInterval_mL
       sampleTotalVolume totalVolume].
  assert (Hf : frequency_of drained elapsedSeconds = F32.zero).
  { unfold frequency_of. rewrite (eqb_zero_not_ltb _ Hzero). reflexivity. }
  rewrite Hf, (div_zero_pos _ Hcal).
  do 3 (split; [reflexivity|]).
  split; [apply (normal32_pos _ _ _ Hv)|].
  split; [apply (normal32_pos _ _ _ Hml)|].
  split; [reflexivity|].
  split; [apply (step_wf st currentTime drained elapsedSeconds Hwf Hr)|].
  intros Ht. rewrite Ht.
  destruct Hv as (m & e & Ev & _). rewrite Ev. split; reflexivity.
Qed.

Lemma zero_elapsed_accumulates_witness :
  wf_state initial_state /\
  F32.ltb F32.zero (calibrationFactor initial_state) = true /\
  0 < 7 < ULong.modulus /\
  F32.eqb F32.zero F32.zero = true /\
  frequency (calc initial_state 7 F32.zero) = F32.zero /\
  F32.ltb F32.zero (volumeThisInterval_L (calc initial_state 7 F32.zero)) = true /\
  totalVolume (step initial_state 0 7 F32.zero) = F32.of_ratio 1575 100000.
Proof.
  assert (Hc : F32.ltb F32.zero (calibrationFactor initial_state) = true)
    by reflexivity.
  assert (Hd : 0 < 7 < ULong.modulus) by (unfold ULong.modulus; lia).
  assert (Hz : F32.eqb F32.zero F32.zero = true) by reflexivity.
  destruct (zero_elapsed_accumulates initial_state 0 7 F32.zero
              initial_state_wf Hc Hd Hz) as (H1 & _ & _ & H4 & _ & _ & _ & H8).
  split; [exact initial_state_wf|]. split; [exact Hc|]. split; [exact Hd|].
  split; [exact Hz|]. split; [exact H1|]. split; [exact H4|].
  destruct (H8 eq_refl) as [H9 _]. rewrite H9. vm_compute. reflexivity.
Defined.

(** * Notification payload *)

(** The conversions of the sketch's format string. *)
Lemma payload_format_parsed :
  parse_format (list_ascii_of_string payload_format)
  = [ConvLu; Lit comma; ConvF 2; Lit comma; ConvF 3; Lit comma;
     ConvF 2; Lit comma; ConvF 4].
Proof. reflexivity. Qed.

(** The fields of the sample of a pass through [loop] in
    [flow_control.ino]: each is [+0] or a positive float of bounded
    size. *)
Lemma loop_sample_ranges (st : state) (currentTime : Z) (s : sample) :
  reachable st -> loop_sample currentTime st = Some s ->
  0 <= pulses s < 10 ^ 10 /\
  small_nonneg 14 (frequency s) /\
  small_nonneg 13 (sampleFlowRate s) /\
  small_nonneg 15 (volumeThisInterval_mL s) /\
  small_nonneg 30 (sampleTotalVolume s).
Proof.
  intros Hreach Hs.
  destruct (reachable_inv st Hreach) as (Hpc & Hcf & Htot).
  unfold loop_sample in Hs.
  destruct (CALC_INTERVAL <=? ULong.sub currentTime (lastTime st)) eqn:E;
    [|discriminate].
  apply Z.leb_le in E. injection Hs as <-.
  pose proof (elapsedSeconds_of_range currentTime (lastTime st) E) as Hes.
  cbn [calc pulses frequency sampleFlowRate volumeThisInterval_mL
       sampleTotalVolume].
  rewrite Hcf.
  assert (Hfr : frequency_of (pulseCount st)
                  (elapsedSeconds_of currentTime (lastTime st)) = F32.zero \/
                normal_in 24 (-48) 14
                  (frequency_of (pulseCount st)
                     (elapsedSeconds_of currentTime (lastTime st)))).
  { destruct (frequency_of_range _ _ Hpc Hes) as [[_ H]|[_ H]]; auto. }
  split; [|split; [|split; [|split]]].
  - unfold ULong.in_range, ULong.modulus in Hpc.
    change (2 ^ 32) with 4294967296 in Hpc.
    change (10 ^ 10) with 10000000000. lia.
  - destruct Hfr as [->|H]; [left; reflexivity|].
    apply (normal_in_small _ _ _ _ H). lia.
  - destruct (flowRate_range _ Hfr) as [->|H]; [left; reflexivity|].
    apply (normal_in_small _ _ _ _ H). lia.
  - destruct (volume_mL_range _ Hpc) as [->|H]; [left; reflexivity|].
    apply (normal_in_small _ _ _ _ H). lia.
  - apply total_ok_small. apply add_total_ok; [exact Htot|].
    destruct (volume_L_of_range _ Hpc) as [[_ ->]|[_ H]]; [left|right]; auto.
Qed.

(** C8: for every sample computed by [loop] in [flow_control.ino], the
    payload is not truncated and is the record of exactly five fields, in
    the order pulses, frequency, flow rate, interval volume in mL, total
    volume, separated by commas; the first field is the pulse count in
    decimal, the others are decimal digits, a point and 2, 3, 2 and 4
    decimals; all its characters are digits, points and commas; a
    connected peer is notified of exactly this payload. *)
Theorem payload_record (st : state) (currentTime : Z) (s : sample)
    (Hreach : reachable st)
    (Hs : loop_sample currentTime st = Some s) :
  payload s
    = fmt_lu (pulses s) ++ comma ::
      fmt_f 2 (frequency s) ++ comma ::
      fmt_f 3 (sampleFlowRate s) ++ comma ::
      fmt_f 2 (volumeThisInterval_mL s) ++ comma ::
      fmt_f 4 (sampleTotalVolume s) /\
  split_on comma (payload s)
    = [fmt_lu (pulses s); fmt_f 2 (frequency s); fmt_f 3 (sampleFlowRate s);
       fmt_f 2 (volumeThisInterval_mL s); fmt_f 4 (sampleTotalVolume s)] /\
  integer_field (fmt_lu (pulses s)) /\
  decimal_value (fmt_lu (pulses s)) = pulses s /\
  decimal_field 2 (fmt_f 2 (frequency s)) /\
  decimal_field 3 (fmt_f 3 (sampleFlowRate s)) /\
  decimal_field 2 (fmt_f 2 (volumeThisInterval_mL s)) /\
  decimal_field 4 (fmt_f 4 (sampleTotalVolume s)) /\
  forallb record_char (payload s) = true /\
  (deviceConnected st = true ->
     loop_notification currentTime st = Some (payload s)).
Proof.
  destruct (loop_sample_ranges st currentTime s Hreach Hs)
    as (Hp & Hf & Hq & Hv & Ht).
  destruct (fmt_lu_field (pulses s) ltac:(lia)) as [Hip Hval].
  pose proof (fmt_lu_length (pulses s) 10 Hp ltac:(lia)) as Lp.
  destruct (fmt_f_field 2 14 12 _ Hf ltac:(lia) ltac:(vm_compute; discriminate)
              ltac:(lia)) as [Df Lf].
  destruct (fmt_f_field 3 13 12 _ Hq ltac:(lia) ltac:(vm_compute; discriminate)
              ltac:(lia)) as [Dq Lq].
  destruct (fmt_f_field 2 15 12 _ Hv ltac:(lia) ltac:(vm_compute; discriminate)
              ltac:(lia)) as [Dv Lv].
  destruct (fmt_f_field 4 30 17 _ Ht ltac:(lia) ltac:(vm_compute; discriminate)
              ltac:(lia)) as [Dt Lt].
  assert (Hpay : payload s
    = fmt_lu (pulses s) ++ comma ::
      fmt_f 2 (frequency s) ++ comma ::
      fmt_f 3 (sampleFlowRate s) ++ comma ::
      fmt_f 2 (volumeThisInterval_mL s) ++ comma ::
      fmt_f 4 (sampleTotalVolume s)).
  { unfold payload, snprintf. rewrite payload_format_parsed.
    cbn [format]. rewrite app_nil_r.
    apply firstn_all2.
    repeat (rewrite length_app; cbn [List.length]).
    change (128 - 1)%nat with 127%nat. lia. }
  split; [exact Hpay|].
  split.
  { rewrite Hpay.
    rewrite (split_on_field _ _ (digits_no_comma _ (proj2 Hip))).
    rewrite (split_on_field _ _ (decimal_field_no_comma _ _ Df)).
    rewrite (split_on_field _ _ (decimal_field_no_comma _ _ Dq)).
    rewrite (split_on_field _ _ (decimal_field_no_comma _ _ Dv)).
    rewrite (split_on_last _ (decimal_field_no_comma _ _ Dt)).
    reflexivity. }
  do 6 (split; [assumption|]).
  split.
  { rewrite Hpay. repeat (rewrite forallb_app; cbn [forallb]).
    rewrite (digits_record_chars _ (proj2 Hip)).
    rewrite (decimal_field_record_chars _ _ Df).
    rewrite (decimal_field_record_chars _ _ Dq).
    rewrite (decimal_field_record_chars _ _ Dv).
    rewrite (decimal_field_record_chars _ _ Dt).
    reflexivity. }
  intros Hc. unfold loop_notification. rewrite Hs, Hc. reflexivity.
Qed.

Lemma payload_record_witness :
  reachable (pulseCounter (setup 0 initial_state)) /\
  loop_sample 100 (pulseCounter (setup 0 initial_state))
    = Some (calc (pulseCounter (setup 0 initial_state)) 1 (F32.of_ratio 1 10)) /\
  split_on comma
    (payload (calc (pulseCounter (setup 0 initial_state)) 1 (F32.of_ratio 1 10)))
  = map list_ascii_of_string
      ["1"; "10.00"; "2.000"; "2.25"; "0.0022"]%string.
Proof.
  assert (Hr : reachable (pulseCounter (setup 0 initial_state)))
    by (apply reach_pulse, reach_setup, reach_init).
  assert (Hs : loop_sample 100 (pulseCounter (setup 0 initial_state))
    = Some (calc (pulseCounter (setup 0 initial_state)) 1 (F32.of_ratio 1 10)))
    by (vm_compute; reflexivity).
  split; [exact Hr|]. split; [exact Hs|].
  destruct (payload_record _ 100 _ Hr Hs) as (_ & H & _).
  rewrite H. vm_compute. reflexivity.
Defined.

(** * Exact description of rounding *)

(** ** Nearest integer to a quotient, ties to even *)

Lemma rhe_cases (a b : Z) :
  0 < b ->
  let q := a / b in
  let r := a mod b in
  (2 * r < b /\ round_half_even_div a b = q) \/
  (2 * r = b /\ round_half_even_div a b = if Z.even q then q else q + 1) \/
  (b < 2 * r /\ round_half_even_div a b = q + 1).
Proof.
  intros Hb q r. unfold round_half_even_div. fold q r.
  destruct (Z.compare_spec (2 * r) b) as [E|L|G]; auto.
Qed.

Lemma rhe_floor (a b : Z) :
  0 < b -> a / b <= round_half_even_div a b <= a / b + 1.
Proof.
  intros Hb. destruct (rhe_cases a b Hb) as [[_ ->]|[[_ ->]|[_ ->]]];
    try lia. destruct (Z.even (a / b)); lia.
Qed.

(** A quotient that is an integer is its own nearest integer. *)
Lemma rhe_exact (a b : Z) : 0 < b -> round_half_even_div (a * b) b = a.
Proof.
  intros Hb. unfold round_half_even_div.
  rewrite Z.div_mul, Z.mod_mul by lia.
  replace (2 * 0 ?= b) with Lt by (symmetry; apply Z.compare_lt_iff; lia).
  reflexivity.
Qed.

Lemma rhe_le (a b k : Z) :
  0 < b -> a <= k * b -> round_half_even_div a b <= k.
Proof.
  intros Hb H.
  pose proof (Z.div_mod a b ltac:(lia)) as Hdm.
  pose proof (Z.mod_pos_bound a b Hb) as Hr.
  destruct (rhe_cases a b Hb) as [[Hc ->]|[[Hc ->]|[Hc ->]]].
  - nia.
  - destruct (Z.even (a / b)); nia.
  - nia.
Qed.

Lemma rhe_ge (a b k : Z) :
  0 < b -> k * b <= a -> k <= round_half_even_div a b.
Proof.
  intros Hb H.
  pose proof (Z.div_mod a b ltac:(lia)) as Hdm.
  pose proof (Z.mod_pos_bound a b Hb) as Hr.
  pose proof (rhe_floor a b Hb) as [Hlo _].
  assert (k <= a / b) by (apply Z.div_le_lower_bound; lia). lia.
Qed.

(** A common factor of numerator and denominator does not matter. *)
Lemma rhe_scale (a b c : Z) :
  0 < b -> 0 < c ->
  round_half_even_div (a * c) (b * c) = round_half_even_div a b.
Proof.
  intros Hb Hc. unfold round_half_even_div.
  rewrite Z.div_mul_cancel_r by lia.
  rewrite Z.mul_mod_distr_r by lia.
  replace (2 * (a mod b * c) ?= b * c) with (2 * (a mod b) ?= b);
    [reflexivity|].
  destruct (Z.compare_spec (2 * (a mod b)) b) as [E|L|G]; symmetry.
  - apply Z.compare_eq_iff. nia.
  - apply Z.compare_lt_iff. nia.
  - apply Z.compare_gt_iff. nia.
Qed.

(** Rounding first to [k] more bits is harmless when the denominator has
    fewer than [k] bits: the finer rounding cannot reach or cross a
    midpoint of the coarser one. *)
Lemma rhe_twice (a b k : Z) :
  0 < b -> 0 < k -> b <= 2 ^ (k - 1) ->
  round_half_even_div (round_half_even_div (a * 2 ^ k) b) (2 ^ k)
  = round_half_even_div a b.
Proof.
  intros Hb Hk Hbk.
  assert (Hp : 0 < 2 ^ (k - 1)) by (apply Z.pow_pos_nonneg; lia).
  assert (Ek : 2 ^ k = 2 * 2 ^ (k - 1)).
  { rewrite <- Z.pow_succ_r by lia. f_equal. lia. }
  remember (2 ^ (k - 1)) as h eqn:Eh. clear Eh.
  pose proof (Z.div_mod a b ltac:(lia)) as Hdm.
  pose proof (Z.mod_pos_bound a b Hb) as Hr.
  remember (a / b) as q eqn:Eq. remember (a mod b) as r eqn:Er.
  (* the finer rounding, relative to [q * 2^k] *)
  set (y := round_half_even_div (a * 2 ^ k) b).
  assert (Hy : exists t, y = q * 2 ^ k + t /\
             (2 * r < b -> 0 <= t < h) /\
             (2 * r = b -> t = h) /\
             (b < 2 * r -> h < t <= 2 * h)).
  { exists (y - q * 2 ^ k). split; [lia|]. subst y. rewrite Ek.
    split; [|split]; intros Hc.
    - assert (H1 : q * (2 * h) <= round_half_even_div (a * (2 * h)) b)
        by (apply rhe_ge; nia).
      assert (H2 : round_half_even_div (a * (2 * h)) b <= q * (2 * h) + h - 1)
        by (apply rhe_le; nia).
      lia.
    - assert (E : a * (2 * h) = (q * (2 * h) + h) * b) by nia.
      rewrite E, rhe_exact by lia. lia.
    - assert (H1 : q * (2 * h) + h + 1 <= round_half_even_div (a * (2 * h)) b)
        by (apply rhe_ge; nia).
      assert (H2 : round_half_even_div (a * (2 * h)) b <= q * (2 * h) + 2 * h)
        by (apply rhe_le; nia).
      lia. }
  destruct Hy as (t & Ey & Hlt & Heq & Hgt). rewrite Ey, Ek.
  assert (Hh2 : 0 < 2 * h) by lia.
  destruct (rhe_cases a b Hb) as [[Hc ->]|[[Hc ->]|[Hc ->]]];
    rewrite <- Eq; rewrite <- Er in Hc.
  - specialize (Hlt Hc).
    assert (Ed : (q * (2 * h) + t) / (2 * h) = q)
      by (symmetry; apply (Z.div_unique _ _ _ t); lia).
    assert (Em : (q * (2 * h) + t) mod (2 * h) = t)
      by (symmetry; apply (Z.mod_unique _ _ q); lia).
    unfold round_half_even_div. rewrite Ed, Em.
    replace (2 * t ?= 2 * h) with Lt by (symmetry; apply Z.compare_lt_iff; lia).
    reflexivity.
  - specialize (Heq Hc). subst t.
    assert (Ed : (q * (2 * h) + h) / (2 * h) = q)
      by (symmetry; apply (Z.div_unique _ _ _ h); lia).
    assert (Em : (q * (2 * h) + h) mod (2 * h) = h)
      by (symmetry; apply (Z.mod_unique _ _ q); lia).
    unfold round_half_even_div. rewrite Ed, Em.
    rewrite Z.compare_refl. reflexivity.
  - specialize (Hgt Hc).
    destruct (Z.eq_dec t (2 * h)) as [->|Ht].
    + replace (q * (2 * h) + 2 * h) with ((q + 1) * (2 * h)) by lia.
      apply rhe_exact. lia.
    + assert (Ed : (q * (2 * h) + t) / (2 * h) = q)
        by (symmetry; apply (Z.div_unique _ _ _ t); lia).
      assert (Em : (q * (2 * h) + t) mod (2 * h) = t)
        by (symmetry; apply (Z.mod_unique _ _ q); lia).
      unfold round_half_even_div. rewrite Ed, Em.
      replace (2 * t ?= 2 * h) with Gt
        by (symmetry; apply Z.compare_gt_iff; lia).
      reflexivity.
Qed.

(** ** Location of a quotient between two integers *)

Lemma new_location_spec (D k : Z) :
  new_location D k
  = if k =? 0 then loc_Exact else loc_Inexact (2 * k ?= D).
Proof.
  unfold new_location. destruct (Z.even D) eqn:Ev.
  - reflexivity.
  - unfold new_location_odd. destruct (k =? 0); [reflexivity|]. f_equal.
    assert (Ho : Z.odd D = true) by (rewrite <- Z.negb_even, Ev; reflexivity).
    apply Z.odd_spec in Ho as [j Ej].
    destruct (Z.compare_spec (2 * k + 1) D) as [E|L|G]; symmetry.
    + apply Z.compare_lt_iff. lia.
    + apply Z.compare_lt_iff. lia.
    + apply Z.compare_gt_iff. lia.
Qed.

(** Rounding the integer part by the location of the remainder is rounding
    the quotient. *)
Lemma round_new_location (A D : Z) :
  0 < D ->
  round_nearest_even (A / D) (new_location D (A mod D))
  = round_half_even_div A D.
Proof.
  intros HD. rewrite new_location_spec. unfold round_half_even_div.
  destruct (A mod D =? 0) eqn:E0.
  - apply Z.eqb_eq in E0. rewrite E0. cbn [round_nearest_even].
    replace (2 * 0 ?= D) with Lt by (symmetry; apply Z.compare_lt_iff; lia).
    reflexivity.
  - cbn [round_nearest_even].
    destruct (2 * (A mod D) ?= D); reflexivity.
Qed.

Lemma loc_of_shr_record_of_loc (m : Z) (l : location) :
  loc_of_shr_record (shr_record_of_loc m l) = l.
Proof. destruct l as [|[| |]]; reflexivity. Qed.

Lemma shr_1_s (r : shr_record) :
  shr_s (shr_1 r) = shr_r r || shr_s r.
Proof. destruct r as [[|[p|p|]|[p|p|]] rb sb]; reflexivity. Qed.

(** One shift: the record of [A / D] becomes the record of [A / (2 D)]. *)
Lemma shr_1_location (r : shr_record) (A D : Z) :
  0 <= A -> 0 < D ->
  shr_m r = A / D ->
  loc_of_shr_record r = new_location D (A mod D) ->
  shr_m (shr_1 r) = A / (2 * D) /\
  loc_of_shr_record (shr_1 r) = new_location (2 * D) (A mod (2 * D)).
Proof.
  intros HA HD Hm Hl.
  assert (Hq : 0 <= A / D) by (apply Z.div_pos; lia).
  pose proof (shr_1_m r ltac:(lia)) as E1.
  pose proof (shr_1_r r ltac:(lia)) as E2.
  pose proof (shr_1_s r) as E3.
  rewrite Hm in E1, E2.
  assert (Ed : A / D / 2 = A / (2 * D))
    by (rewrite Z.div_div by lia; f_equal; lia).
  split; [rewrite E1; exact Ed|].
  pose proof (Z.div_mod A D ltac:(lia)) as Hdm.
  pose proof (Z.mod_pos_bound A D HD) as Hr.
  pose proof (Z.div_mod (A / D) 2 ltac:(lia)) as Hdm2.
  pose proof (Z.mod_pos_bound (A / D) 2 ltac:(lia)) as Hr2.
  assert (Em : A mod (2 * D) = (A / D) mod 2 * D + A mod D).
  { symmetry. apply (Z.mod_unique _ _ (A / D / 2)); [nia|]. nia. }
  assert (Es : shr_r r || shr_s r = negb (A mod D =? 0)).
  { rewrite new_location_spec in Hl.
    destruct r as [m [|] [|]]; cbn [loc_of_shr_record shr_r shr_s orb] in *;
      destruct (A mod D =? 0); try discriminate; reflexivity. }
  rewrite Es in E3.
  rewrite new_location_spec, Em.
  rewrite Zodd_mod in E2.
  destruct (shr_1 r) as [m' r' s']. cbn [shr_m shr_r shr_s] in *.
  subst r' s'. cbn [loc_of_shr_record].
  destruct (Z.eqb_spec ((A / D) mod 2) 1) as [Eo|No];
    destruct (Z.eqb_spec (A mod D) 0) as [Ek|Nk]; cbn [negb].
  - rewrite Eo, Ek.
    replace (1 * D + 0 =? 0) with false by (symmetry; apply Z.eqb_neq; lia).
    replace (2 * (1 * D + 0) ?= 2 * D) with Eq
      by (symmetry; apply Z.compare_eq_iff; lia).
    reflexivity.
  - rewrite Eo.
    replace (1 * D + A mod D =? 0) with false
      by (symmetry; apply Z.eqb_neq; lia).
    replace (2 * (1 * D + A mod D) ?= 2 * D) with Gt
      by (symmetry; apply Z.compare_gt_iff; lia).
    reflexivity.
  - assert (E0 : (A / D) mod 2 = 0) by lia. rewrite E0, Ek. reflexivity.
  - assert (E0 : (A / D) mod 2 = 0) by lia. rewrite E0.
    replace (0 * D + A mod D =? 0) with false
      by (symmetry; apply Z.eqb_neq; lia).
    replace (2 * (0 * D + A mod D) ?= 2 * D) with Lt
      by (symmetry; apply Z.compare_lt_iff; lia).
    reflexivity.
Qed.

(** [n] shifts. *)
Lemma iter_shr_1_location (n : positive) (r : shr_record) (A D : Z) :
  0 <= A -> 0 < D ->
  shr_m r = A / D ->
  loc_of_shr_record r = new_location D (A mod D) ->
  shr_m (iter_pos shr_1 n r) = A / (D * 2 ^ Zpos n) /\
  loc_of_shr_record (iter_pos shr_1 n r)
  = new_location (D * 2 ^ Zpos n) (A mod (D * 2 ^ Zpos n)).
Proof.
  intros HA. revert r D.
  induction n as [n IH|n IH|]; intros r D HD Hm Hl; cbn [iter_pos].
  - assert (Hp : 0 < 2 ^ Zpos n) by (apply pow2_pos; lia).
    destruct (shr_1_location r A D HA HD Hm Hl) as [H1 H2].
    destruct (IH _ (2 * D) ltac:(lia) H1 H2) as [H3 H4].
    destruct (IH _ (2 * D * 2 ^ Zpos n) ltac:(nia) H3 H4) as [H5 H6].
    replace (D * 2 ^ Zpos n~1) with (2 * D * 2 ^ Zpos n * 2 ^ Zpos n)
      by (rewrite pow2_xI; lia).
    split; assumption.
  - assert (Hp : 0 < 2 ^ Zpos n) by (apply pow2_pos; lia).
    destruct (IH _ D HD Hm Hl) as [H3 H4].
    destruct (IH _ (D * 2 ^ Zpos n) ltac:(nia) H3 H4) as [H5 H6].
    replace (D * 2 ^ Zpos n~0) with (D * 2 ^ Zpos n * 2 ^ Zpos n)
      by (rewrite pow2_xO; lia).
    split; assumption.
  - replace (D * 2 ^ 1) with (2 * D) by lia.
    apply shr_1_location; assumption.
Qed.

Lemma pack_finite (prec emax : Z) (s : bool) (m : positive) (e : Z) :
  e <= emax - prec ->
  pack prec emax s (Zpos m) e = S754_finite s m e.
Proof.
  intros He. cbn [pack].
  replace (e <=? emax - prec) with true by (symmetry; apply Z.leb_le; exact He).
  reflexivity.
Qed.

Section ExactRounding.

Variables prec emax : Z.
Hypothesis prec_gt_1 : 1 < prec.

(** Rounding the quotient [A / D], given by its integer part and the
    location of its remainder: the mantissa is shifted to the exponent of
    the format and is then the nearest integer, ties to even, to the exact
    quotient at that exponent. *)
Lemma binary_round_aux_quotient (s : bool) (A D e : Z) :
  0 <= A -> 0 < D ->
  let n1 := Z.max 0 (fexp prec emax (Zdigits2 (A / D) + e) - e) in
  let m2 := round_half_even_div A (D * 2 ^ n1) in
  let e1 := e + n1 in
  let n2 := Z.max 0 (fexp prec emax (Zdigits2 m2 + e1) - e1) in
  binary_round_aux prec emax s (A / D) e (new_location D (A mod D))
  = pack prec emax s (m2 / 2 ^ n2) (e1 + n2).
Proof.
  intros HA HD n1 m2 e1 n2.
  assert (Hq : 0 <= A / D) by (apply Z.div_pos; lia).
  assert (Hp1 : 0 < 2 ^ n1) by (apply pow2_pos; lia).
  unfold binary_round_aux.
  assert (E1 : exists r1,
             shr_fexp prec emax (A / D) e (new_location D (A mod D))
             = (r1, e1) /\
             round_nearest_even (shr_m r1) (loc_of_shr_record r1) = m2).
  { unfold shr_fexp, shr. subst m2 e1 n1.
    destruct (fexp prec emax (Zdigits2 (A / D) + e) - e) as [|p|p].
    - eexists. split; [rewrite Z.add_0_r; reflexivity|].
      rewrite shr_record_of_loc_m, loc_of_shr_record_of_loc.
      replace (Z.max 0 0) with 0 by lia. rewrite Z.mul_1_r.
      apply round_new_location. exact HD.
    - eexists. split; [replace (Z.max 0 (Zpos p)) with (Zpos p) by lia;
                       reflexivity|].
      replace (Z.max 0 (Zpos p)) with (Zpos p) by lia.
      destruct (iter_shr_1_location p
                  (shr_record_of_loc (A / D) (new_location D (A mod D)))
                  A D HA HD (shr_record_of_loc_m _ _)
                  (loc_of_shr_record_of_loc _ _)) as [-> ->].
      apply round_new_location. apply Z.mul_pos_pos; [lia|apply pow2_pos; lia].
    - eexists. split; [rewrite Z.add_0_r; reflexivity|].
      rewrite shr_record_of_loc_m, loc_of_shr_record_of_loc.
      replace (Z.max 0 (Zneg p)) with 0 by lia. rewrite Z.mul_1_r.
      apply round_new_location. exact HD. }
  destruct E1 as (r1 & -> & ->).
  assert (Hm2 : 0 <= m2).
  { subst m2. apply (rhe_ge _ _ 0); [nia | lia]. }
  pose proof (shr_fexp_spec prec emax m2 e1 loc_Exact Hm2) as [H3 H4].
  fold n2 in H3, H4.
  destruct (shr_fexp prec emax m2 e1 loc_Exact) as [r2 e2].
  cbn [fst snd] in H3, H4. rewrite H3, H4. reflexivity.
Qed.

(** When the rounded mantissa fits the format at that exponent, it is the
    result. *)
Lemma binary_round_aux_quotient_canonical (s : bool) (A D e : Z) :
  0 <= A -> 0 < D ->
  let n1 := Z.max 0 (fexp prec emax (Zdigits2 (A / D) + e) - e) in
  let m2 := round_half_even_div A (D * 2 ^ n1) in
  canonical prec emax m2 (e + n1) ->
  binary_round_aux prec emax s (A / D) e (new_location D (A mod D))
  = pack prec emax s m2 (e + n1).
Proof.
  intros HA HD n1 m2 Hc.
  rewrite (binary_round_aux_quotient s A D e HA HD). fold n1 m2.
  assert (En2 : Z.max 0 (fexp prec emax (Zdigits2 m2 + (e + n1)) - (e + n1))
                = 0).
  { destruct Hc as [Hc|Hc].
    - rewrite Hc. change (Zdigits2 0) with 0.
      subst n1. unfold fexp, emin. lia.
    - lia. }
  rewrite En2, Z.div_1_r, Z.add_0_r. reflexivity.
Qed.

(** Rounding an integer mantissa. *)
Lemma binary_round_aux_exact (s : bool) (m e : Z) :
  0 <= m ->
  let n1 := Z.max 0 (fexp prec emax (Zdigits2 m + e) - e) in
  let m2 := round_half_even_div m (2 ^ n1) in
  let e1 := e + n1 in
  let n2 := Z.max 0 (fexp prec emax (Zdigits2 m2 + e1) - e1) in
  binary_round_aux prec emax s m e loc_Exact
  = pack prec emax s (m2 / 2 ^ n2) (e1 + n2).
Proof.
  intros Hm n1 m2 e1 n2.
  pose proof (binary_round_aux_quotient s m 1 e Hm ltac:(lia)) as H.
  rewrite Z.div_1_r, Z.mod_1_r in H. cbn zeta in H.
  rewrite Z.mul_1_l in H. exact H.
Qed.

(** The quotient of two positive normal floats, away from underflow and
    overflow: the mantissa is the nearest integer, ties to even, to the
    quotient of the mantissas scaled by [2^prec], or by [2^(prec-1)] when
    the dividend has the larger mantissa. *)
Lemma div_exact (mx my : positive) (ex ey : Z) :
  Zdigits2 (Zpos mx) = prec -> Zdigits2 (Zpos my) = prec ->
  3 - emax - prec <= ex - ey - prec -> ex - ey + 1 <= emax ->
  let c := if Zpos mx <? Zpos my then 0 else 1 in
  let m3 := round_half_even_div (Zpos mx * 2 ^ prec) (Zpos my * 2 ^ c) in
  2 ^ (prec - 1) <= m3 < 2 ^ prec /\
  SFdiv prec emax (S754_finite false mx ex) (S754_finite false my ey)
  = pack prec emax false m3 (ex - ey - prec + c).
Proof.
  intros Hdx Hdy Hlo Hhi c m3.
  pose proof (Zdigits2_bounds (Zpos mx) ltac:(lia)) as Hbx.
  pose proof (Zdigits2_bounds (Zpos my) ltac:(lia)) as Hby.
  rewrite Hdx in Hbx. rewrite Hdy in Hby.
  pose proof (pow2_pos (prec - 1) ltac:(lia)) as Hpp.
  assert (Epp : 2 ^ prec = 2 * 2 ^ (prec - 1)) by (apply pow2_pred; lia).
  set (A := Zpos mx * 2 ^ prec) in *.
  assert (HA : 0 <= A) by (subst A; nia).
  assert (Ecore : SFdiv_core_binary prec emax (Zpos mx) ex (Zpos my) ey
                  = (A / Zpos my, ex - ey - prec,
                     new_location (Zpos my) (A mod Zpos my))).
  { unfold SFdiv_core_binary. rewrite Hdx, Hdy.
    replace (Z.min (fexp prec emax (prec + ex - (prec + ey))) (ex - ey))
      with (ex - ey - prec) by (unfold fexp, emin; lia).
    replace (ex - ey - (ex - ey - prec)) with prec by lia.
    assert (Em : match prec with
                 | Z0 => Zpos mx
                 | Zpos _ => Z.shiftl (Zpos mx) prec
                 | Zneg _ => 0
                 end = A).
    { subst A. destruct prec as [|pp|pp] eqn:Ep; try lia.
      apply Z.shiftl_mul_pow2. lia. }
    cbv zeta. rewrite Em. unfold Z.div, Z.modulo.
    destruct (Z.div_eucl A (Zpos my)) as [q r]. reflexivity. }
  assert (Hm3 : 2 ^ (prec - 1) <= m3 < 2 ^ prec).
  { subst m3 c A. destruct (Z.ltb_spec (Zpos mx) (Zpos my)) as [Hlt|Hge].
    - rewrite Z.mul_1_r. split.
      + apply rhe_ge; [lia|]. nia.
      + assert (round_half_even_div (Zpos mx * 2 ^ prec) (Zpos my)
                <= 2 ^ prec - 1); [|lia].
        apply rhe_le; [lia|]. nia.
    - change (2 ^ 1) with 2. split.
      + apply rhe_ge; [lia|]. nia.
      + assert (round_half_even_div (Zpos mx * 2 ^ prec) (Zpos my * 2)
                <= 2 ^ prec - 1); [|lia].
        apply rhe_le; [lia|]. nia. }
  split; [exact Hm3|].
  unfold SFdiv. rewrite Ecore. cbn [xorb].
  assert (Hq : 2 ^ (prec - 1) <= A / Zpos my < 2 ^ (prec + 1)).
  { replace (prec + 1) with (Z.succ prec) by lia. rewrite Z.pow_succ_r by lia.
    split.
    - apply Z.div_le_lower_bound; [lia|]. subst A. nia.
    - apply Z.div_lt_upper_bound; [lia|]. subst A. nia. }
  assert (Hdq : Zdigits2 (A / Zpos my) = prec + c).
  { subst c. destruct (Z.ltb_spec (Zpos mx) (Zpos my)) as [Hlt|Hge].
    - rewrite Z.add_0_r. apply Zdigits2_unique; [|lia]. split; [lia|].
      apply Z.div_lt_upper_bound; [lia|]. subst A. nia.
    - apply Zdigits2_unique; [|lia]. replace (prec + 1 - 1) with prec by lia.
      split; [|lia]. apply Z.div_le_lower_bound; [lia|]. subst A. nia. }
  assert (Hc01 : c = 0 \/ c = 1)
    by (subst c; destruct (Zpos mx <? Zpos my); auto).
  assert (En1 : Z.max 0 (fexp prec emax
                           (Zdigits2 (A / Zpos my) + (ex - ey - prec))
                         - (ex - ey - prec)) = c).
  { rewrite Hdq. unfold fexp, emin. lia. }
  pose proof (binary_round_aux_quotient_canonical false A (Zpos my)
                (ex - ey - prec) HA ltac:(lia)) as H.
  cbn zeta in H. rewrite En1 in H. fold m3 in H.
  apply H. right.
  rewrite (Zdigits2_unique m3 prec Hm3 ltac:(lia)).
  unfold fexp, emin. lia.
Qed.

(** Rounding a mantissa of at most [prec] digits to the format only
    aligns it. *)
Lemma binary_round_widen (s : bool) (m : positive) (e : Z) :
  Zdigits2 (Zpos m) <= prec ->
  3 - emax - prec <= Zdigits2 (Zpos m) + e - prec ->
  binary_round prec emax s m e
  = pack prec emax s (Zpos m * 2 ^ (prec - Zdigits2 (Zpos m)))
      (Zdigits2 (Zpos m) + e - prec).
Proof.
  intros Hd Hlo.
  destruct (binary_round_unfold prec emax s m e)
    as (mz & ez & -> & Hez & Hmz & Hdz & Hpre).
  pose proof (Zdigits2_pos (Zpos m) ltac:(lia)) as Hdp.
  assert (Eez : ez = Zdigits2 (Zpos m) + e - prec)
    by (rewrite Hez; unfold fexp, emin; lia).
  rewrite (binary_round_aux_exact s (Zpos mz) ez ltac:(lia)).
  assert (En1 : Z.max 0 (fexp prec emax (Zdigits2 (Zpos mz) + ez) - ez) = 0)
    by (rewrite Hdz; unfold fexp, emin; lia).
  rewrite En1. change (2 ^ 0) with 1.
  replace (round_half_even_div (Zpos mz) 1) with (Zpos mz)
    by (symmetry; rewrite <- (Z.mul_1_r (Zpos mz)) at 1; apply rhe_exact; lia).
  rewrite Z.add_0_r, En1, Z.div_1_r, Z.add_0_r.
  rewrite Hmz, Eez.
  replace (e - (Zdigits2 (Zpos m) + e - prec))
    with (prec - Zdigits2 (Zpos m)) by lia.
  reflexivity.
Qed.

(** Rounding a mantissa of at least [prec] digits shifts it right and
    rounds to nearest, ties to even. *)
Lemma binary_round_narrow (s : bool) (m : positive) (e : Z) :
  prec <= Zdigits2 (Zpos m) ->
  3 - emax - prec <= Zdigits2 (Zpos m) + e - prec ->
  let n := Zdigits2 (Zpos m) - prec in
  let m2 := round_half_even_div (Zpos m) (2 ^ n) in
  canonical prec emax m2 (e + n) ->
  binary_round prec emax s m e = pack prec emax s m2 (e + n).
Proof.
  intros Hd Hlo n m2 Hc.
  destruct (binary_round_unfold prec emax s m e)
    as (mz & ez & -> & Hez & Hmz & Hdz & Hpre).
  assert (Eez : ez = e) by (rewrite Hez; unfold fexp, emin; lia).
  rewrite Eez, Z.sub_diag, Z.mul_1_r in Hmz. rewrite Hmz, Eez.
  pose proof (binary_round_aux_quotient_canonical s (Zpos m) 1 e
                ltac:(lia) ltac:(lia)) as H.
  rewrite Z.div_1_r, Z.mod_1_r in H. cbn zeta in H.
  assert (En1 : Z.max 0 (fexp prec emax (Zdigits2 (Zpos m) + e) - e) = n)
    by (subst n; unfold fexp, emin; lia).
  rewrite En1, Z.mul_1_l in H. apply H. exact Hc.
Qed.

(** Rounding [m * 2^e] to the format: the mantissa at the exponent [e1] of
    the format is the nearest integer, ties to even, to [m * 2^(e - e1)];
    a carry out of the rounding moves to the next exponent. *)
Lemma binary_round_rhe (s : bool) (m : positive) (e : Z) :
  let e1 := fexp prec emax (Zdigits2 (Zpos m) + e) in
  let ez := Z.min e e1 in
  let m2 := round_half_even_div (Zpos m * 2 ^ (e - ez)) (2 ^ (e1 - ez)) in
  let n2 := Z.max 0 (fexp prec emax (Zdigits2 m2 + e1) - e1) in
  binary_round prec emax s m e = pack prec emax s (m2 / 2 ^ n2) (e1 + n2).
Proof.
  intros e1 ez m2 n2.
  destruct (binary_round_unfold prec emax s m e)
    as (mz & ez' & -> & Hez & Hmz & Hdz & Hpre).
  fold e1 in Hez. fold ez in Hez. subst ez'.
  rewrite (binary_round_aux_exact s (Zpos mz) ez ltac:(lia)).
  assert (En1 : Z.max 0 (fexp prec emax (Zdigits2 (Zpos mz) + ez) - ez)
                = e1 - ez) by (rewrite Hdz; fold e1; lia).
  rewrite En1, Hmz. fold m2.
  replace (ez + (e1 - ez)) with e1 by lia. reflexivity.
Qed.

(** Division by one is exact. *)
Lemma div_one (mx : positive) (ex : Z) :
  Zdigits2 (Zpos mx) = prec ->
  3 - emax - prec < ex <= emax - prec ->
  SFdiv prec emax (S754_finite false mx ex)
    (S754_finite false (Z.to_pos (2 ^ (prec - 1))) (1 - prec))
  = S754_finite false mx ex.
Proof.
  intros Hdx Hex.
  pose proof (pow2_pos (prec - 1) ltac:(lia)) as Hpp.
  assert (Epp : 2 ^ prec = 2 * 2 ^ (prec - 1)) by (apply pow2_pred; lia).
  pose proof (Zdigits2_bounds (Zpos mx) ltac:(lia)) as Hbx. rewrite Hdx in Hbx.
  assert (Eone : Zpos (Z.to_pos (2 ^ (prec - 1))) = 2 ^ (prec - 1))
    by (apply Z2Pos.id; lia).
  assert (Hdone : Zdigits2 (Zpos (Z.to_pos (2 ^ (prec - 1)))) = prec)
    by (rewrite Eone, Zdigits2_pow2 by lia; lia).
  destruct (div_exact mx (Z.to_pos (2 ^ (prec - 1))) ex (1 - prec) Hdx Hdone
              ltac:(lia) ltac:(lia)) as [_ E].
  cbv zeta in E. rewrite E, Eone.
  replace (Zpos mx <? 2 ^ (prec - 1)) with false
    by (symmetry; apply Z.ltb_ge; lia).
  change (2 ^ 1) with 2.
  replace (2 ^ (prec - 1) * 2) with (2 ^ prec) by lia.
  rewrite rhe_exact by lia.
  replace (ex - (1 - prec) - prec + 1) with ex by lia.
  apply pack_finite. lia.
Qed.

End ExactRounding.

(** * Division in [double] and in [float] *)

(** Promotion of a normal [float] is exact: the mantissa gets 29 more
    bits. *)
Lemma double_of_float_exact (m : positive) (e : Z) :
  Zdigits2 (Zpos m) = 24 -> -149 <= e <= 104 ->
  double_of_float (S754_finite false m e)
  = S754_finite false (m * 536870912) (e - 29).
Proof.
  intros Hd He. cbn [double_of_float].
  rewrite (binary_round_widen F64.prec F64.emax prec64_gt_1)
    by (rewrite Hd; unfold F64.prec, F64.emax; lia).
  rewrite Hd. change (2 ^ (F64.prec - 24)) with 536870912.
  change (Zpos m * 536870912) with (Zpos (m * 536870912)).
  rewrite pack_finite by (unfold F64.prec, F64.emax; lia).
  replace (24 + e - F64.prec) with (e - 29) by (unfold F64.prec; lia).
  reflexivity.
Qed.

(** Conversion of a normal [double] to [float] rounds the mantissa to 24
    bits, to nearest, ties to even. *)
Lemma float_of_double_exact (m : positive) (e : Z) :
  Zdigits2 (Zpos m) = 53 -> -149 <= e + 29 <= 104 ->
  round_half_even_div (Zpos m) (2 ^ 29) < 2 ^ 24 ->
  float_of_double (S754_finite false m e)
  = pack F32.prec F32.emax false (round_half_even_div (Zpos m) (2 ^ 29))
      (e + 29).
Proof.
  intros Hd He Hlt. cbn [float_of_double].
  pose proof (binary_round_narrow F32.prec F32.emax prec32_gt_1 false m e)
    as H.
  rewrite Hd in H. change (53 - F32.prec) with 29 in H.
  apply H; try (unfold F32.prec, F32.emax; lia).
  right.
  pose proof (Zdigits2_bounds (Zpos m) ltac:(lia)) as Hb. rewrite Hd in Hb.
  assert (Hlo : 2 ^ 23 <= round_half_even_div (Zpos m) (2 ^ 29)).
  { apply rhe_ge; [lia|]. change (53 - 1) with 52 in Hb. lia. }
  rewrite (Zdigits2_unique _ 24) by (change (24 - 1) with 23; lia).
  rewrite fexp32. lia.
Qed.

(** Dividing two normal [float]s in [double] and converting the quotient
    back gives the quotient computed in [float]: the 53-bit quotient of
    two 24-bit mantissas cannot sit on, or be rounded across, a midpoint
    between two [float]s. *)
Lemma div_via_double (lo1 hi1 lo2 hi2 : Z) (x y : float32) :
  normal_in 24 lo1 hi1 x -> normal_in 24 lo2 hi2 y ->
  -149 <= lo1 - hi2 - 24 -> hi1 - lo2 - 23 <= 104 ->
  -149 <= lo1 -> hi1 <= 104 -> -149 <= lo2 -> hi2 <= 104 ->
  float_of_double (F64.div (double_of_float x) (double_of_float y))
  = F32.div x y.
Proof.
  intros (mx & ex & -> & Hdx & Hex) (my & ey & -> & Hdy & Hey)
    Hlo Hhi Hlo1 Hhi1 Hlo2 Hhi2.
  rewrite !double_of_float_exact by (assumption || lia).
  pose proof (Zdigits2_bounds (Zpos mx) ltac:(lia)) as Hbx.
  pose proof (Zdigits2_bounds (Zpos my) ltac:(lia)) as Hby.
  rewrite Hdx in Hbx. rewrite Hdy in Hby.
  change (2 ^ (24 - 1)) with 8388608 in *. change (2 ^ 24) with 16777216 in *.
  (* the quotient in [float] *)
  destruct (div_exact F32.prec F32.emax prec32_gt_1 mx my ex ey Hdx Hdy
              ltac:(unfold F32.prec, F32.emax; lia)
              ltac:(unfold F32.prec, F32.emax; lia)) as [Hm3 E32].
  cbv zeta in Hm3, E32. unfold F32.div. rewrite E32. clear E32.
  (* the quotient in [double] *)
  assert (Hdx' : Zdigits2 (Zpos (mx * 536870912)) = F64.prec).
  { change (Zpos (mx * 536870912)) with (Zpos mx * 2 ^ 29).
    rewrite Zdigits2_mul_pow2, Hdx by lia. reflexivity. }
  assert (Hdy' : Zdigits2 (Zpos (my * 536870912)) = F64.prec).
  { change (Zpos (my * 536870912)) with (Zpos my * 2 ^ 29).
    rewrite Zdigits2_mul_pow2, Hdy by lia. reflexivity. }
  destruct (div_exact F64.prec F64.emax prec64_gt_1
              (mx * 536870912) (my * 536870912) (ex - 29) (ey - 29)
              Hdx' Hdy'
              ltac:(unfold F64.prec, F64.emax; lia)
              ltac:(unfold F64.prec, F64.emax; lia)) as [Hm64 E64].
  cbv zeta in Hm64, E64. unfold F64.div. rewrite E64. clear E64.
  assert (Ec : (Zpos (mx * 536870912) <? Zpos (my * 536870912))
               = (Zpos mx <? Zpos my)).
  { change (Zpos (mx * 536870912)) with (Zpos mx * 536870912).
    change (Zpos (my * 536870912)) with (Zpos my * 536870912).
    destruct (Z.ltb_spec (Zpos mx) (Zpos my));
      [apply Z.ltb_lt | apply Z.ltb_ge]; lia. }
  rewrite Ec in *.
  set (c := if Zpos mx <? Zpos my then 0 else 1) in *.
  assert (Hc01 : c = 0 \/ c = 1)
    by (subst c; destruct (Zpos mx <? Zpos my); auto).
  assert (Hpc : 0 < 2 ^ c) by (apply pow2_pos; lia).
  assert (Hpc2 : 2 ^ c <= 2) by (destruct Hc01 as [-> | ->]; cbn; lia).
  (* the 53-bit mantissa, as a quotient of the 24-bit mantissas *)
  assert (EM : round_half_even_div (Zpos (mx * 536870912) * 2 ^ F64.prec)
                 (Zpos (my * 536870912) * 2 ^ c)
               = round_half_even_div (Zpos mx * 2 ^ F32.prec * 2 ^ 29)
                   (Zpos my * 2 ^ c)).
  { change (Zpos (mx * 536870912)) with (Zpos mx * 2 ^ 29).
    change (Zpos (my * 536870912)) with (Zpos my * 2 ^ 29).
    replace (Zpos mx * 2 ^ 29 * 2 ^ F64.prec)
      with (Zpos mx * 2 ^ F32.prec * 2 ^ 29 * 2 ^ 29)
      by (unfold F32.prec, F64.prec; lia).
    replace (Zpos my * 2 ^ 29 * 2 ^ c) with (Zpos my * 2 ^ c * 2 ^ 29) by lia.
    apply rhe_scale; lia. }
  rewrite EM in *.
  set (M := round_half_even_div (Zpos mx * 2 ^ F32.prec * 2 ^ 29)
              (Zpos my * 2 ^ c)) in *.
  assert (Etwice : round_half_even_div M (2 ^ 29)
                   = round_half_even_div (Zpos mx * 2 ^ F32.prec)
                       (Zpos my * 2 ^ c)).
  { subst M. apply rhe_twice; [lia | lia |].
    change (2 ^ (29 - 1)) with 268435456. nia. }
  destruct M as [|pM|pM] eqn:EpM;
    try (exfalso; pose proof (pow2_pos (F64.prec - 1)
                                ltac:(unfold F64.prec; lia)); lia).
  rewrite pack_finite by (unfold F64.prec, F64.emax; lia).
  assert (HdM : Zdigits2 (Zpos pM) = 53)
    by (apply Zdigits2_unique; [exact Hm64 | lia]).
  rewrite float_of_double_exact.
  - rewrite Etwice.
    replace (ex - 29 - (ey - 29) - F64.prec + c + 29)
      with (ex - ey - F32.prec + c) by (unfold F32.prec, F64.prec; lia).
    reflexivity.
  - exact HdM.
  - unfold F64.prec. lia.
  - rewrite Etwice. exact (proj2 Hm3).
Qed.

(** * Further properties of the sketches *)

(** ** The pulse counter *)

Lemma wrap_small (n : Z) : ULong.in_range n -> ULong.wrap n = n.
Proof. intros H. apply Z.mod_small. exact H. Qed.

Lemma wrap_add_wrap (a b : Z) :
  ULong.wrap (ULong.wrap a + b) = ULong.wrap (a + b).
Proof. unfold ULong.wrap. apply Zplus_mod_idemp_l. Qed.

(** X1: the interrupt handler counts modulo [2^32]: [n] pulse interrupts on a
    counter that is not drained in between leave it at the old count plus
    [n], reduced modulo [2^32], and touch no other global.  Below [2^32] the
    count is exact; every [2^32] pulses the counter is back where it was. *)
Theorem pulseCounter_counts_modulo (n : nat) (st : state)
    (Hpc : ULong.in_range (pulseCount st)) :
  let st' := Nat.iter n pulseCounter st in
  pulseCount st' = ULong.wrap (pulseCount st + Z.of_nat n) /\
  (pulseCount st + Z.of_nat n < ULong.modulus ->
   pulseCount st' = pulseCount st + Z.of_nat n) /\
  (forall k, Z.of_nat n = k * ULong.modulus ->
             pulseCount st' = pulseCount st) /\
  lastTime st' = lastTime st /\
  flowRate st' = flowRate st /\
  totalVolume st' = totalVolume st /\
  calibrationFactor st' = calibrationFactor st /\
  deviceConnected st' = deviceConnected st.
Proof.
  intros st'.
  assert (H : pulseCount st' = ULong.wrap (pulseCount st + Z.of_nat n) /\
              lastTime st' = lastTime st /\
              flowRate st' = flowRate st /\
              totalVolume st' = totalVolume st /\
              calibrationFactor st' = calibrationFactor st /\
              deviceConnected st' = deviceConnected st).
  { subst st'. induction n as [|n IH].
    - change (Nat.iter 0 pulseCounter st) with st.
      change (Z.of_nat 0) with 0. rewrite Z.add_0_r, (wrap_small _ Hpc).
      repeat split; reflexivity.
    - change (Nat.iter (S n) pulseCounter st)
        with (pulseCounter (Nat.iter n pulseCounter st)).
      destruct IH as (H1 & H2 & H3 & H4 & H5 & H6).
      cbn [pulseCounter pulseCount lastTime flowRate totalVolume
           calibrationFactor deviceConnected].
      rewrite H1. unfold ULong.succ. rewrite wrap_add_wrap.
      split; [f_equal; lia|]. repeat split; assumption. }
  destruct H as (H1 & H2). split; [exact H1|].
  split; [|split; [|exact H2]].
  - intros Hlt. rewrite H1. apply wrap_small.
    unfold ULong.in_range in *. lia.
  - intros k Hk. rewrite H1, Hk. unfold ULong.wrap.
    rewrite Z.mod_add by (unfold ULong.modulus; lia).
    apply Z.mod_small. exact Hpc.
Qed.

Lemma pulseCounter_counts_modulo_witness :
  ULong.in_range (pulseCount (setup 0 initial_state)) /\
  pulseCount (Nat.iter 3 pulseCounter (setup 0 initial_state)) = 3.
Proof.
  assert (H : ULong.in_range (pulseCount (setup 0 initial_state)))
    by (unfold ULong.in_range, ULong.modulus; cbn; lia).
  split; [exact H|].
  destruct (pulseCounter_counts_modulo 3 (setup 0 initial_state) H) as (E & _).
  rewrite E. reflexivity.
Defined.

(** ** Conservation of pulses *)

Lemma drained_run (op : operation) (st : state) :
  ULong.in_range (pulseCount st) ->
  ULong.in_range (pulseCount (run op st)) /\
  (is_pulse op = true /\ drained op st = 0 /\
   pulseCount (run op st) = ULong.wrap (pulseCount st + 1) \/
   is_pulse op = false /\ 0 <= drained op st /\
   drained op st + pulseCount (run op st) = pulseCount st).
Proof.
  intros Hpc.
  assert (H0 : ULong.in_range 0) by (unfold ULong.in_range, ULong.modulus; lia).
  pose proof (proj1 Hpc) as Hge.
  destruct op as [now| |t|t|t| | | |factor]; cbn [run drained is_pulse].
  - split; [exact Hpc|]. right. split; [reflexivity|]. cbn. lia.
  - split; [apply wrap_in_range|]. left. repeat split.
  - unfold loop. destruct (loop_sample t st) as [s|] eqn:E.
    + unfold loop_sample in E.
      destruct (CALC_INTERVAL <=? ULong.sub t (lastTime st)); [|discriminate].
      injection E as <-. cbn. split; [exact H0|]. right.
      split; [reflexivity | lia].
    + split; [exact Hpc|]. right. split; [reflexivity | lia].
  - unfold Serial.loop.
    destruct (Serial.CALC_INTERVAL <=? ULong.sub t (lastTime st)).
    + cbn. split; [exact H0|]. right. split; [reflexivity | lia].
    + split; [exact Hpc|]. right. split; [reflexivity | lia].
  - unfold Serial.loop_hz.
    destruct (Serial.CALC_INTERVAL <=? ULong.sub t (lastTime st)).
    + cbn. split; [exact H0|]. right. split; [reflexivity | lia].
    + split; [exact Hpc|]. right. split; [reflexivity | lia].
  - split; [exact Hpc|]. right. split; [reflexivity|]. cbn. lia.
  - split; [exact Hpc|]. right. split; [reflexivity|]. cbn. lia.
  - split; [exact Hpc|]. right. split; [reflexivity|]. cbn. lia.
  - split; [exact Hpc|]. right. split; [reflexivity|]. cbn. lia.
Qed.

Lemma interrupts_cons (op : operation) (ops : list operation) :
  interrupts (op :: ops)
  = (if is_pulse op then 1 else 0) + interrupts ops.
Proof.
  unfold interrupts. cbn [filter].
  destruct (is_pulse op); cbn [List.length]; lia.
Qed.

Lemma interrupts_nonneg (ops : list operation) : 0 <= interrupts ops.
Proof. unfold interrupts. lia. Qed.

(** X2: no pulse is lost or counted twice between the interrupt handler and the
    interval computations: along any history of operations of the
    sketches, the pulses handed to the computations plus the pulses still
    in the counter are the initial count plus the number of interrupts, as
    long as that sum fits in an [unsigned long]; in general they agree
    modulo [2^32]. *)
Theorem pulses_conserved (ops : list operation) (st : state)
    (Hpc : ULong.in_range (pulseCount st)) :
  ULong.wrap (drained_all ops st + pulseCount (run_all ops st))
    = ULong.wrap (pulseCount st + interrupts ops) /\
  (pulseCount st + interrupts ops < ULong.modulus ->
   drained_all ops st + pulseCount (run_all ops st)
     = pulseCount st + interrupts ops).
Proof.
  revert st Hpc. induction ops as [|op ops IH]; intros st Hpc.
  - cbn [drained_all run_all fold_left]. unfold interrupts. cbn.
    rewrite Z.add_0_r. split; [reflexivity | intros _; reflexivity].
  - cbn [drained_all]. change (run_all (op :: ops) st)
      with (run_all ops (run op st)).
    rewrite interrupts_cons.
    pose proof (interrupts_nonneg ops) as Hn.
    destruct (drained_run op st Hpc) as [Hpc' Hcase].
    destruct (IH (run op st) Hpc') as [IH1 IH2].
    destruct Hcase as [(-> & Ed & Ep)|(-> & Hd & Ed)].
    + rewrite Ed, Z.add_0_l, Ep in *. split.
      * rewrite IH1, wrap_add_wrap. f_equal. lia.
      * intros Hlt. rewrite (wrap_small (pulseCount st + 1)) in IH2
          by (unfold ULong.in_range in *; lia).
        rewrite IH2; lia.
    + split.
      * rewrite <- Z.add_assoc, Z.add_comm, <- wrap_add_wrap, IH1,
          wrap_add_wrap. f_equal. lia.
      * intros Hlt. unfold ULong.in_range in *.
        rewrite <- Z.add_assoc, IH2; lia.
Qed.

Lemma pulses_conserved_witness :
  let ops := [OpSetup 0; OpPulse; OpPulse; OpLoop 100; OpPulse] in
  ULong.in_range (pulseCount initial_state) /\
  drained_all ops initial_state + pulseCount (run_all ops initial_state) = 3.
Proof.
  intros ops.
  assert (H : ULong.in_range (pulseCount initial_state))
    by (unfold ULong.in_range, ULong.modulus; cbn; lia).
  split; [exact H|].
  destruct (pulses_conserved ops initial_state H) as [_ E].
  rewrite E; [reflexivity | vm_compute; reflexivity].
Defined.

(** ** The interval test and the overflow of [millis()] *)

Lemma sub_wrap_add (last d : Z) :
  0 <= d < ULong.modulus -> ULong.sub (ULong.wrap (last + d)) last = d.
Proof.
  intros Hd. unfold ULong.sub, ULong.wrap.
  rewrite Zminus_mod_idemp_l.
  replace (last + d - last) with d by lia.
  apply Z.mod_small. exact Hd.
Qed.

(** X3: the elapsed time survives the overflow of [millis()]: when the true
    time since [lastTime] is [d] milliseconds, [d < 2^32], and the clock
    reads [lastTime + d] reduced modulo [2^32], the unsigned subtraction
    gives [d] back.  So [loop] computes exactly when [d >= 100] (the
    serial sketch when [d >= 1000]), and on the elapsed time [d / 1000]
    seconds. *)
Theorem loop_millis_overflow (st : state) (d : Z)
    (Hd : 0 <= d < ULong.modulus) :
  let currentTime := ULong.wrap (lastTime st + d) in
  ULong.sub currentTime (lastTime st) = d /\
  loop_sample currentTime st
    = (if CALC_INTERVAL <=? d
       then Some (calc st (pulseCount st) (F32.div (F32.of_Z d) f1000))
       else None) /\
  loop currentTime st
    = (if CALC_INTERVAL <=? d
       then step st currentTime (pulseCount st) (F32.div (F32.of_Z d) f1000)
       else st) /\
  Serial.loop currentTime st
    = (if Serial.CALC_INTERVAL <=? d
       then Serial.update st currentTime
              (float_of_double
                 (F64.div (F64.of_Z (pulseCount st))
                    (F64.div (F64.of_Z d) d1000)))
       else st) /\
  Serial.loop_hz currentTime st
    = (if Serial.CALC_INTERVAL <=? d
       then Serial.update st currentTime
              (Serial.frequency_of (pulseCount st)
                 (float_of_double (F64.div (F64.of_Z d) d1000)))
       else st).
Proof.
  intros currentTime.
  pose proof (sub_wrap_add (lastTime st) d Hd) as E. fold currentTime in E.
  split; [exact E|].
  unfold loop, loop_sample, Serial.loop, Serial.loop_hz, elapsedSeconds_of,
    Serial.frequency_double, Serial.elapsedSeconds_of, Serial.elapsed, step.
  rewrite E.
  split; [reflexivity|]. split; [|split; reflexivity].
  destruct (CALC_INTERVAL <=? d); reflexivity.
Qed.

Lemma loop_millis_overflow_witness :
  let st := setup 4294967266 initial_state in
  0 <= 130 < ULong.modulus /\
  ULong.wrap (lastTime st + 130) = 100 /\
  loop_sample 100 st = Some (calc st 0 (F32.of_ratio 130 1000)).
Proof.
  intros st.
  assert (H : 0 <= 130 < ULong.modulus) by (unfold ULong.modulus; lia).
  split; [exact H|]. split; [reflexivity|].
  destruct (loop_millis_overflow st 130 H) as (_ & E & _).
  exact E.
Defined.

(** ** Passes of [loop] that follow a computation *)

Lemma sub_diag (t : Z) : ULong.sub t t = 0.
Proof. unfold ULong.sub. rewrite Z.sub_diag. reflexivity. Qed.

(** X4: [loop] is idempotent at a given clock value, in each of the three
    sketches: a second pass at the same [millis()] changes nothing, so the
    pulses of an interval are accumulated once. *)
Theorem loop_idempotent (st : state) (currentTime : Z) :
  loop currentTime (loop currentTime st) = loop currentTime st /\
  Serial.loop currentTime (Serial.loop currentTime st)
    = Serial.loop currentTime st /\
  Serial.loop_hz currentTime (Serial.loop_hz currentTime st)
    = Serial.loop_hz currentTime st.
Proof.
  split; [|split].
  - unfold loop at 2 3, loop_sample.
    destruct (CALC_INTERVAL <=? ULong.sub currentTime (lastTime st)) eqn:E.
    + unfold loop, loop_sample. cbn [commit lastTime].
      rewrite sub_diag. reflexivity.
    + unfold loop, loop_sample. rewrite E. reflexivity.
  - unfold Serial.loop at 2 3.
    destruct (Serial.CALC_INTERVAL <=? ULong.sub currentTime (lastTime st))
      eqn:E.
    + unfold Serial.loop. cbn [Serial.update lastTime].
      rewrite sub_diag. reflexivity.
    + unfold Serial.loop. rewrite E. reflexivity.
  - unfold Serial.loop_hz at 2 3.
    destruct (Serial.CALC_INTERVAL <=? ULong.sub currentTime (lastTime st))
      eqn:E.
    + unfold Serial.loop_hz. cbn [Serial.update lastTime].
      rewrite sub_diag. reflexivity.
    + unfold Serial.loop_hz. rewrite E. reflexivity.
Qed.

(** X5: after a pass of [loop] that computed at clock value [t], no pass
    computes or notifies before the clock is 100 ms past [t]: the
    globals stay as the computation left them. *)
Theorem loop_rate_limited (st : state) (t t' : Z)
    (Hdue : CALC_INTERVAL <= ULong.sub t (lastTime st))
    (Hsoon : ULong.sub t' t < CALC_INTERVAL) :
  lastTime (loop t st) = t /\
  pulseCount (loop t st) = 0 /\
  loop_sample t' (loop t st) = None /\
  loop_notification t' (loop t st) = None /\
  loop t' (loop t st) = loop t st.
Proof.
  assert (E : loop t st
              = commit st t (calc st (pulseCount st)
                               (elapsedSeconds_of t (lastTime st)))).
  { unfold loop, loop_sample.
    replace (CALC_INTERVAL <=? ULong.sub t (lastTime st)) with true
      by (symmetry; apply Z.leb_le; exact Hdue).
    reflexivity. }
  rewrite E.
  assert (Hs : loop_sample t'
                 (commit st t (calc st (pulseCount st)
                                 (elapsedSeconds_of t (lastTime st)))) = None).
  { unfold loop_sample. cbn [commit lastTime].
    replace (CALC_INTERVAL <=? ULong.sub t' t) with false
      by (symmetry; apply Z.leb_gt; exact Hsoon).
    reflexivity. }
  split; [reflexivity|]. split; [reflexivity|]. split; [exact Hs|].
  unfold loop_notification, loop. rewrite Hs. split; reflexivity.
Qed.

Lemma loop_rate_limited_witness :
  let st := onConnect (pulseCounter (setup 0 initial_state)) in
  CALC_INTERVAL <= ULong.sub 100 (lastTime st) /\
  ULong.sub 150 100 < CALC_INTERVAL /\
  loop 150 (loop 100 st) = loop 100 st.
Proof.
  intros st.
  assert (H1 : CALC_INTERVAL <= ULong.sub 100 (lastTime st))
    by (vm_compute; discriminate).
  assert (H2 : ULong.sub 150 100 < CALC_INTERVAL) by (vm_compute; reflexivity).
  split; [exact H1|]. split; [exact H2|].
  apply (loop_rate_limited st 100 150 H1 H2).
Defined.

(** ** Ranges in the serial sketch *)



Lemma serial_loop_due (st : state) (currentTime : Z) :
  Serial.CALC_INTERVAL <= ULong.sub currentTime (lastTime st) ->
  Serial.loop currentTime st
    = Serial.update st currentTime
        (Serial.frequency_double (pulseCount st) currentTime (lastTime st)) /\
  Serial.loop_hz currentTime st
    = Serial.update st currentTime
        (Serial.frequency_of (pulseCount st)
           (Serial.elapsedSeconds_of currentTime (lastTime st))).
Proof.
  intros H. unfold Serial.loop, Serial.loop_hz.
  replace (Serial.CALC_INTERVAL <=? ULong.sub currentTime (lastTime st))
    with true by (symmetry; apply Z.leb_le; exact H).
  split; reflexivity.
Qed.

(** ** A calibration factor of zero *)



(** ** The total after a reset *)




(** ** No NaN, no infinity in [flow_control.ino] *)

Lemma small_nonneg_finite (K : Z) (x : float32) :
  small_nonneg K x -> finite_nonneg x = true.
Proof. intros [->|(m & e & -> & _)]; reflexivity. Qed.

Lemma reachable_flowRate (st : state) :
  reachable st -> finite_nonneg (flowRate st) = true.
Proof.
  induction 1 as [|now st _ IH|st _ IH|currentTime st Hr IH|st _ IH|st _ IH];
    try exact IH; [reflexivity|].
  unfold loop. destruct (loop_sample currentTime st) as [s|] eqn:E;
    [|exact IH].
  destruct (loop_sample_ranges st currentTime s Hr E) as (_ & _ & Hq & _).
  cbn [commit flowRate]. exact (small_nonneg_finite _ _ Hq).
Qed.

(** X8: in [flow_control.ino] every measurement is a finite non-negative
    number: in every state the sketch can reach, [flowRate] and
    [totalVolume] are neither NaN, nor infinite, nor negative, and so are
    the frequency, flow rate, interval volume and total of every sample a
    pass of [loop] computes. *)
Theorem measurements_finite (st : state) (currentTime : Z)
    (Hreach : reachable st) :
  finite_nonneg (flowRate st) = true /\
  finite_nonneg (totalVolume st) = true /\
  finite_nonneg (flowRate (loop currentTime st)) = true /\
  finite_nonneg (totalVolume (loop currentTime st)) = true /\
  match loop_sample currentTime st with
  | Some s =>
      finite_nonneg (frequency s) = true /\
      finite_nonneg (sampleFlowRate s) = true /\
      finite_nonneg (volumeThisInterval_L s) = true /\
      finite_nonneg (volumeThisInterval_mL s) = true /\
      finite_nonneg (sampleTotalVolume s) = true
  | None => True
  end.
Proof.
  pose proof (reach_loop currentTime st Hreach) as Hreach'.
  destruct (reachable_inv st Hreach) as (Hpc & _ & Htot).
  destruct (reachable_inv _ Hreach') as (_ & _ & Htot').
  split; [apply reachable_flowRate; exact Hreach|].
  split; [exact (small_nonneg_finite _ _ (total_ok_small _ Htot))|].
  split; [apply reachable_flowRate; exact Hreach'|].
  split; [exact (small_nonneg_finite _ _ (total_ok_small _ Htot'))|].
  destruct (loop_sample currentTime st) as [s|] eqn:E; [|exact I].
  destruct (loop_sample_ranges st currentTime s Hreach E)
    as (_ & Hf & Hq & Hv & Ht).
  split; [exact (small_nonneg_finite _ _ Hf)|].
  split; [exact (small_nonneg_finite _ _ Hq)|].
  split; [|split; [exact (small_nonneg_finite _ _ Hv)
                  |exact (small_nonneg_finite _ _ Ht)]].
  unfold loop_sample in E.
  destruct (CALC_INTERVAL <=? ULong.sub currentTime (lastTime st));
    [|discriminate].
  injection E as <-. cbn [calc volumeThisInterval_L].
  destruct (volume_L_of_range _ Hpc) as [[_ ->]|[_ (m & e & -> & _)]];
    reflexivity.
Qed.

Lemma measurements_finite_witness :
  let st := pulseCounter (setup 0 initial_state) in
  reachable st /\
  finite_nonneg (totalVolume (loop 100 st)) = true.
Proof.
  intros st.
  assert (H : reachable st) by (apply reach_pulse, reach_setup, reach_init).
  split; [exact H|].
  destruct (measurements_finite st 100 H) as (_ & _ & _ & E & _).
  exact E.
Defined.

(** ** The BLE characteristic *)

Lemma record_char_not_nul (c : ascii) :
  record_char c = true -> Ascii.eqb c Ascii.zero = false.
Proof.
  destruct (Ascii.eqb c Ascii.zero) eqn:E; [|reflexivity].
  apply Ascii.eqb_eq in E. subst c. vm_compute. discriminate.
Qed.

Lemma until_nul_record (l : list ascii) :
  forallb record_char l = true -> until_nul l = l.
Proof.
  induction l as [|c l IH]; [reflexivity|]. cbn [forallb until_nul].
  intros H. apply andb_prop in H as [Hc Hl].
  rewrite (record_char_not_nul c Hc), (IH Hl). reflexivity.
Qed.

(** The payload of a sample of [flow_control.ino], field by field. *)
Lemma payload_fields (st : state) (currentTime : Z) (s : sample) :
  reachable st -> loop_sample currentTime st = Some s ->
  payload s
    = fmt_lu (pulses s) ++ comma ::
      fmt_f 2 (frequency s) ++ comma ::
      fmt_f 3 (sampleFlowRate s) ++ comma ::
      fmt_f 2 (volumeThisInterval_mL s) ++ comma ::
      fmt_f 4 (sampleTotalVolume s) /\
  (integer_field (fmt_lu (pulses s)) /\
   (List.length (fmt_lu (pulses s)) <= 10)%nat) /\
  (decimal_field 2 (fmt_f 2 (frequency s)) /\
   (List.length (fmt_f 2 (frequency s)) <= 15)%nat) /\
  (decimal_field 3 (fmt_f 3 (sampleFlowRate s)) /\
   (List.length (fmt_f 3 (sampleFlowRate s)) <= 16)%nat) /\
  (decimal_field 2 (fmt_f 2 (volumeThisInterval_mL s)) /\
   (List.length (fmt_f 2 (volumeThisInterval_mL s)) <= 15)%nat) /\
  (decimal_field 4 (fmt_f 4 (sampleTotalVolume s)) /\
   (List.length (fmt_f 4 (sampleTotalVolume s)) <= 22)%nat).
Proof.
  intros Hreach Hs.
  destruct (loop_sample_ranges st currentTime s Hreach Hs)
    as (Hp & Hf & Hq & Hv & Ht).
  destruct (fmt_lu_field (pulses s) ltac:(lia)) as [Hip _].
  pose proof (fmt_lu_length (pulses s) 10 Hp ltac:(lia)) as Lp.
  pose proof (fmt_f_field 2 14 12 _ Hf ltac:(lia)
                ltac:(vm_compute; discriminate) ltac:(lia)) as Df.
  pose proof (fmt_f_field 3 13 12 _ Hq ltac:(lia)
                ltac:(vm_compute; discriminate) ltac:(lia)) as Dq.
  pose proof (fmt_f_field 2 15 12 _ Hv ltac:(lia)
                ltac:(vm_compute; discriminate) ltac:(lia)) as Dv.
  pose proof (fmt_f_field 4 30 17 _ Ht ltac:(lia)
                ltac:(vm_compute; discriminate) ltac:(lia)) as Dt.
  split; [|repeat split; try apply Hip; try apply Df; try apply Dq;
           try apply Dv; try apply Dt; exact Lp].
  unfold payload, snprintf. rewrite payload_format_parsed.
  cbn [format]. rewrite app_nil_r.
  apply firstn_all2.
  repeat (rewrite length_app; cbn [List.length]).
  change (128 - 1)%nat with 127%nat.
  destruct Df as [_ Lf], Dq as [_ Lq], Dv as [_ Lv], Dt as [_ Lt]. lia.
Qed.

(** The payload has five columns of digits and points. *)
Lemma payload_columns (st : state) (currentTime : Z) (s : sample) :
  reachable st -> loop_sample currentTime st = Some s ->
  five_columns (payload s) /\ forallb record_char (payload s) = true.
Proof.
  intros Hreach Hs.
  destruct (payload_fields st currentTime s Hreach Hs)
    as (-> & [Hip _] & [Df _] & [Dq _] & [Dv _] & [Dt _]).
  split.
  - unfold five_columns.
    rewrite (split_on_field _ _ (digits_no_comma _ (proj2 Hip))).
    rewrite (split_on_field _ _ (decimal_field_no_comma _ _ Df)).
    rewrite (split_on_field _ _ (decimal_field_no_comma _ _ Dq)).
    rewrite (split_on_field _ _ (decimal_field_no_comma _ _ Dv)).
    rewrite (split_on_last _ (decimal_field_no_comma _ _ Dt)).
    reflexivity.
  - repeat (rewrite forallb_app; cbn [forallb]).
    rewrite (digits_record_chars _ (proj2 Hip)).
    rewrite (decimal_field_record_chars _ _ Df).
    rewrite (decimal_field_record_chars _ _ Dq).
    rewrite (decimal_field_record_chars _ _ Dv).
    rewrite (decimal_field_record_chars _ _ Dt).
    reflexivity.
Qed.

Lemma integer_field_length (l : list ascii) :
  integer_field l -> (1 <= List.length l)%nat.
Proof. intros [H _]. destruct l; [congruence | cbn; lia]. Qed.

Lemma decimal_field_length (N : nat) (l : list ascii) :
  decimal_field N l -> (N + 2 <= List.length l)%nat.
Proof.
  intros (ip & fp & -> & Hip & _ & HL).
  pose proof (integer_field_length ip Hip).
  rewrite length_app. cbn [List.length]. lia.
Qed.

(** X9: every payload of the running sketch is between 24 and 82 characters
    long and holds no NUL: [strlen(payload)] is its length, and the
    128-byte buffer is at most two thirds full. *)
Theorem payload_length_bounds (st : state) (currentTime : Z) (s : sample)
    (Hreach : reachable st)
    (Hs : loop_sample currentTime st = Some s) :
  (24 <= List.length (payload s) <= 82)%nat /\
  until_nul (payload s) = payload s.
Proof.
  destruct (payload_columns st currentTime s Hreach Hs) as [_ Hr].
  split; [|apply until_nul_record; exact Hr].
  destruct (payload_fields st currentTime s Hreach Hs)
    as (-> & [Hip Lp] & [Df Lf] & [Dq Lq] & [Dv Lv] & [Dt Lt]).
  pose proof (integer_field_length _ Hip).
  pose proof (decimal_field_length _ _ Df).
  pose proof (decimal_field_length _ _ Dq).
  pose proof (decimal_field_length _ _ Dv).
  pose proof (decimal_field_length _ _ Dt).
  repeat (rewrite length_app; cbn [List.length]). lia.
Qed.

Lemma payload_length_bounds_witness :
  let st := setup 0 initial_state in
  reachable st /\
  loop_sample 100 st = Some (calc st 0 (F32.of_ratio 1 10)) /\
  List.length (payload (calc st 0 (F32.of_ratio 1 10))) = 24%nat.
Proof.
  intros st.
  assert (Hr : reachable st) by (apply reach_setup, reach_init).
  assert (Hs : loop_sample 100 st = Some (calc st 0 (F32.of_ratio 1 10)))
    by (vm_compute; reflexivity).
  split; [exact Hr|]. split; [exact Hs|].
  destruct (payload_length_bounds st 100 _ Hr Hs) as [[Hlo _] _].
  apply Nat.le_antisymm; [vm_compute; repeat constructor | exact Hlo].
Defined.

Lemma header_columns : five_columns header.
Proof. reflexivity. Qed.

Lemma last_snoc (A : Type) (l : list A) (x d : A) : last (l ++ [x]) d = x.
Proof. apply last_last. Qed.

(** The globals of the running peripheral are states of the sketch; the
    characteristic exists and holds the header until the first
    notification, then the last notified value; every notified value is a
    whole payload of five columns. *)
Lemma running_inv (d : peripheral) :
  running d ->
  reachable (globals d) /\
  pCharacteristic d = Some (last (notified d) header) /\
  Forall (fun v => five_columns v /\ forallb record_char v = true)
    (notified d).
Proof.
  induction 1 as [now|d _ IH|currentTime d _ IH|d _ IH|d _ IH].
  - split; [apply reach_setup, reach_init|]. split; [reflexivity|constructor].
  - destruct IH as (H1 & H2 & H3). split; [apply reach_pulse; exact H1|].
    split; assumption.
  - destruct IH as (H1 & H2 & H3). unfold loop_peripheral.
    destruct (loop_sample currentTime (globals d)) as [s|] eqn:E;
      [|split; [|split]; assumption].
    assert (Hg : reachable (commit (globals d) currentTime s)).
    { pose proof (reach_loop currentTime _ H1) as Hl.
      unfold loop in Hl. rewrite E in Hl. exact Hl. }
    destruct (payload_columns _ _ _ H1 E) as [Hc Hr].
    unfold send. rewrite H2.
    destruct (deviceConnected (globals d));
      cbn [on_globals globals pCharacteristic notified].
    + split; [exact Hg|]. rewrite (until_nul_record _ Hr), last_snoc.
      split; [reflexivity|].
      apply Forall_app. split; [exact H3|].
      constructor; [split; assumption | constructor].
    + split; [exact Hg|]. split; assumption.
  - destruct IH as (H1 & H2 & H3). split; [apply reach_connect; exact H1|].
    split; assumption.
  - destruct IH as (H1 & H2 & H3). split; [apply reach_disconnect; exact H1|].
    split; assumption.
Qed.

(** X10: whatever a client reads from the characteristic of the running
    peripheral has five comma-separated columns: it is the header that
    [setupBLE] stored as long as nothing was notified, and the last
    notified record afterwards; every notified value is a whole payload
    of five columns, made of digits, points and commas. *)
Theorem characteristic_five_columns (d : peripheral) (Hrun : running d) :
  exists v,
    pCharacteristic d = Some v /\
    five_columns v /\
    v = last (notified d) header /\
    (notified d = [] -> v = header) /\
    Forall (fun r => five_columns r /\ forallb record_char r = true)
      (notified d).
Proof.
  destruct (running_inv d Hrun) as (_ & Hv & Hall).
  exists (last (notified d) header).
  split; [exact Hv|]. split; [|split; [reflexivity|split; [|exact Hall]]].
  - destruct (notified d) as [|r l] eqn:E using rev_ind;
      [exact header_columns|].
    rewrite last_snoc. apply Forall_app in Hall as [_ Hr].
    inversion Hr as [|? ? [Hc _] _]. exact Hc.
  - intros ->. reflexivity.
Qed.

Lemma characteristic_five_columns_witness :
  let d := loop_peripheral 100
             (on_globals pulseCounter
                (on_globals onConnect (setup_peripheral 0 power_on))) in
  running d /\
  pCharacteristic d = Some (list_ascii_of_string "1,10.00,2.000,2.25,0.0022").
Proof.
  intros d.
  assert (H : running d)
    by (apply running_loop, running_pulse, running_connect, running_setup).
  split; [exact H|].
  destruct (characteristic_five_columns d H) as (v & -> & _ & -> & _).
  vm_compute. reflexivity.
Defined.

(** X11: the measurement does not depend on the BLE link: a pass of [loop]
    leaves the globals as the computation alone does.  Nothing is written
    to the characteristic or notified while no client is connected, or
    before the characteristic exists; with a client connected, a pass that
    computes notifies exactly one value and leaves it in the
    characteristic. *)
Theorem notification_gated (d : peripheral) (currentTime : Z) :
  let d' := loop_peripheral currentTime d in
  globals d' = loop currentTime (globals d) /\
  (deviceConnected (globals d) = false \/ pCharacteristic d = None ->
   pCharacteristic d' = pCharacteristic d /\ notified d' = notified d) /\
  (loop_sample currentTime (globals d) = None ->
   pCharacteristic d' = pCharacteristic d /\ notified d' = notified d) /\
  (forall s v, loop_sample currentTime (globals d) = Some s ->
     deviceConnected (globals d) = true -> pCharacteristic d = Some v ->
     pCharacteristic d' = Some (until_nul (payload s)) /\
     notified d' = notified d ++ [until_nul (payload s)]).
Proof.
  intros d'. subst d'. unfold loop_peripheral, loop.
  destruct (loop_sample currentTime (globals d)) as [s|].
  - assert (Hsend :
      (deviceConnected (globals d) = true /\
       (exists v, pCharacteristic d = Some v) /\
       send s d = {| globals := globals d;
                     pCharacteristic := Some (until_nul (payload s));
                     notified := notified d ++ [until_nul (payload s)] |}) \/
      ((deviceConnected (globals d) = false \/ pCharacteristic d = None) /\
       send s d = d)).
    { unfold send.
      destruct (deviceConnected (globals d)), (pCharacteristic d) as [v|];
        [left|right|right|right]; repeat split; eauto. }
    destruct Hsend as [(Hc & [v Hv] & ->)|(Hc & ->)];
      cbn [on_globals globals pCharacteristic notified].
    + split; [reflexivity|]. split; [|split; [discriminate|]].
      * rewrite Hc, Hv. intros [H|H]; discriminate H.
      * intros s' v' [= <-] _ _. split; reflexivity.
    + split; [reflexivity|]. split; [intros _; split; reflexivity|].
      split; [discriminate|].
      intros s' v' _ Hc' Hv'. rewrite Hc', Hv' in Hc.
      destruct Hc as [H|H]; discriminate H.
  - split; [reflexivity|]. split; [intros _; split; reflexivity|].
    split; [intros _; split; reflexivity | discriminate].
Qed.

Lemma notification_gated_witness :
  let d := on_globals pulseCounter (setup_peripheral 0 power_on) in
  deviceConnected (globals d) = false /\
  notified (loop_peripheral 100 d) = [] /\
  getTotalVolume (globals (loop_peripheral 100 d)) = F32.of_ratio 225 100000.
Proof.
  intros d.
  assert (H : deviceConnected (globals d) = false) by reflexivity.
  split; [exact H|].
  destruct (notification_gated d 100) as (Eg & Hoff & _).
  destruct (Hoff (or_introl H)) as [_ En].
  split; [exact En|]. rewrite Eg. reflexivity.
Defined.

(** * The serial sketch against [flow_control.ino] *)

Lemma d1000_of_f1000 : d1000 = double_of_float f1000.
Proof. reflexivity. Qed.

Lemma mul_pulses_normal (p : Z) :
  0 < p < 2 ^ 32 ->
  normal_in 24 (-22) 12 (F32.mul (F32.of_Z p) ML_PER_PULSE).
Proof.
  intros Hp.
  pose proof (mul_normal32 _ _ _ _ _ _ (of_ulong_normal p Hp)
                ML_PER_PULSE_normal ltac:(lia) ltac:(lia)) as H.
  eapply normal32_weaken; [exact H | lia | lia].
Qed.

(** The interval volume of the serial sketch, divided in [double], is
    that of [flow_control.ino], divided in [float]. *)
Lemma serial_volume_eq (p : Z) :
  ULong.in_range p -> Serial.volumeThisSecond p = volume_L_of p.
Proof.
  intros Hp. destruct (in_range_cases p Hp) as [->|Hpos]; [reflexivity|].
  unfold Serial.volumeThisSecond, volume_L_of. rewrite d1000_of_f1000.
  apply (div_via_double _ _ _ _ _ _ (mul_pulses_normal p Hpos) f1000_normal);
    lia.
Qed.

(** X12: the interval volume of the serial sketch, divided in [double] and
    converted back, is bit for bit the interval volume of
    [flow_control.ino], divided in [float], for every pulse count; so a
    pass of [loop] that computes leaves the same running total in the
    three sketches. *)
Theorem serial_volume_agrees (st : state) (currentTime : Z)
    (Hpc : ULong.in_range (pulseCount st))
    (Hdue : Serial.CALC_INTERVAL <= ULong.sub currentTime (lastTime st)) :
  Serial.volumeThisSecond (pulseCount st) = volume_L_of (pulseCount st) /\
  getTotalVolume (Serial.loop currentTime st)
    = getTotalVolume (loop currentTime st) /\
  getTotalVolume (Serial.loop_hz currentTime st)
    = getTotalVolume (loop currentTime st).
Proof.
  pose proof (serial_volume_eq _ Hpc) as E.
  split; [exact E|].
  destruct (serial_loop_due st currentTime Hdue) as [-> ->].
  unfold getTotalVolume, loop, loop_sample.
  replace (CALC_INTERVAL <=? ULong.sub currentTime (lastTime st)) with true
    by (symmetry; apply Z.leb_le;
        unfold Serial.CALC_INTERVAL, CALC_INTERVAL in *; lia).
  cbn [Serial.update commit calc totalVolume sampleTotalVolume].
  rewrite E. split; reflexivity.
Qed.

Lemma serial_volume_agrees_witness :
  let st := run_all [OpSetup 0; OpPulse; OpPulse] initial_state in
  ULong.in_range (pulseCount st) /\
  Serial.CALC_INTERVAL <= ULong.sub 1000 (lastTime st) /\
  Serial.volumeThisSecond 2 = F32.of_ratio 45 10000 /\
  getTotalVolume (Serial.loop 1000 st) = getTotalVolume (loop 1000 st).
Proof.
  intros st.
  assert (H1 : ULong.in_range (pulseCount st))
    by (unfold ULong.in_range, ULong.modulus; vm_compute;
        split; [discriminate | reflexivity]).
  assert (H2 : Serial.CALC_INTERVAL <= ULong.sub 1000 (lastTime st))
    by (vm_compute; discriminate).
  split; [exact H1|]. split; [exact H2|].
  destruct (serial_volume_agrees st 1000 H1 H2) as (E1 & E2 & _).
  split; [|exact E2].
  change 2 with (pulseCount st). rewrite E1. reflexivity.
Defined.

(** An integer of at most 24 bits is the same number as a [float] and as a
    [double]. *)
Lemma of_Z_double_of_float (d : Z) :
  0 < d < 2 ^ 24 -> F64.of_Z d = double_of_float (F32.of_Z d).
Proof.
  intros Hd. destruct d as [|pd|pd]; try lia.
  assert (Hk : 0 < Zdigits2 (Zpos pd) <= 24).
  { split; [apply Zdigits2_pos; lia | apply Zdigits2_lt_pow2; lia]. }
  unfold F64.of_Z, F32.of_Z. cbn [binary_normalize].
  rewrite (binary_round_widen F32.prec F32.emax prec32_gt_1)
    by (unfold F32.prec, F32.emax; lia).
  rewrite (binary_round_widen F64.prec F64.emax prec64_gt_1)
    by (unfold F64.prec, F64.emax; lia).
  set (k := Zdigits2 (Zpos pd)) in *.
  assert (Hp24 : 0 < 2 ^ (F32.prec - k))
    by (apply pow2_pos; unfold F32.prec; lia).
  assert (E53 : Zpos pd * 2 ^ (F64.prec - k)
                = Zpos pd * 2 ^ (F32.prec - k) * 536870912).
  { replace (F64.prec - k) with (F32.prec - k + 29)
      by (unfold F32.prec, F64.prec; lia).
    rewrite Z.pow_add_r by (unfold F32.prec; lia).
    change (2 ^ 29) with 536870912. lia. }
  rewrite E53.
  destruct (Zpos pd * 2 ^ (F32.prec - k)) as [|q|q] eqn:Eq; try lia.
  change (Zpos q * 536870912) with (Zpos (q * 536870912)).
  rewrite !pack_finite by (unfold F32.prec, F32.emax, F64.prec, F64.emax; lia).
  rewrite double_of_float_exact.
  - f_equal. unfold F32.prec, F64.prec. lia.
  - rewrite <- Eq. rewrite Zdigits2_mul_pow2 by (unfold F32.prec; lia).
    fold k. unfold F32.prec. lia.
  - unfold F32.prec. lia.
Qed.

(** Up to [2^24] ms the elapsed time in seconds is the same [float] in the
    second version of the serial sketch and in [flow_control.ino]. *)
Lemma serial_elapsedSeconds_agrees (currentTime last : Z) :
  0 < ULong.sub currentTime last < 2 ^ 24 ->
  Serial.elapsedSeconds_of currentTime last
  = elapsedSeconds_of currentTime last.
Proof.
  intros Hd. unfold Serial.elapsedSeconds_of, Serial.elapsed, elapsedSeconds_of.
  set (d := ULong.sub currentTime last) in *.
  rewrite (of_Z_double_of_float d Hd), d1000_of_f1000.
  assert (Hk : 0 < Zdigits2 d <= 24).
  { split; [apply Zdigits2_pos; lia | apply Zdigits2_lt_pow2; lia]. }
  pose proof (of_Z_normal32 d ltac:(lia) ltac:(lia)) as H1.
  pose proof (normal32_weaken _ _ (-23) 1 _ H1 ltac:(lia) ltac:(lia)) as H2.
  apply (div_via_double _ _ _ _ _ _ H2 f1000_normal); lia.
Qed.

(** X13: once a second has elapsed, and for 4 h 39 min ([2^24] ms) after the
    last computation, a pass of [loop] of the second version of the serial
    sketch leaves exactly the globals that a pass of [loop] of
    [flow_control.ino] leaves: same flow rate, same total, bit for bit,
    although the serial sketch divides in [double]. *)
Theorem serial_loop_hz_agrees (st : state) (currentTime : Z)
    (Hpc : ULong.in_range (pulseCount st))
    (Hdue : Serial.CALC_INTERVAL <= ULong.sub currentTime (lastTime st))
    (Hlt : ULong.sub currentTime (lastTime st) < 2 ^ 24) :
  Serial.loop_hz currentTime st = loop currentTime st.
Proof.
  destruct (serial_loop_due st currentTime Hdue) as [_ ->].
  unfold Serial.CALC_INTERVAL in Hdue.
  destruct (loop_unfold currentTime st) as [E|(_ & _ & ->)].
  { exfalso. unfold loop, loop_sample in E.
    replace (CALC_INTERVAL <=? ULong.sub currentTime (lastTime st)) with true
      in E by (symmetry; apply Z.leb_le; unfold CALC_INTERVAL; lia).
    apply (f_equal lastTime) in E. cbn in E.
    rewrite <- E in Hdue. rewrite sub_diag in Hdue. lia. }
  rewrite serial_elapsedSeconds_agrees by lia.
  pose proof (elapsedSeconds_of_range currentTime (lastTime st)
                ltac:(unfold CALC_INTERVAL; lia)) as Hes.
  unfold Serial.update, step, commit, calc.
  cbn [sampleFlowRate sampleTotalVolume].
  rewrite (serial_volume_eq _ Hpc).
  unfold Serial.frequency_of, frequency_of.
  rewrite (normal32_pos _ _ _ Hes). reflexivity.
Qed.

Lemma serial_loop_hz_agrees_witness :
  let st := run_all [OpSetup 0; OpPulse; OpPulse; OpPulse] initial_state in
  ULong.in_range (pulseCount st) /\
  Serial.CALC_INTERVAL <= ULong.sub 1234 (lastTime st) /\
  ULong.sub 1234 (lastTime st) < 2 ^ 24 /\
  Serial.loop_hz 1234 st = loop 1234 st.
Proof.
  intros st.
  assert (H1 : ULong.in_range (pulseCount st))
    by (unfold ULong.in_range, ULong.modulus; vm_compute;
        split; [discriminate | reflexivity]).
  assert (H2 : Serial.CALC_INTERVAL <= ULong.sub 1234 (lastTime st))
    by (vm_compute; discriminate).
  assert (H3 : ULong.sub 1234 (lastTime st) < 2 ^ 24)
    by (vm_compute; reflexivity).
  split; [exact H1|]. split; [exact H2|]. split; [exact H3|].
  apply (serial_loop_hz_agrees st 1234 H1 H2 H3).
Defined.

(** ** The running total stays finite *)

Lemma run_total_ok (op : operation) (st : state) :
  ULong.in_range (pulseCount st) -> total_ok (totalVolume st) ->
  total_ok (totalVolume (run op st)).
Proof.
  intros Hpc Htot.
  assert (Hvol : volume_L_of (pulseCount st) = F32.zero \/
                 normal_in 24 (-32) 4 (volume_L_of (pulseCount st))).
  { destruct (volume_L_of_range _ Hpc) as [[_ ->]|[_ H]]; [left|right]; auto. }
  destruct op as [now| |t|t|t| | | |factor]; cbn [run]; try exact Htot.
  - destruct (loop_unfold t st) as [->|(_ & _ & ->)]; [exact Htot|].
    cbn. apply add_total_ok; assumption.
  - unfold Serial.loop.
    destruct (Serial.CALC_INTERVAL <=? ULong.sub t (lastTime st));
      [|exact Htot].
    cbn. rewrite (serial_volume_eq _ Hpc). apply add_total_ok; assumption.
  - unfold Serial.loop_hz.
    destruct (Serial.CALC_INTERVAL <=? ULong.sub t (lastTime st));
      [|exact Htot].
    cbn. rewrite (serial_volume_eq _ Hpc). apply add_total_ok; assumption.
  - left. reflexivity.
Qed.

Lemma run_all_total_ok (ops : list operation) (st : state) :
  wf_state st -> total_ok (totalVolume st) ->
  total_ok (totalVolume (run_all ops st)).
Proof.
  revert st. induction ops as [|op ops IH]; intros st Hwf Htot; [exact Htot|].
  cbn. apply IH; [apply run_wf; exact Hwf|].
  apply run_total_ok; [apply Hwf | exact Htot].
Qed.

(** X14: whatever the history of operations of the sketches, calls of the
    setter with any factor and resets included, [totalVolume] is a finite
    non-negative number below [2^54]: it never becomes NaN or infinite. *)
Theorem totalVolume_always_finite (history : list operation) :
  let st := run_all history initial_state in
  finite_nonneg (getTotalVolume st) = true /\
  total_ok (getTotalVolume st) /\
  ULong.in_range (pulseCount st).
Proof.
  intros st.
  assert (Htot : total_ok (totalVolume st)).
  { apply run_all_total_ok; [exact initial_state_wf | left; reflexivity]. }
  split; [exact (small_nonneg_finite _ _ (total_ok_small _ Htot))|].
  split; [exact Htot|].
  apply (run_all_wf history initial_state initial_state_wf).
Qed.

(** * One second of pulses *)

Lemma div_one32 (lo hi : Z) (x : float32) :
  normal_in 24 lo hi x -> -149 < lo -> hi <= 104 ->
  F32.div x (F32.of_Z 1) = x.
Proof.
  intros (m & e & -> & Hd & He) Hlo Hhi.
  apply (div_one F32.prec F32.emax prec32_gt_1 m e Hd).
  unfold F32.prec, F32.emax. lia.
Qed.

Lemma div_one64 (lo hi : Z) (x : float64) :
  normal_in 53 lo hi x -> -1074 < lo -> hi <= 971 ->
  F64.div x (F64.of_Z 1) = x.
Proof.
  intros (m & e & -> & Hd & He) Hlo Hhi.
  apply (div_one F64.prec F64.emax prec64_gt_1 m e Hd).
  unfold F64.prec, F64.emax. lia.
Qed.

(** Converting an [unsigned long] to [double] and then to [float] is
    converting it to [float]. *)
Lemma float_of_double_of_Z (p : Z) :
  0 < p < 2 ^ 32 -> float_of_double (F64.of_Z p) = F32.of_Z p.
Proof.
  intros Hp. destruct p as [|pp|pp]; try lia.
  pose proof (Zdigits2_ulong (Zpos pp) Hp) as Hk.
  unfold F64.of_Z, F32.of_Z. cbn [binary_normalize].
  rewrite (binary_round_widen F64.prec F64.emax prec64_gt_1)
    by (unfold F64.prec, F64.emax; lia).
  set (k := Zdigits2 (Zpos pp)) in *.
  replace (k + 0 - F64.prec) with (k - 53) by (unfold F64.prec; lia).
  assert (Hp53 : 0 < 2 ^ (F64.prec - k))
    by (apply pow2_pos; unfold F64.prec; lia).
  destruct (Zpos pp * 2 ^ (F64.prec - k)) as [|P|P] eqn:EP; try lia.
  rewrite pack_finite by (unfold F64.prec, F64.emax; lia).
  cbn [float_of_double].
  assert (HdP : Zdigits2 (Zpos P) = 53).
  { rewrite <- EP, Zdigits2_mul_pow2 by (unfold F64.prec; lia).
    fold k. unfold F64.prec. lia. }
  rewrite !(binary_round_rhe F32.prec F32.emax prec32_gt_1).
  assert (EL : fexp F32.prec F32.emax (Zdigits2 (Zpos P) + (k - 53))
               = k - 24)
    by (rewrite HdP, fexp32; lia).
  assert (ER : fexp F32.prec F32.emax (Zdigits2 (Zpos pp) + 0) = k - 24)
    by (fold k; rewrite fexp32; lia).
  rewrite EL, ER.
  replace (Z.min (k - 53) (k - 24)) with (k - 53) by lia.
  replace (k - 53 - (k - 53)) with 0 by lia.
  replace (k - 24 - (k - 53)) with 29 by lia.
  change (2 ^ 0) with 1. rewrite Z.mul_1_r.
  assert (Em2 : round_half_even_div (Zpos P) (2 ^ 29)
                = round_half_even_div
                    (Zpos pp * 2 ^ (0 - Z.min 0 (k - 24)))
                    (2 ^ (k - 24 - Z.min 0 (k - 24)))).
  { rewrite <- EP.
    assert (Hc : 0 < 2 ^ (53 - k + Z.min 0 (k - 24))) by (apply pow2_pos; lia).
    rewrite <- (rhe_scale (Zpos pp * 2 ^ (0 - Z.min 0 (k - 24))) _
                  (2 ^ (53 - k + Z.min 0 (k - 24))))
      by (try apply pow2_pos; lia).
    rewrite <- Z.mul_assoc, <- !Z.pow_add_r by lia.
    f_equal; f_equal; f_equal; unfold F64.prec; lia. }
  rewrite Em2. reflexivity.
Qed.

Lemma one_second32 : F32.div (F32.of_Z 1000) f1000 = F32.of_Z 1.
Proof. reflexivity. Qed.

Lemma one_second64 : F64.div (F64.of_Z 1000) d1000 = F64.of_Z 1.
Proof. reflexivity. Qed.

(** X15: when exactly 1000 ms have elapsed, the frequency in Hz is the pulse
    count converted to [float], in [flow_control.ino] and in both versions
    of the serial sketch, and the three passes of [loop] store the same
    flow rate: that count divided by the calibration factor. *)
Theorem one_second_frequency (st : state) (currentTime : Z)
    (Hpc : ULong.in_range (pulseCount st))
    (Hsec : ULong.sub currentTime (lastTime st) = 1000) :
  frequency_of (pulseCount st) (elapsedSeconds_of currentTime (lastTime st))
    = F32.of_Z (pulseCount st) /\
  Serial.frequency_double (pulseCount st) currentTime (lastTime st)
    = F32.of_Z (pulseCount st) /\
  Serial.frequency_of (pulseCount st)
      (Serial.elapsedSeconds_of currentTime (lastTime st))
    = F32.of_Z (pulseCount st) /\
  getFlowRate (loop currentTime st)
    = F32.div (F32.of_Z (pulseCount st)) (calibrationFactor st) /\
  getFlowRate (Serial.loop currentTime st)
    = F32.div (F32.of_Z (pulseCount st)) (calibrationFactor st) /\
  getFlowRate (Serial.loop_hz currentTime st)
    = F32.div (F32.of_Z (pulseCount st)) (calibrationFactor st).
Proof.
  assert (E1 : frequency_of (pulseCount st)
                 (elapsedSeconds_of currentTime (lastTime st))
               = F32.of_Z (pulseCount st)).
  { unfold elapsedSeconds_of. rewrite Hsec, one_second32. unfold frequency_of.
    change (F32.ltb F32.zero (F32.of_Z 1)) with true. cbv iota.
    destruct (in_range_cases _ Hpc) as [->|Hpos]; [reflexivity|].
    apply (div_one32 _ _ _ (of_ulong_normal _ Hpos)); lia. }
  assert (E2 : Serial.frequency_double (pulseCount st) currentTime (lastTime st)
               = F32.of_Z (pulseCount st)).
  { unfold Serial.frequency_double, Serial.elapsed.
    rewrite Hsec, one_second64.
    destruct (in_range_cases _ Hpc) as [->|Hpos]; [reflexivity|].
    pose proof (Zdigits2_ulong _ Hpos) as Hk.
    pose proof (of_Z_normal64 (pulseCount st) ltac:(lia) ltac:(lia)) as Hn.
    rewrite (div_one64 _ _ _ Hn) by lia.
    apply float_of_double_of_Z. exact Hpos. }
  assert (E3 : Serial.frequency_of (pulseCount st)
                 (Serial.elapsedSeconds_of currentTime (lastTime st))
               = F32.of_Z (pulseCount st)).
  { unfold Serial.elapsedSeconds_of, Serial.elapsed.
    rewrite Hsec, one_second64. unfold Serial.frequency_of.
    change (float_of_double (F64.of_Z 1)) with (F32.of_Z 1).
    destruct (in_range_cases _ Hpc) as [->|Hpos]; [reflexivity|].
    apply (div_one32 _ _ _ (of_ulong_normal _ Hpos)); lia. }
  split; [exact E1|]. split; [exact E2|]. split; [exact E3|].
  destruct (serial_loop_due st currentTime
              ltac:(rewrite Hsec; unfold Serial.CALC_INTERVAL; lia))
    as [-> ->].
  unfold getFlowRate, loop, loop_sample. rewrite Hsec.
  change (CALC_INTERVAL <=? 1000) with true. cbv iota.
  cbn [commit calc flowRate sampleFlowRate Serial.update].
  rewrite E1, E2, E3. repeat split; reflexivity.
Qed.

Lemma one_second_frequency_witness :
  let st := run_all [OpSetup 500; OpPulse; OpPulse; OpPulse] initial_state in
  ULong.in_range (pulseCount st) /\
  ULong.sub 1500 (lastTime st) = 1000 /\
  getFlowRate (Serial.loop 1500 st) = F32.of_ratio 3 5.
Proof.
  intros st.
  assert (H1 : ULong.in_range (pulseCount st))
    by (unfold ULong.in_range, ULong.modulus; vm_compute;
        split; [discriminate | reflexivity]).
  assert (H2 : ULong.sub 1500 (lastTime st) = 1000) by reflexivity.
  split; [exact H1|]. split; [exact H2|].
  destruct (one_second_frequency st 1500 H1 H2) as (_ & _ & _ & _ & E & _).
  rewrite E. reflexivity.
Defined.

(** * The two versions of the serial sketch *)

(** X16: the two versions of the serial sketch always leave the same total,
    counter, time stamp and calibration factor; their flow rates can
    differ in the last bit, the first version dividing in [double] by the
    elapsed time in [double], the second in [float] by the elapsed time
    rounded to [float]: they do for one pulse in 1001 ms. *)
Theorem serial_versions_compared :
  (forall st currentTime,
     totalVolume (Serial.loop currentTime st)
       = totalVolume (Serial.loop_hz currentTime st) /\
     pulseCount (Serial.loop currentTime st)
       = pulseCount (Serial.loop_hz currentTime st) /\
     lastTime (Serial.loop currentTime st)
       = lastTime (Serial.loop_hz currentTime st) /\
     calibrationFactor (Serial.loop currentTime st)
       = calibrationFactor (Serial.loop_hz currentTime st)) /\
  (let st := run_all [OpSetup 0; OpPulse] initial_state in
   getFlowRate (Serial.loop 1001 st) = S754_finite false 13408365 (-26) /\
   getFlowRate (Serial.loop_hz 1001 st) = S754_finite false 13408364 (-26)).
Proof.
  split.
  - intros st currentTime. unfold Serial.loop, Serial.loop_hz.
    destruct (Serial.CALC_INTERVAL <=? ULong.sub currentTime (lastTime st));
      repeat split; reflexivity.
  - split; vm_compute; reflexivity.
Qed.

(** * The nominal interval of [flow_control.ino] *)

Lemma rhe_nearest (a b k : Z) :
  0 < b -> 2 * Z.abs (a - k * b) < b -> round_half_even_div a b = k.
Proof.
  intros Hb Hnear.
  pose proof (Z.div_mod a b ltac:(lia)) as Hdm.
  pose proof (Z.mod_pos_bound a b Hb) as Hr.
  destruct (rhe_cases a b Hb) as [[Hc ->]|[[Hc ->]|[Hc ->]]].
  - assert (a / b = k \/ a / b < k \/ k < a / b) as [E|[E|E]] by lia;
      [exact E | exfalso; nia | exfalso; nia].
  - exfalso.
    assert (a / b = k \/ a / b < k \/ k < a / b) as [E|[E|E]] by lia; nia.
  - assert (a / b + 1 = k \/ a / b + 1 < k \/ k < a / b + 1) as [E|[E|E]]
      by lia; [exact E | exfalso; nia | exfalso; nia].
Qed.

(** A positive integer below [2^24] is a [float]: its digits, aligned to
    24 bits. *)
Lemma of_Z_small32 (p : Z) :
  0 < p < 2 ^ 24 ->
  exists m,
    F32.of_Z p = S754_finite false m (Zdigits2 p - 24) /\
    Zpos m = p * 2 ^ (24 - Zdigits2 p).
Proof.
  intros Hp. destruct p as [|pp|pp]; try lia.
  assert (Hk : 0 < Zdigits2 (Zpos pp) <= 24).
  { split; [apply Zdigits2_pos; lia | apply Zdigits2_lt_pow2; lia]. }
  unfold F32.of_Z. cbn [binary_normalize].
  rewrite (binary_round_widen F32.prec F32.emax prec32_gt_1)
    by (unfold F32.prec, F32.emax; lia).
  set (k := Zdigits2 (Zpos pp)) in *.
  assert (Hp24 : 0 < 2 ^ (F32.prec - k))
    by (apply pow2_pos; unfold F32.prec; lia).
  destruct (Zpos pp * 2 ^ (F32.prec - k)) as [|q|q] eqn:Eq; try lia.
  rewrite pack_finite by (unfold F32.prec, F32.emax; lia).
  exists q. split.
  - replace (k + 0 - F32.prec) with (k - 24) by (unfold F32.prec; lia).
    reflexivity.
  - symmetry. exact Eq.
Qed.

Lemma tenth_second : F32.div (F32.of_Z 100) f1000
                     = S754_finite false 13421773 (-27).
Proof. reflexivity. Qed.

(** Dividing a pulse count by the [float] nearest to 0.1 gives ten times
    the count, exactly, as long as that is below [2^24]. *)
Lemma div_tenth (p : Z) :
  0 < p -> 10 * p < 2 ^ 24 ->
  F32.div (F32.of_Z p) (S754_finite false 13421773 (-27)) = F32.of_Z (10 * p).
Proof.
  intros Hp H10.
  destruct (of_Z_small32 p ltac:(lia)) as (mx & -> & Emx).
  destruct (of_Z_small32 (10 * p) ltac:(lia)) as (mz & -> & Emz).
  set (k := Zdigits2 p) in *. set (k' := Zdigits2 (10 * p)) in *.
  pose proof (Zdigits2_bounds p Hp) as Hbp. fold k in Hbp.
  pose proof (Zdigits2_bounds (10 * p) ltac:(lia)) as Hbz. fold k' in Hbz.
  assert (Hk : 0 < k) by (apply Zdigits2_pos; lia).
  assert (Hk' : k' <= 24) by (apply Zdigits2_lt_pow2; lia).
  (* ten times the count has three or four more digits *)
  assert (Hkk : k' = k + 3 \/ k' = k + 4).
  { assert (k + 3 <= k').
    { destruct (Z_le_gt_dec (k + 3) k') as [|Hgt]; [assumption|exfalso].
      assert (2 ^ k' <= 2 ^ (k + 2)) by (apply Z.pow_le_mono_r; lia).
      rewrite Z.pow_add_r in * by lia. change (2 ^ 2) with 4 in *.
      rewrite (pow2_pred k) in * by lia. lia. }
    assert (k' <= k + 4).
    { destruct (Z_le_gt_dec k' (k + 4)) as [|Hgt]; [assumption|exfalso].
      assert (2 ^ (k + 4) <= 2 ^ (k' - 1)) by (apply Z.pow_le_mono_r; lia).
      rewrite Z.pow_add_r in * by lia. change (2 ^ 4) with 16 in *. lia. }
    lia. }
  assert (Hdx : Zdigits2 (Zpos mx) = F32.prec).
  { rewrite Emx, Zdigits2_mul_pow2 by lia. fold k. unfold F32.prec. lia. }
  destruct (div_exact F32.prec F32.emax prec32_gt_1 mx 13421773 (k - 24) (-27)
              Hdx ltac:(reflexivity)
              ltac:(unfold F32.prec, F32.emax; lia)
              ltac:(unfold F32.prec, F32.emax; lia)) as [Hm3 E].
  cbv zeta in Hm3, E. unfold F32.div. rewrite E. clear E Hm3.
  (* the aligned mantissa is a multiple of 8 *)
  assert (Ej : exists j, Zpos mx = 8 * j /\ 0 < j /\ p * 2 ^ (21 - k) = j).
  { exists (p * 2 ^ (21 - k)).
    assert (0 < 2 ^ (21 - k)) by (apply pow2_pos; lia).
    split; [|split; [nia | reflexivity]].
    rewrite Emx. replace (24 - k) with (3 + (21 - k)) by lia.
    rewrite Z.pow_add_r by lia. change (2 ^ 3) with 8. lia. }
  destruct Ej as (j & Ej & Hj & Ejp).
  assert (Hbx : Zpos mx < 16777216).
  { pose proof (Zdigits2_bounds (Zpos mx) ltac:(lia)) as [_ H].
    rewrite Hdx in H. exact H. }
  change (2 ^ F32.prec) with 16777216.
  destruct (Z.ltb_spec (Zpos mx) 13421773) as [Hlt|Hge].
  - (* three more digits *)
    assert (Ek' : k' = k + 3).
    { destruct Hkk as [|Ek4]; [assumption|exfalso].
      rewrite Ek4 in Hbz. replace (k + 4 - 1) with (3 + k) in Hbz by lia.
      rewrite Z.pow_add_r in Hbz by lia. change (2 ^ 3) with 8 in Hbz.
      assert (Hp2 : 2 ^ 24 = 2 ^ (24 - k) * 2 ^ k)
        by (rewrite <- Z.pow_add_r by lia; f_equal; lia).
      change (2 ^ 24) with 16777216 in Hp2.
      assert (0 < 2 ^ (24 - k)) by (apply pow2_pos; lia).
      nia. }
    change (2 ^ 0) with 1. rewrite Z.mul_1_r.
    assert (EM : Zpos mz = 10 * j).
    { rewrite Emz, Ek', <- Ejp.
      replace (24 - (k + 3)) with (21 - k) by lia. lia. }
    rewrite (rhe_nearest _ _ (10 * j)) by lia.
    rewrite <- EM, pack_finite by (unfold F32.prec, F32.emax; lia).
    f_equal. unfold F32.prec. lia.
  - (* four more digits *)
    assert (Ek' : k' = k + 4).
    { destruct Hkk as [Ek3|]; [exfalso|assumption].
      rewrite Ek3 in Hbz. replace (k + 3) with (3 + k) in Hbz by lia.
      rewrite Z.pow_add_r in Hbz by lia. change (2 ^ 3) with 8 in Hbz.
      assert (Hp2 : 2 ^ 24 = 2 ^ (24 - k) * 2 ^ k)
        by (rewrite <- Z.pow_add_r by lia; f_equal; lia).
      change (2 ^ 24) with 16777216 in Hp2.
      assert (0 < 2 ^ (24 - k)) by (apply pow2_pos; lia).
      nia. }
    change (2 ^ 1) with 2.
    assert (EM : Zpos mz = 5 * j).
    { rewrite Emz, Ek', <- Ejp.
      assert (E2 : 2 ^ (21 - k) = 2 * 2 ^ (24 - (k + 4))).
      { replace (21 - k) with (Z.succ (24 - (k + 4))) by lia.
        apply Z.pow_succ_r. lia. }
      rewrite E2. lia. }
    rewrite (rhe_nearest _ _ (5 * j)) by lia.
    rewrite <- EM, pack_finite by (unfold F32.prec, F32.emax; lia).
    f_equal. unfold F32.prec. lia.
Qed.

(** Dividing five times a number by 5.0 gives the number back. *)
Lemma div_five (q : Z) :
  0 < q -> 5 * q < 2 ^ 24 ->
  F32.div (F32.of_Z (5 * q)) f5 = F32.of_Z q.
Proof.
  intros Hq H5.
  destruct (of_Z_small32 (5 * q) ltac:(lia)) as (mx & -> & Emx).
  destruct (of_Z_small32 q ltac:(lia)) as (mz & -> & Emz).
  set (kx := Zdigits2 (5 * q)) in *. set (kz := Zdigits2 q) in *.
  pose proof (Zdigits2_bounds q Hq) as Hbz. fold kz in Hbz.
  pose proof (Zdigits2_bounds (5 * q) ltac:(lia)) as Hbx. fold kx in Hbx.
  assert (Hkz : 0 < kz) by (apply Zdigits2_pos; lia).
  assert (Hkx : kx <= 24) by (apply Zdigits2_lt_pow2; lia).
  assert (Hkk : kx = kz + 2 \/ kx = kz + 3).
  { assert (kz + 2 <= kx).
    { destruct (Z_le_gt_dec (kz + 2) kx) as [|Hgt]; [assumption|exfalso].
      assert (2 ^ kx <= 2 ^ (kz + 1)) by (apply Z.pow_le_mono_r; lia).
      rewrite Z.pow_add_r in * by lia. change (2 ^ 1) with 2 in *.
      rewrite (pow2_pred kz) in * by lia. lia. }
    assert (kx <= kz + 3).
    { destruct (Z_le_gt_dec kx (kz + 3)) as [|Hgt]; [assumption|exfalso].
      assert (2 ^ (kz + 3) <= 2 ^ (kx - 1)) by (apply Z.pow_le_mono_r; lia).
      rewrite Z.pow_add_r in * by lia. change (2 ^ 3) with 8 in *. lia. }
    lia. }
  assert (Hdx : Zdigits2 (Zpos mx) = F32.prec).
  { rewrite Emx, Zdigits2_mul_pow2 by lia. fold kx. unfold F32.prec. lia. }
  destruct (div_exact F32.prec F32.emax prec32_gt_1 mx 10485760 (kx - 24) (-21)
              Hdx ltac:(reflexivity)
              ltac:(unfold F32.prec, F32.emax; lia)
              ltac:(unfold F32.prec, F32.emax; lia)) as [Hm3 E].
  cbv zeta in Hm3, E. unfold F32.div, f5. rewrite E. clear E Hm3.
  change (2 ^ F32.prec) with 16777216.
  assert (Hpx : 0 < 2 ^ (24 - kx)) by (apply pow2_pos; lia).
  assert (Hpz : 0 < 2 ^ (24 - kz)) by (apply pow2_pos; lia).
  destruct (Z.ltb_spec (Zpos mx) 10485760) as [Hlt|Hge].
  - assert (Ek : kx = kz + 3).
    { destruct Hkk as [Ek2|]; [exfalso|assumption].
      assert (E2 : 2 ^ (24 - kz) = 4 * 2 ^ (24 - kx)).
      { replace (24 - kz) with (2 + (24 - kx)) by lia.
        rewrite Z.pow_add_r by lia. reflexivity. }
      assert (E24 : 2 ^ 24 = 2 ^ (24 - kz) * 2 ^ kz)
        by (rewrite <- Z.pow_add_r by lia; f_equal; lia).
      change (2 ^ 24) with 16777216 in E24.
      rewrite (pow2_pred kz) in * by lia. nia. }
    change (2 ^ 0) with 1. rewrite Z.mul_1_r.
    assert (E8 : 2 ^ (24 - kz) = 8 * 2 ^ (24 - kx)).
    { replace (24 - kz) with (3 + (24 - kx)) by lia.
      rewrite Z.pow_add_r by lia. reflexivity. }
    replace (Zpos mx * 16777216) with (Zpos mz * 10485760) by lia.
    rewrite rhe_exact, pack_finite by (unfold F32.prec, F32.emax; lia).
    f_equal. unfold F32.prec. lia.
  - assert (Ek : kx = kz + 2).
    { destruct Hkk as [|Ek3]; [assumption|exfalso].
      assert (E8 : 2 ^ (24 - kz) = 8 * 2 ^ (24 - kx)).
      { replace (24 - kz) with (3 + (24 - kx)) by lia.
        rewrite Z.pow_add_r by lia. reflexivity. }
      assert (E24 : 2 ^ 24 = 2 ^ (24 - kz) * 2 ^ kz)
        by (rewrite <- Z.pow_add_r by lia; f_equal; lia).
      change (2 ^ 24) with 16777216 in E24. nia. }
    change (2 ^ 1) with 2.
    assert (E4 : 2 ^ (24 - kz) = 4 * 2 ^ (24 - kx)).
    { replace (24 - kz) with (2 + (24 - kx)) by lia.
      rewrite Z.pow_add_r by lia. reflexivity. }
    replace (Zpos mx * 16777216) with (Zpos mz * (10485760 * 2)) by lia.
    rewrite rhe_exact, pack_finite by (unfold F32.prec, F32.emax; lia).
    f_equal. unfold F32.prec. lia.
Qed.

(** X17: at the nominal interval of [flow_control.ino], exactly 100 ms,
    the frequency is exactly ten times the pulse count (up to 1677721
    pulses, where ten times the count is still a [float]), although 0.1
    is not a [float]; the flow rate stored is that number divided by the
    calibration factor, and with the factor 5.0 of the sketch it is
    exactly twice the pulse count. *)
Theorem nominal_interval_frequency (st : state) (currentTime : Z)
    (Hpc : 0 <= pulseCount st < 1677722)
    (Hnom : ULong.sub currentTime (lastTime st) = CALC_INTERVAL) :
  loop_sample currentTime st
    = Some (calc st (pulseCount st) (F32.of_ratio 100 1000)) /\
  frequency (calc st (pulseCount st) (F32.of_ratio 100 1000))
    = F32.of_Z (10 * pulseCount st) /\
  getFlowRate (loop currentTime st)
    = F32.div (F32.of_Z (10 * pulseCount st)) (calibrationFactor st) /\
  (calibrationFactor st = F32.of_Z 5 ->
   getFlowRate (loop currentTime st) = F32.of_Z (2 * pulseCount st)).
Proof.
  assert (Es : loop_sample currentTime st
               = Some (calc st (pulseCount st) (F32.of_ratio 100 1000))).
  { unfold loop_sample, elapsedSeconds_of. rewrite Hnom. reflexivity. }
  assert (Ef : frequency (calc st (pulseCount st) (F32.of_ratio 100 1000))
               = F32.of_Z (10 * pulseCount st)).
  { cbn [calc frequency]. unfold frequency_of.
    change (F32.of_ratio 100 1000) with (S754_finite false 13421773 (-27)).
    change (F32.ltb F32.zero (S754_finite false 13421773 (-27))) with true.
    cbv iota.
    assert (pulseCount st = 0 \/ 0 < pulseCount st) as [->|Hpos] by lia;
      [reflexivity|].
    apply div_tenth; [exact Hpos|].
    change (2 ^ 24) with 16777216. lia. }
  assert (Eq : getFlowRate (loop currentTime st)
               = F32.div (F32.of_Z (10 * pulseCount st))
                   (calibrationFactor st)).
  { unfold getFlowRate, loop. rewrite Es. cbn [commit flowRate].
    change (sampleFlowRate (calc st (pulseCount st) (F32.of_ratio 100 1000)))
      with (F32.div (frequency (calc st (pulseCount st)
                                  (F32.of_ratio 100 1000)))
              (calibrationFactor st)).
    rewrite Ef. reflexivity. }
  split; [exact Es|]. split; [exact Ef|]. split; [exact Eq|].
  intros Hcal. rewrite Eq, Hcal.
  assert (pulseCount st = 0 \/ 0 < pulseCount st) as [->|Hpos] by lia;
    [reflexivity|].
  replace (10 * pulseCount st) with (5 * (2 * pulseCount st)) by lia.
  apply div_five; [lia|]. change (2 ^ 24) with 16777216. lia.
Qed.

Lemma nominal_interval_frequency_witness :
  let st := run_all [OpSetup 0; OpPulse; OpPulse; OpPulse; OpPulse; OpPulse]
              initial_state in
  0 <= pulseCount st < 1677722 /\
  ULong.sub 100 (lastTime st) = CALC_INTERVAL /\
  getFlowRate (loop 100 st) = F32.of_Z 10.
Proof.
  intros st.
  assert (H1 : 0 <= pulseCount st < 1677722)
    by (vm_compute; split; [discriminate | reflexivity]).
  assert (H2 : ULong.sub 100 (lastTime st) = CALC_INTERVAL) by reflexivity.
  split; [exact H1|]. split; [exact H2|].
  destruct (nominal_interval_frequency st 100 H1 H2) as (_ & _ & _ & E).
  apply E. reflexivity.
Defined.
